(** * glsl_processor: the shader text pipeline of r3d

    A shallow embedding of [scripts/glsl_processor.py]: include resolution,
    comment stripping, newline compaction, symbol normalisation, float
    literal shortening and the length-prefixed packaging, with the
    properties of the pipeline proved over the embedding.

    - A Python [str] is a sequence of code points; a text is a list of
      code points held in [N].  The white space and the line boundaries
      of Python are given for all of Unicode; its decimal digits and
      alphanumerics beyond ASCII, which only the literal optimizer
      looks at, are parameters of that pass.
    - The passes are written with the [re] module; its backtracking
      semantics is embedded once ([matches], [scan], [re_sub]), for the
      constructs the patterns use, and every pass is the pattern of the
      source given to that engine.
    - The file system is a finite map from canonical paths to texts,
      with [pathlib]'s operations and the errors of [open], [write] and
      [print] as parameters; every file that exists can be read.  The
      shared set of included files and the error stream are threaded
      through the resolver as a state; the recursion of the resolver
      takes fuel, and is shown to return.
    - [zlib.compress] is a parameter of the packager.

    The definitions come first: the program, then the vocabulary of the
    properties; the lemmas and theorems follow. *)

From Stdlib Require Import NArith List Ascii String Bool Lia.
From stdpp Require Import base list gmap.
Import ListNotations.

Local Open Scope string_scope.
Local Open Scope list_scope.
Local Open Scope N_scope.

(** ** Texts *)

Definition char := N.
Definition text := list char.

Definition ord (a : ascii) : char := N_of_ascii a.

(** A text literal: the code points of an ASCII string. *)
Definition str (s : string) : text := map ord (list_ascii_of_string s).

Definition in_range (lo hi c : N) : bool := (lo <=? c) && (c <=? hi).

(** [str.isspace], which is also what [str.strip] removes and what [\s]
    matches in a [str] pattern. *)
Definition isspace (c : char) : bool :=
  in_range 9 13 c || in_range 28 32 c || (c =? 133) || (c =? 160)
  || (c =? 5760) || in_range 8192 8202 c || in_range 8232 8233 c
  || (c =? 8239) || (c =? 8287) || (c =? 12288).

(** The line boundaries of [str.splitlines]. *)
Definition is_linebreak (c : char) : bool :=
  in_range 10 13 c || in_range 28 30 c || (c =? 133) || in_range 8232 8233 c.

Definition LF : char := 10.
Definition CR : char := 13.
Definition TAB : char := 9.
Definition SPACE : char := 32.
Definition HASH : char := 35.
Definition QUOTE : char := 34.

(** ** The [re] engine *)

Module Re.

(** Patterns.  A character set carries its membership test; [Star] is
    [r*] when greedy and [r*?] when not; [Bol] is [^], under
    [re.MULTILINE] when its flag is set; [Eos] is [$] without
    [re.MULTILINE]; [Boundary w] is [\b] for the word characters [w];
    [Ahead true r] is [(?=r)] and [Ahead false r] is [(?!r)]. *)
Inductive regex : Type :=
| Eps
| Set_ (p : char -> bool)
| Cat (r1 r2 : regex)
| Alt (r1 r2 : regex)
| Star (greedy : bool) (r : regex)
| Group (i : nat) (r : regex)
| Bol (multiline : bool)
| Eos
| Boundary (w : char -> bool)
| Ahead (positive : bool) (r : regex).

Definition Chr (c : char) : regex := Set_ (N.eqb c).
Definition Plus (greedy : bool) (r : regex) : regex := Cat r (Star greedy r).

Fixpoint Lit (s : text) : regex :=
  match s with
  | [] => Eps
  | c :: s' => Cat (Chr c) (Lit s')
  end.

(** The matcher's position: the text already behind it (nearest
    character first), the text ahead, and the groups captured so far
    (latest first). *)
Record mstate : Type := MState {
  behind : text;
  ahead : text;
  groups : list (nat * text)
}.

Definition at_bol (multiline : bool) (s : mstate) : bool :=
  match behind s with
  | [] => true
  | c :: _ => multiline && (c =? LF)
  end.

(** [$] matches at the end of the text and just before a newline that
    ends the text. *)
Definition at_eos (s : mstate) : bool :=
  match ahead s with
  | [] => true
  | [c] => c =? LF
  | _ => false
  end.

Definition word_here (w : char -> bool) (t : text) : bool :=
  match t with
  | [] => false
  | c :: _ => w c
  end.

Definition at_boundary (w : char -> bool) (s : mstate) : bool :=
  xorb (word_here w (behind s)) (word_here w (ahead s)).

(** The text consumed between two positions of one scan. *)
Definition consumed (s s' : mstate) : text :=
  take (length (ahead s) - length (ahead s')) (ahead s).

Definition advanced (s s' : mstate) : bool :=
  (length (ahead s') <? length (ahead s))%nat.

(** One repetition: [body] is tried again only after an iteration that
    consumed something; a greedy repetition prefers one more iteration,
    a lazy one prefers to stop.  [n] bounds the iterations by the length
    of the text ahead. *)
Fixpoint star_iter (greedy : bool) (body : mstate -> list mstate)
    (n : nat) (s : mstate) : list mstate :=
  match n with
  | O => [s]
  | S n' =>
      let more :=
        flat_map (fun s' => if advanced s s' then star_iter greedy body n' s'
                            else [])
                 (body s) in
      if greedy then more ++ [s] else s :: more
  end.

(** All the ways [r] matches at [s], in the order a backtracking matcher
    tries them: the head of the list is the match [re] reports. *)
Fixpoint matches (r : regex) (s : mstate) : list mstate :=
  match r with
  | Eps => [s]
  | Set_ p =>
      match ahead s with
      | c :: t => if p c then [MState (c :: behind s) t (groups s)] else []
      | [] => []
      end
  | Cat r1 r2 => flat_map (matches r2) (matches r1 s)
  | Alt r1 r2 => matches r1 s ++ matches r2 s
  | Star greedy r1 => star_iter greedy (matches r1) (length (ahead s)) s
  | Group i r1 =>
      map (fun s' => MState (behind s') (ahead s')
                            ((i, consumed s s') :: groups s'))
          (matches r1 s)
  | Bol multiline => if at_bol multiline s then [s] else []
  | Eos => if at_eos s then [s] else []
  | Boundary w => if at_boundary w s then [s] else []
  | Ahead positive r1 =>
      match matches r1 s with
      | [] => if positive then [] else [s]
      | _ :: _ => if positive then [s] else []
      end
  end.

(** A match object: the matched text and its groups. *)
Record hit : Type := Hit {
  matched : text;
  captured : list (nat * text)
}.

(** [m.group(i)]. *)
Fixpoint group (i : nat) (gs : list (nat * text)) : text :=
  match gs with
  | [] => []
  | (j, t) :: gs' => if (i =? j)%nat then t else group i gs'
  end.

Inductive piece : Type :=
| Keep (c : char)
| Found (h : hit).

Definition hit_of (s s' : mstate) : hit := Hit (consumed s s') (groups s').

(** The first way to match at [s]; after an empty match at the same
    position ([must_advance]) an empty match is passed over. *)
Definition first_match (must_advance : bool) (r : regex) (s : mstate)
  : option mstate :=
  head (List.filter (fun s' => negb must_advance || advanced s s')
                    (matches r s)).

(** [re.finditer] over the text ahead, interleaved with the characters
    that no match covers.  [skip] counts the characters still covered by
    the last match.  Matches are leftmost and do not overlap; an empty
    match is reported, and the scan then looks at the same position for
    a match that is not empty before it moves on. *)
Fixpoint scan (r : regex) (skip : nat) (before after : text) : list piece :=
  match skip with
  | S k =>
      match after with
      | [] => []
      | c :: t => scan r k (c :: before) t
      end
  | O =>
      let s := MState before after [] in
      let step :=
        match after with
        | [] => []
        | c :: t => Keep c :: scan r 0 (c :: before) t
        end in
      let jump (s' : mstate) :=
        Found (hit_of s s') ::
        match after with
        | [] => []
        | c :: t => scan r (length (consumed s s') - 1) (c :: before) t
        end in
      match first_match false r s with
      | None => step
      | Some s1 =>
          if advanced s s1 then jump s1
          else Found (hit_of s s1) ::
               match first_match true r s with
               | Some s2 => jump s2
               | None => step
               end
      end
  end.

Definition finditer (r : regex) (t : text) : list piece := scan r 0 [] t.

Definition render (repl : hit -> text) (p : piece) : text :=
  match p with
  | Keep c => [c]
  | Found h => repl h
  end.

(** [re.sub(r, repl, t)] with [repl] a function of the match. *)
Definition re_sub (r : regex) (repl : hit -> text) (t : text) : text :=
  flat_map (render repl) (finditer r t).

End Re.

Import Re.

(** ** The literal optimizer *)

Section Literals.

(** The decimal digits and the alphanumerics of the Unicode database
    beyond ASCII: [chr(c).isdecimal()] and [chr(c).isalnum()]. *)
Variable uni_decimal : char -> bool.
Variable uni_alnum : char -> bool.

(** [\d] *)
Definition is_digit (c : char) : bool :=
  if c <? 128 then in_range 48 57 c else uni_decimal c.

(** [\w] *)
Definition is_word (c : char) : bool :=
  if c <? 128
  then in_range 48 57 c || in_range 65 90 c || (c =? 95) || in_range 97 122 c
  else uni_alnum c.

Definition DOT : char := 46.
Definition ZERO : char := 48.

(** [\b(\d+)\.0+(?!\d)] *)
Definition trailing_zeros : regex :=
  Cat (Boundary is_word)
 (Cat (Group 1 (Plus true (Set_ is_digit)))
 (Cat (Chr DOT)
 (Cat (Plus true (Chr ZERO))
      (Ahead false (Set_ is_digit))))).

(** [\b0\.([1-9]\d* )\b], the space apart. *)
Definition leading_zero : regex :=
  Cat (Boundary is_word)
 (Cat (Chr ZERO)
 (Cat (Chr DOT)
 (Cat (Group 1 (Cat (Set_ (in_range 49 57)) (Star true (Set_ is_digit))))
      (Boundary is_word)))).

Definition optimize_float_literals (shader_content : text) : text :=
  let shader_content :=
    re_sub trailing_zeros (fun m => group 1 (captured m) ++ [DOT])
           shader_content in
  let shader_content :=
    re_sub leading_zero (fun m => DOT :: group 1 (captured m))
           shader_content in
  shader_content.

End Literals.

(** ** The comment stripper *)

Definition any_char (c : char) : bool := true.

(** [.] without [re.DOTALL]: anything but a newline. *)
Definition not_newline (c : char) : bool := negb (c =? LF).

(** [/\*.*?\*/] under [re.DOTALL] *)
Definition block_comment : regex :=
  Cat (Lit (str "/*")) (Cat (Star false (Set_ any_char)) (Lit (str "*/"))).

(** [//.*?(?=\n|$)] *)
Definition line_comment : regex :=
  Cat (Lit (str "//"))
 (Cat (Star false (Set_ not_newline))
      (Ahead true (Alt (Chr LF) Eos))).

Definition remove_comments (shader_content : text) : text :=
  let shader_content := re_sub block_comment (fun _ => []) shader_content in
  let shader_content := re_sub line_comment (fun _ => []) shader_content in
  shader_content.


(** ** The whitespace compactor *)

(** [str.splitlines]: the text is cut at every line boundary, [\r\n]
    counting as one, and a boundary that ends the text opens no line. *)
Fixpoint splitlines (t : text) : list text :=
  match t with
  | [] => []
  | c :: t' =>
      if is_linebreak c then
        [] :: match t' with
              | c' :: t'' =>
                  if (c =? CR) && (c' =? LF) then splitlines t''
                  else splitlines t'
              | [] => []
              end
      else
        match splitlines t' with
        | [] => [[c]]
        | l :: ls => (c :: l) :: ls
        end
  end.

(** [str.lstrip] and [str.strip] *)
Fixpoint lstrip (t : text) : text :=
  match t with
  | [] => []
  | c :: t' => if isspace c then lstrip t' else t
  end.

Definition strip (t : text) : text := rev (lstrip (rev (lstrip t))).

(** The truth value of a [str]: it is not empty. *)
Definition truthy (t : text) : bool :=
  match t with
  | [] => false
  | _ :: _ => true
  end.

(** [t.startswith('#')] *)
Definition startswith_hash (t : text) : bool :=
  match t with
  | [] => false
  | c :: _ => c =? HASH
  end.

(** [line.lstrip().startswith('#')] *)
Definition is_directive (line : text) : bool := startswith_hash (lstrip line).

(** [lines[i].lstrip().startswith('#')] at an index the caller has
    checked to be in range. *)
Definition directive_at (lines : list text) (i : nat) : bool :=
  match lines !! i with
  | Some line => is_directive line
  | None => false
  end.

(** The loop of [remove_newlines]: [i] is the index of the head of
    [todo] in [lines], and the value is what the loop appends to
    [result] from there on. *)
Fixpoint newline_loop (lines : list text) (i : nat) (todo : list text)
  : list text :=
  match todo with
  | [] => []
  | line :: todo' =>
      let is_dir := is_directive line in
      let prev_directive := (0 <? i)%nat && directive_at lines (i - 1) in
      let next_directive :=
        (i <? length lines - 1)%nat && directive_at lines (i + 1) in
      (if (0 <? i)%nat && (is_dir || prev_directive || next_directive)
       then [[LF]] else [])
      ++ line :: newline_loop lines (S i) todo'
  end.

Definition kept_lines (shader_content : text) : list text :=
  List.filter (fun line => truthy (strip line)) (splitlines shader_content).

Definition remove_newlines (shader_content : text) : text :=
  let lines := kept_lines shader_content in
  match lines with
  | [] => []
  | _ :: _ => concat (newline_loop lines 0 lines)
  end.

(** ** Symbol normalisation *)

(** [t.split('\n')] *)
Fixpoint split_nl (t : text) : list text :=
  match t with
  | [] => [[]]
  | c :: t' =>
      if c =? LF then [] :: split_nl t'
      else match split_nl t' with
           | [] => [[c]]
           | l :: ls => (c :: l) :: ls
           end
  end.

(** ['\n'.join(lines)] *)
Fixpoint join_nl (lines : list text) : text :=
  match lines with
  | [] => []
  | [l] => l
  | l :: ls => l ++ LF :: join_nl ls
  end.

Definition symbols : text := str ",.(){};:+-*/=<>!?|&".

(** The set [[ \t]] *)
Definition hspace (c : char) : bool := (c =? SPACE) || (c =? TAB).

(** [^\s*#] *)
Definition leading_hash : regex :=
  Cat (Bol false) (Cat (Star true (Set_ isspace)) (Chr HASH)).

(** [[ \t]+] *)
Definition hspaces : regex := Plus true (Set_ hspace).

(** [[ \t]+] before the escaped symbol, and after it *)
Definition spaces_before (symbol : char) : regex := Cat hspaces (Chr symbol).
Definition spaces_after (symbol : char) : regex := Cat (Chr symbol) hspaces.

(** The body of the loop over [symbols]. *)
Definition strip_around (processed_line : text) (symbol : char) : text :=
  let processed_line :=
    re_sub (spaces_before symbol) (fun _ => [symbol]) processed_line in
  let processed_line :=
    re_sub (spaces_after symbol) (fun _ => [symbol]) processed_line in
  processed_line.

(** The body of the loop over [lines]. *)
Definition normalize_line (line : text) : text :=
  if is_directive line then
    let line := re_sub leading_hash (fun _ => [HASH]) line in
    let line := re_sub hspaces (fun _ => [SPACE]) line in
    line
  else
    let processed_line := fold_left strip_around symbols line in
    let processed_line := re_sub hspaces (fun _ => [SPACE]) processed_line in
    processed_line.

Definition normalize_spaces (shader_content : text) : text :=
  let lines := split_nl shader_content in
  let processed_lines := map normalize_line lines in
  join_nl processed_lines.

(** ** The include resolver *)

(** A path is the text that names it. *)
Abbreviation path := text (only parsing).

(** The file system the program runs against, as [pathlib], [open] and
    [print] show it: [join base name] is [base / name], [canonical p]
    is [p.resolve()], [parent p] is [p.parent], and [files] holds the
    text of every regular file under its canonical path.
    - [write_error p] is the [OSError] that [write] or the closing of
      [p] raises once [p] is open for writing, if one is raised, as
      [str(e)].
    - [shown p] is [str(Path(p))]: the path as [pathlib] spells it.
    - [read_error p] is, for a path that names no file, the exception
      other than [FileNotFoundError] that opening it for reading raises
      (it names a directory, say), if one is raised, as [str(e)].
    - [open_error p] is the [OSError] that opening [p] for writing
      raises, if it raises one, as [str(e)].
    - [print_error] is the [OSError] that [print] raises, if it raises
      one, as [str(e)].
    - [stdout_encodes t] tells whether the encoding of [sys.stdout]
      has every character of [t]. *)
Record filesystem : Type := Filesystem {
  join : path -> text -> path;
  canonical : path -> path;
  parent : path -> path;
  files : gmap text text;
  write_error : path -> option text;
  shown : path -> text;
  read_error : path -> option text;
  open_error : path -> option text;
  print_error : option text;
  stdout_encodes : text -> bool
}.

(** What a resolution carries along: the set [included_files], shared
    by the whole recursion, what went to [sys.stderr], and the files
    read so far. *)
Record resolver : Type := Resolver {
  included_files : gset text;
  stderr : text;
  opened : list text
}.

(** [^\s*#include\s+Q([^Q]+)Q] under [re.MULTILINE], with the double
    quote for [Q]. *)
Definition include_pattern : regex :=
  Cat (Bol true)
 (Cat (Star true (Set_ isspace))
 (Cat (Lit (str "#include"))
 (Cat (Plus true (Set_ isspace))
 (Cat (Chr QUOTE)
 (Cat (Group 1 (Plus true (Set_ (fun c => negb (c =? QUOTE)))))
      (Chr QUOTE)))))).

(** [print(..., file=sys.stderr)] *)
Definition eprint (line : text) (st : resolver) : resolver :=
  Resolver (included_files st) (stderr st ++ line ++ [LF]) (opened st).

(** [included_files.add(file_path)] and the read that follows it *)
Definition add_included (file_path : path) (st : resolver) : resolver :=
  Resolver ({[file_path]} ∪ included_files st) (stderr st)
           (opened st ++ [file_path]).

Section Resolver.

Variable fs : filesystem.

(** The closure [replacer] of [process_includes]; [recur] is the
    recursive call. *)
Definition replacer
    (recur : text -> path -> resolver -> option (text * resolver))
    (base_path : path) (m : hit) (st : resolver)
  : option (text * resolver) :=
  let file_path := canonical fs (join fs base_path (group 1 (captured m))) in
  if decide (file_path ∈ included_files st) then Some ([], st)
  else
    match files fs !! file_path with
    | None => Some ([], eprint (str "Include not found: " ++ file_path) st)
    | Some content =>
        match recur content (parent fs file_path) (add_included file_path st)
        with
        | Some (inlined, st') => Some (inlined ++ [LF], st')
        | None => None
        end
    end.

(** [pattern.sub(repl, text)] with a [repl] that reads and writes the
    resolver's state: the matches are replaced from left to right. *)
Fixpoint sub_with (repl : hit -> resolver -> option (text * resolver))
    (pieces : list piece) (st : resolver) : option (text * resolver) :=
  match pieces with
  | [] => Some ([], st)
  | Keep c :: pieces' =>
      match sub_with repl pieces' st with
      | Some (out, st') => Some (c :: out, st')
      | None => None
      end
  | Found m :: pieces' =>
      match repl m st with
      | Some (r, st1) =>
          match sub_with repl pieces' st1 with
          | Some (out, st2) => Some (r ++ out, st2)
          | None => None
          end
      | None => None
      end
  end.

(** [process_includes]; [fuel] bounds the depth of the recursion and
    [None] is the bound reached. *)
Fixpoint process_includes (fuel : nat) (shader_content : text)
    (base_path : path) (st : resolver) : option (text * resolver) :=
  match fuel with
  | O => None
  | S fuel' =>
      sub_with (replacer (process_includes fuel') base_path)
               (finditer include_pattern shader_content) st
  end.

(** A depth no resolution over [fs] exceeds. *)
Definition enough_fuel : nat := S (size (files fs)).

End Resolver.

(** ** The packager *)

Definition byte := N.
Definition bytes := list byte.

(** The UTF-8 form of one code point; a surrogate has none. *)
Definition utf8_char (c : char) : option bytes :=
  if c <? 128 then Some [c]
  else if c <? 2048 then
    Some [N.lor 192 (N.shiftr c 6); N.lor 128 (N.land c 63)]
  else if in_range 55296 57343 c then None
  else if c <? 65536 then
    Some [N.lor 224 (N.shiftr c 12);
          N.lor 128 (N.land (N.shiftr c 6) 63);
          N.lor 128 (N.land c 63)]
  else if c <? 1114112 then
    Some [N.lor 240 (N.shiftr c 18);
          N.lor 128 (N.land (N.shiftr c 12) 63);
          N.lor 128 (N.land (N.shiftr c 6) 63);
          N.lor 128 (N.land c 63)]
  else None.

(** [t.encode('utf-8')] *)
Fixpoint utf8_encode (t : text) : option bytes :=
  match t with
  | [] => Some []
  | c :: t' =>
      match utf8_char c, utf8_encode t' with
      | Some b, Some bs => Some (b ++ bs)
      | _, _ => None
      end
  end.

(** [k] bytes of [n], the least significant first. *)
Fixpoint le_bytes (k : nat) (n : N) : bytes :=
  match k with
  | O => []
  | S k' => N.land n 255 :: le_bytes k' (N.shiftr n 8)
  end.

(** The unsigned integer a little-endian byte string holds. *)
Fixpoint le_value (b : bytes) : N :=
  match b with
  | [] => 0
  | x :: b' => x + 256 * le_value b'
  end.

(** [struct.pack('<Q', n)]: [struct.error] when [n] does not fit. *)
Definition pack_Q (n : N) : option bytes :=
  if n <? 2 ^ 64 then Some (le_bytes 8 n) else None.

Section Packager.

(** [zlib.compress] *)
Variable zlib_compress : bytes -> bytes.

Definition compress_shader (shader_content : text) : option bytes :=
  match utf8_encode shader_content with
  | None => None
  | Some shader_bytes =>
      let uncompressed_size := N.of_nat (length shader_bytes) in
      let shader_compressed := zlib_compress shader_bytes in
      match pack_Q uncompressed_size with
      | None => None
      | Some header => Some (header ++ shader_compressed)
      end
  end.

End Packager.

(** ** The driver *)

(** The parsed command line. *)
Record arguments : Type := Arguments {
  shader_path : path;
  output_file : option path;
  compress : bool
}.

Inductive payload : Type :=
| TextOut (t : text)
| BinaryOut (b : bytes).

(** What a run has done when it ends: the exit status, what was handed
    to [print], what went to [sys.stderr], the files read, and the
    file opened for writing with what was handed to its [write].  When
    the status is not 0 the [print] or the [write] may have failed
    half way: the output, or the file, then holds a part of it at
    most. *)
Record run : Type := Run {
  status : N;
  to_stdout : option payload;
  to_stderr : text;
  files_read : list text;
  file_written : option (path * payload)
}.

(** What [sys.exit] prints when there is nowhere to write the
    compressed shader. *)
Definition refusal : text :=
  str "Error: Cannot output compressed data to stdout. Please specify an output file."
  ++ [LF].

(** [not args.output_file] *)
Definition no_output (o : option path) : bool :=
  match o with
  | None => true
  | Some p => negb (truthy p)
  end.

(** The state in which [process_shader] starts the resolution of
    [filepath]: no file included yet, the file itself read. *)
Definition entry_state (fs : filesystem) (filepath : path) : resolver :=
  Resolver ∅ [] [canonical fs filepath].

Section Driver.

Variable uni_decimal : char -> bool.
Variable uni_alnum : char -> bool.
Variable zlib_compress : bytes -> bytes.
Variable fs : filesystem.

(** [process_shader]: the text, or the run that [sys.exit(1)] ends.
    [None] is the resolver out of fuel. *)
Definition process_shader (filepath : path) : option (text * resolver + run) :=
  match files fs !! canonical fs filepath with
  | None =>
      match read_error fs filepath with
      | None =>
          Some (inr (Run 1 None
                         (str "Error: File not found: " ++ shown fs filepath
                          ++ [LF])
                         [] None))
      | Some e =>
          Some (inr (Run 1 None (str "Error reading file: " ++ e ++ [LF])
                         [] None))
      end
  | Some shader_content =>
      match process_includes fs (enough_fuel fs) shader_content
              (parent fs filepath) (entry_state fs filepath) with
      | None => None
      | Some (shader_content, st) =>
          let shader_content := remove_comments shader_content in
          let shader_content := remove_newlines shader_content in
          let shader_content := normalize_spaces shader_content in
          let shader_content :=
            optimize_float_literals uni_decimal uni_alnum shader_content in
          Some (inl (shader_content, st))
      end
  end.

(** Whether [utf-8] can encode what is written to the output file:
    bytes are written as they are. *)
Definition file_encodes (formatted_shader : payload) : bool :=
  match formatted_shader with
  | TextOut t => bool_decide (is_Some (utf8_encode t))
  | BinaryOut _ => true
  end.

(** Whether the standard output can encode what is printed: of bytes
    [print] shows the representation, which is ASCII. *)
Definition print_encodes (formatted_shader : payload) : bool :=
  match formatted_shader with
  | TextOut t => stdout_encodes fs t
  | BinaryOut _ => true
  end.

(** [sys.exit("Error writing to output: ...")] *)
Definition write_failure (e : text) (st : resolver)
    (to_stdout : option payload) (file_written : option (path * payload))
  : run :=
  Run 1 to_stdout (stderr st ++ str "Error writing to output: " ++ e ++ [LF])
      (opened st) file_written.

(** [print(formatted_shader, end=Q)], with the empty string for [Q],
    under [except OSError].  [None] is a character the standard output
    cannot encode: an exception nothing catches. *)
Definition print_out (formatted_shader : payload) (st : resolver)
  : option run :=
  if print_encodes formatted_shader then
    match print_error fs with
    | Some e => Some (write_failure e st (Some formatted_shader) None)
    | None => Some (Run 0 (Some formatted_shader) (stderr st) (opened st) None)
    end
  else None.

(** The [try] at the end of [main]: the output file is opened, which
    creates it or empties it, and then written; with no output file
    the shader is printed.  [None] is an exception nothing catches: a
    character the text file cannot encode. *)
Definition emit (args : arguments) (formatted_shader : payload)
    (st : resolver) : option run :=
  match output_file args with
  | Some p =>
      if truthy p then
        match open_error fs p with
        | Some e => Some (write_failure e st None None)
        | None =>
            if file_encodes formatted_shader then
              match write_error fs p with
              | Some e =>
                  Some (write_failure e st None (Some (p, formatted_shader)))
              | None =>
                  Some (Run 0 None (stderr st) (opened st)
                            (Some (p, formatted_shader)))
              end
            else None
        end
      else print_out formatted_shader st
  | None => print_out formatted_shader st
  end.

(** [main] after [parse_args].  [None] is an exception nothing catches
    (a text that cannot be encoded, a length [struct.pack] refuses) or
    the resolver out of fuel. *)
Definition main (args : arguments) : option run :=
  if compress args && no_output (output_file args) then
    Some (Run 1 None refusal [] None)
  else
    match process_shader (shader_path args) with
    | None => None
    | Some (inr stopped) => Some stopped
    | Some (inl (formatted_shader, st)) =>
        if compress args then
          match compress_shader zlib_compress formatted_shader with
          | None => None
          | Some packed => emit args (BinaryOut packed) st
          end
        else emit args (TextOut formatted_shader) st
    end.

End Driver.

(** ** Vocabulary of the properties *)

(** A Unicode scalar value: a code point that is not a surrogate. *)
Definition is_scalar (c : char) : bool :=
  (c <? 55296) || in_range 57344 1114111 c.


(** A line with something to show: a character that is not white space. *)
Definition nonblank (l : text) : Prop :=
  exists c, In c l /\ isspace c = false.

(** A text that holds no line boundary. *)
Definition unbroken (l : text) : Prop :=
  Forall (fun c => is_linebreak c = false) l.

(** The separator rule in the words of the specification: a line is
    preceded by a newline when it is a directive or when the line before
    it or the line after it is one. *)
Definition separated (prev line : text) (next : option text) : bool :=
  is_directive line || is_directive prev
  || match next with
     | Some n => is_directive n
     | None => false
     end.

(** The lines that follow [prev], joined under the separator rule. *)
Fixpoint compact_from (prev : text) (lines : list text) : text :=
  match lines with
  | [] => []
  | line :: rest =>
      (if separated prev line (head rest) then [LF] else [])
      ++ line ++ compact_from line rest
  end.

Definition compact (lines : list text) : text :=
  match lines with
  | [] => []
  | line :: rest => line ++ compact_from line rest
  end.


(** The kept lines that follow [prev], cut where the separator rule
    puts a newline: the lines that continue the output line of [prev],
    and the output lines after it. *)
Fixpoint tail_blocks (prev : text) (lines : list text)
  : list text * list (list text) :=
  match lines with
  | [] => ([], [])
  | line :: rest =>
      let (cont, more) := tail_blocks line rest in
      if separated prev line (head rest) then ([], (line :: cont) :: more)
      else (line :: cont, more)
  end.

(** The output lines, each as the kept lines it is made of. *)
Definition blocks (lines : list text) : list (list text) :=
  match lines with
  | [] => []
  | line :: rest =>
      let (cont, more) := tail_blocks line rest in (line :: cont) :: more
  end.

(** Lines each opened by a newline. *)
Definition opened_lines (ls : list text) : text :=
  flat_map (fun l => LF :: l) ls.

(** Directive flags of successive lines under which the separator rule
    puts a newline before every one of them; [dp] is the flag of the
    line before the first. *)
Fixpoint all_separated (dp : bool) (ds : list bool) : Prop :=
  match ds with
  | [] => True
  | d :: ds' =>
      d || dp || match ds' with d' :: _ => d' | [] => false end = true
      /\ all_separated d ds'
  end.

(** The directive flag of an output line: that of its first kept line. *)
Definition block_flag (b : list text) : bool :=
  match b with
  | [] => false
  | l :: _ => is_directive l
  end.


(** The files that a resolution in state [st] can still inline. *)
Definition pending (fs : filesystem) (st : resolver) : gset text :=
  dom (files fs) ∖ included_files st.

(** The set of included files has only grown. *)
Definition grows (st st' : resolver) : Prop :=
  included_files st ⊆ included_files st'.

(** The path an include directive found under [base_path] refers to. *)
Definition target (fs : filesystem) (base_path : path) (m : hit) : path :=
  canonical fs (join fs base_path (group 1 (captured m))).

(** Whether a piece of the scan is a directive that refers to [file]. *)
Definition refers_to (fs : filesystem) (base_path file : path) (p : piece)
  : bool :=
  match p with
  | Keep _ => false
  | Found m => bool_decide (target fs base_path m = file)
  end.

(** The scan without the directives that refer to [file]: each of them
    replaced by the empty string. *)
Definition without_refs (fs : filesystem) (base_path file : path)
    (pieces : list piece) : list piece :=
  List.filter (fun p => negb (refers_to fs base_path file p)) pieces.


(** *** Small file systems to run the resolver on *)

(** One directory, every name its own canonical path and spelled as it
    is, every write and every print possible. *)
Definition flat (contents : gmap text text) : filesystem :=
  Filesystem (fun _ name => name) (fun p => p) (fun _ => []) contents
             (fun _ => None) (fun p => p) (fun _ => None) (fun _ => None)
             None (fun _ => true).

(** The directive that includes [name]. *)
Definition include_of (name : string) : text :=
  str "#include " ++ [QUOTE] ++ str name ++ [QUOTE].

(** [a.glsl] includes itself and then declares something. *)
Definition self_text : text := include_of "a.glsl" ++ [LF] ++ str "X".
Definition self_fs : filesystem := flat {[ str "a.glsl" := self_text ]}.

(** [f.glsl] includes itself and, on the same line, [g.glsl]. *)
Definition twice_text : text := include_of "f.glsl" ++ include_of "g.glsl".
Definition twice_fs : filesystem :=
  flat {[ str "f.glsl" := twice_text; str "g.glsl" := str "G" ]}.



(** The number of newlines of a text. *)
Definition newlines (t : text) : nat := count_occ N.eq_dec t LF.


(** *** Scans told where to replace *)

(** A scan from left to right that is told where to replace:
    [f before after] gives, for a replacement that starts here, how many
    characters it covers beyond the first, and what it puts in their
    place.  [skip] counts the characters still covered. *)
Fixpoint rewrite (f : text -> text -> option (nat * text)) (skip : nat)
    (before after : text) : text :=
  match after with
  | [] => []
  | c :: t =>
      match skip with
      | S k => rewrite f k (c :: before) t
      | O =>
          match f before after with
          | Some (n, out) => out ++ rewrite f n (c :: before) t
          | None => c :: rewrite f 0 (c :: before) t
          end
      end
  end.

(** The length of the longest prefix made of characters of [p]. *)
Fixpoint span (p : char -> bool) (a : text) : nat :=
  match a with
  | [] => 0
  | c :: t => if p c then S (span p t) else 0
  end.

(** The position [n] characters further on. *)
Definition moved (n : nat) (s : mstate) : mstate :=
  MState (rev (take n (ahead s)) ++ behind s) (drop n (ahead s)) (groups s).

(** What a lazy repetition of the set [p] followed by [k] tries, in
    order: [k] here, then one character further on, as long as the
    characters are of [p]. *)
Fixpoint lazy_tries (p : char -> bool) (k : mstate -> list mstate)
    (b a : text) (g : list (nat * text)) : list mstate :=
  k (MState b a g)
  ++ match a with
     | [] => []
     | c :: t => if p c then lazy_tries p k (c :: b) t g else []
     end.

(** [a] without its prefix [w], when it has that prefix. *)
Fixpoint strip_prefix (w a : text) : option text :=
  match w with
  | [] => Some a
  | x :: w' =>
      match a with
      | [] => None
      | c :: t => if x =? c then strip_prefix w' t else None
      end
  end.


(** The index at which the first [w] of [a] begins. *)
Fixpoint find (w a : text) : option nat :=
  match strip_prefix w a with
  | Some _ => Some 0%nat
  | None =>
      match a with
      | [] => None
      | _ :: t => option_map S (find w t)
      end
  end.

(** *** The comment stripper in the words of the specification *)

(** A block comment starts at a [/*] that has a [*/] after it, and ends
    with the first one, newlines or not in between; nothing replaces
    it. *)
Definition block_at (before after : text) : option (nat * text) :=
  match strip_prefix (str "/*") after with
  | None => None
  | Some rest =>
      match find (str "*/") rest with
      | None => None
      | Some i => Some ((i + 3)%nat, [])
      end
  end.

(** A line comment starts at a [//] and runs up to the newline that
    comes first, or to the end of the text; nothing replaces it. *)
Definition line_at (before after : text) : option (nat * text) :=
  match strip_prefix (str "//") after with
  | None => None
  | Some rest => Some (S (span not_newline rest), [])
  end.

Definition strip_block_comments (t : text) : text := rewrite block_at 0 [] t.
Definition strip_line_comments (t : text) : text := rewrite line_at 0 [] t.


(** *** The substitutions of the normaliser, told where to replace *)

(** A run of blanks becomes one space. *)
Definition collapse_at (before after : text) : option (nat * text) :=
  match span hspace after with
  | O => None
  | S n => Some (n, [SPACE])
  end.

(** A run of blanks that ends at [symbol] goes, the symbol stays. *)
Definition before_at (symbol : char) (before after : text)
  : option (nat * text) :=
  match span hspace after with
  | O => None
  | S n =>
      match drop (S n) after with
      | d :: _ => if symbol =? d then Some (S n, [symbol]) else None
      | [] => None
      end
  end.

(** A run of blanks that starts after [symbol] goes, the symbol stays. *)
Definition after_at (symbol : char) (before after : text)
  : option (nat * text) :=
  match after with
  | [] => None
  | c :: t =>
      if symbol =? c then
        match span hspace t with
        | O => None
        | S n => Some (S n, [symbol])
        end
      else None
  end.

(** At the start of the line, the white space before a [#] goes. *)
Definition hash_at (before after : text) : option (nat * text) :=
  match before with
  | _ :: _ => None
  | [] =>
      match drop (span isspace after) after with
      | d :: _ => if HASH =? d then Some (span isspace after, [HASH]) else None
      | [] => None
      end
  end.


(** *** Lines as blanks and the characters between them *)

(** A line read as runs of blanks, each followed by the character that
    ends it, and the blanks that end the line: [r1 c1 r2 c2 ... last]. *)
Fixpoint words (x : list (text * char)) (last : text) : text :=
  match x with
  | [] => last
  | (r, c) :: x' => r ++ c :: words x' last
  end.

Fixpoint enc (t : text) : list (text * char) * text :=
  match t with
  | [] => ([], [])
  | c :: t' =>
      let (x, last) := enc t' in
      if hspace c then
        match x with
        | [] => ([], c :: last)
        | (r, d) :: x' => ((c :: r, d) :: x', last)
        end
      else (([], c) :: x, last)
  end.

Definition blanks (r : text) : Prop := Forall (fun c => hspace c = true) r.

(** The runs are made of blanks and the characters between them are not
    blanks. *)
Definition spaced (x : list (text * char)) (last : text) : Prop :=
  Forall (fun rc => blanks (fst rc) /\ hspace (snd rc) = false) x
  /\ blanks last.

(** A text that does not go on with a blank. *)
Definition stops (rest : text) : Prop :=
  match rest with
  | [] => True
  | d :: _ => hspace d = false
  end.

(** The last character before the blanks that end the line. *)
Fixpoint last_char (prev : option char) (x : list (text * char))
  : option char :=
  match x with
  | [] => prev
  | (_, c) :: x' => last_char (Some c) x'
  end.

(** Every run rewritten by [F], which is told the character before the
    run and the character after it. *)
Fixpoint map_runs (F : option char -> text -> option char -> text)
    (prev : option char) (x : list (text * char)) : list (text * char) :=
  match x with
  | [] => []
  | (r, c) :: x' => (F prev r (Some c), c) :: map_runs F (Some c) x'
  end.

Definition apply_runs (F : option char -> text -> option char -> text)
    (prev : option char) (x : list (text * char)) (last : text) : text :=
  words (map_runs F prev x) (F (last_char prev x) last None).

Definition is_char (c : char) (o : option char) : bool :=
  match o with
  | Some d => c =? d
  | None => false
  end.

(** What the substitutions do to a run. *)
Definition F_collapse (prev : option char) (r : text) (next : option char)
  : text :=
  match r with
  | [] => []
  | _ :: _ => [SPACE]
  end.

Definition F_before (symbol : char) (prev : option char) (r : text)
    (next : option char) : text :=
  if is_char symbol next then [] else r.

Definition F_after (symbol : char) (prev : option char) (r : text)
    (next : option char) : text :=
  if is_char symbol prev then [] else r.

(** The loop over the symbols, and the whole of a line that is not a
    directive. *)
Definition F_symbols (syms : text) (prev : option char) (r : text)
    (next : option char) : text :=
  if existsb (fun s => is_char s next || is_char s prev) syms then [] else r.

Definition F_line (prev : option char) (r : text) (next : option char)
  : text :=
  F_collapse prev (F_symbols symbols prev r next) next.


(** A run rewritten by [F] and then by [G]. *)
Definition and_then (F G : option char -> text -> option char -> text)
  : option char -> text -> option char -> text :=
  fun prev r next => G prev (F prev r next) next.

(** [F] makes blanks of blanks. *)
Definition sound (F : option char -> text -> option char -> text) : Prop :=
  forall prev r next, blanks r -> blanks (F prev r next).

(** [op] rewrites the runs of a line by [F] and leaves the rest. *)
Definition runwise (op : text -> text)
    (F : option char -> text -> option char -> text) : Prop :=
  forall x last, spaced x last -> op (words x last) = apply_runs F None x last.

(** The two branches of [normalize_line]. *)
Definition normalize_directive (line : text) : text :=
  re_sub hspaces (fun _ => [SPACE]) (re_sub leading_hash (fun _ => [HASH]) line).

Definition normalize_code (line : text) : text :=
  re_sub hspaces (fun _ => [SPACE]) (fold_left strip_around symbols line).


(** *** Texts to run the passes on *)

(** The text whose lines, cut at the newlines, are [ls]. *)
Definition lines_of (ls : list string) : text := join_nl (map str ls).

(** The two files of the end-to-end scenario. *)
Definition scenario_fs : filesystem :=
  flat {[ str "a.glsl" :=
            include_of "b.glsl" ++ [LF]
            ++ lines_of ["float x = 1.000 ;"; "// c"; ""];
          str "b.glsl" := str "#define FOO 1" ]}.

(** [top.glsl] includes [b.glsl] and [c.glsl], and both include
    [d.glsl]. *)
Definition diamond_fs : filesystem :=
  flat {[ str "top.glsl" :=
            include_of "b.glsl" ++ [LF] ++ include_of "c.glsl";
          str "b.glsl" := include_of "d.glsl" ++ [LF] ++ str "B";
          str "c.glsl" := include_of "d.glsl" ++ [LF] ++ str "C";
          str "d.glsl" := str "D" ]}.

(** *** What a scan is made of *)

(** The text a piece of a scan stands for. *)
Definition source (p : piece) : text :=
  match p with
  | Keep c => [c]
  | Found h => matched h
  end.

(** A piece that a scan for [r] can hold: a character, or what [r]
    matched somewhere. *)
Definition from_match (r : regex) (p : piece) : Prop :=
  match p with
  | Keep _ => True
  | Found h =>
      exists b a s', In s' (matches r (MState b a []))
                     /\ h = hit_of (MState b a []) s'
  end.

(** The characters that show: those that are not white space. *)
Definition visible (t : text) : text :=
  List.filter (fun c => negb (isspace c)) t.

Definition SLASH : char := 47.

(** [x] is [y] with some of its white space gone or changed: the same
    characters show, and [x] is not the longer one. *)
Definition trims (x y : text) : Prop :=
  visible x = visible y /\ (length x <= length y)%nat.

(** From [s] to [s'] the match went over [w] and captured nothing. *)
Definition went (w : text) (s s' : mstate) : Prop :=
  ahead s = w ++ ahead s' /\ groups s' = groups s.

(** [t] without its characters [c]. *)
Definition without (c : char) (t : text) : text :=
  List.filter (fun d => negb (d =? c)) t.

(** The line that reports an include that is not there. *)
Definition not_found (file_path : path) : text :=
  str "Include not found: " ++ file_path ++ [LF].

(** From [st] to [st'] the resolver has read the files [new], one after
    the other: each of them exists, was not in the set and is read
    once; the set has grown by them, and the error stream has grown by
    the reports of paths that name no file. *)
Definition reads (fs : filesystem) (new : list text) (st st' : resolver)
  : Prop :=
  opened st' = opened st ++ new
  /\ NoDup new
  /\ (forall f, f ∈ new -> f ∈ dom (files fs) /\ f ∉ included_files st)
  /\ included_files st' = included_files st ∪ list_to_set new
  /\ exists missing,
       stderr st' = stderr st ++ flat_map not_found missing
       /\ forall p, p ∈ missing -> files fs !! p = None.

(** [x] is made of characters of [Q] when [y] is. *)
Definition keeps (Q : char -> Prop) (x y : text) : Prop :=
  Forall Q y -> Forall Q x.

(** *** The shape of a normalised text *)

(** Whether the text starts with a character of [p]. *)
Definition head_is (p : char -> bool) (t : text) : bool :=
  match t with
  | [] => false
  | c :: _ => p c
  end.

(** No tab, and no two spaces side by side. *)
Fixpoint single_spaced (t : text) : bool :=
  match t with
  | [] => true
  | c :: t' =>
      negb (c =? TAB) && negb ((c =? SPACE) && head_is (N.eqb SPACE) t')
      && single_spaced t'
  end.

(** [c in symbols] *)
Definition is_symbol (c : char) : bool := existsb (fun s => s =? c) symbols.

(** No blank before a symbol and none after one. *)
Fixpoint tight (t : text) : bool :=
  match t with
  | [] => true
  | c :: t' =>
      negb (hspace c && head_is is_symbol t')
      && negb (is_symbol c && head_is hspace t')
      && tight t'
  end.

(** Whether the character next to a run, if there is one, is a symbol. *)
Definition symbol_there (o : option char) : bool :=
  match o with
  | Some c => is_symbol c
  | None => false
  end.

(** Whether the text ends with the character [c]. *)
Definition last_is (c : char) (t : text) : bool := head_is (N.eqb c) (rev t).

(** No two [c] side by side. *)
Fixpoint no_pair (c : char) (t : text) : bool :=
  match t with
  | [] => true
  | d :: t' => negb ((c =? d) && head_is (N.eqb c) t') && no_pair c t'
  end.

(** [x] stands for [y] without bringing two [c] together: it has no two
    [c] side by side if [y] has none, it starts and ends with [c] only
    if [y] does, and it is empty only if [y] is. *)
Definition apart (c : char) (x y : text) : Prop :=
  (no_pair c y = true -> no_pair c x = true)
  /\ (head_is (N.eqb c) x = true -> head_is (N.eqb c) y = true)
  /\ (last_is c x = true -> last_is c y = true)
  /\ (x = [] -> y = []).

(** What the files [new] bring into a text that inlines them: the text
    of each and the newline that follows it. *)
Definition inlined (fs : filesystem) (new : list text) : text :=
  flat_map (fun file => default [] (files fs !! file) ++ [LF]) new.

(** Whether the text ends with a character of [p]. *)
Definition ends_with (p : char -> bool) (t : text) : bool := head_is p (rev t).

(** [0-9] *)
Definition ascii_digit (c : char) : bool := in_range 48 57 c.

(** *** The error stream of a resolution *)

(** [st] with [e] on the error stream. *)
Definition with_stderr (e : text) (st : resolver) : resolver :=
  Resolver (included_files st) e (opened st).

(** [f] only adds to the error stream, and what it adds and returns
    does not depend on what the stream holds. *)
Definition framed (f : resolver -> option (text * resolver)) : Prop :=
  forall s o s', f s = Some (o, s') ->
    exists said,
      stderr s' = stderr s ++ said
      /\ forall e, f (with_stderr e s) = Some (o, with_stderr (e ++ said) s').

(** The paths that the directives of a scan, found under [base_path],
    refer to and that name no file, one for each such directive and in
    their order. *)
Definition missing_among (fs : filesystem) (base_path : path)
    (pieces : list piece) : list path :=
  flat_map (fun p =>
              match p with
              | Keep _ => []
              | Found m =>
                  match files fs !! target fs base_path m with
                  | None => [target fs base_path m]
                  | Some _ => []
                  end
              end) pieces.

(** The same for the directives of the text [t]. *)
Definition missing_in (fs : filesystem) (base_path : path) (t : text)
  : list path :=
  missing_among fs base_path (finditer include_pattern t).

(** The same for the directives of the file [file]. *)
Definition missing_of (fs : filesystem) (file : path) : list path :=
  match files fs !! file with
  | Some content => missing_in fs (parent fs file) content
  | None => []
  end.

(** From [st] to [st'] the resolver has reported, line by line, paths
    that name no file; from a set that holds only files that exist
    these are, up to their order, the paths [met] and those that the
    directives of the files read refer to. *)
Definition reports (fs : filesystem) (met : list path) (st st' : resolver)
  : Prop :=
  exists new missing,
    opened st' = opened st ++ new
    /\ stderr st' = stderr st ++ flat_map not_found missing
    /\ (forall p, p ∈ missing -> files fs !! p = None)
    /\ (included_files st ⊆ dom (files fs) ->
        missing ≡ₚ met ++ flat_map (missing_of fs) new).

(** *** More file systems to run the program on *)

(** A line, a directive that names no file, and one that names
    [g.glsl]. *)
Definition missing_text : text :=
  str "A" ++ [LF] ++ include_of "e.glsl" ++ [LF] ++ include_of "g.glsl".

(** [a.glsl] includes [b.glsl], which includes [a.glsl]. *)
Definition cycle_fs : filesystem :=
  flat {[ str "a.glsl" := include_of "b.glsl" ++ [LF] ++ str "A";
          str "b.glsl" := include_of "a.glsl" ++ [LF] ++ str "B" ]}.

(** [pathlib] spells a path without the [./] it starts with. *)
Definition undotted (p : path) : path :=
  match strip_prefix (str "./") p with
  | Some q => q
  | None => p
  end.

(** The files of the scenario beside a directory [inc], with the paths
    spelled as [pathlib] spells them. *)
Definition dotted_fs : filesystem :=
  Filesystem (fun _ name => name) undotted (fun _ => []) (files scenario_fs)
             (fun _ => None) undotted
             (fun p => if bool_decide (undotted p = str "inc")
                       then Some (str "[Errno 21] Is a directory: 'inc'")
                       else None)
             (fun _ => None) None (fun _ => true).

(** * Properties *)

(** ** The literal optimizer on the five literals *)

(** C1, as the code has it: [1.000] becomes [1.], [0.5] becomes [.5],
    [10.00] becomes [10.] and [0.50] becomes [.50]; [0.0] becomes [0.],
    its zero fraction removed by the first rule like that of any other
    whole number, and the second rule leaves [0.0] as it is. *)
Theorem literal_rules (uni_decimal uni_alnum : char -> bool) :
  let optimize := optimize_float_literals uni_decimal uni_alnum in
  optimize (str "1.000") = str "1." /\
  optimize (str "0.5") = str ".5" /\
  optimize (str "0.0") = str "0." /\
  optimize (str "10.00") = str "10." /\
  optimize (str "0.50") = str ".50" /\
  re_sub (leading_zero uni_decimal uni_alnum)
         (fun m => DOT :: group 1 (captured m)) (str "0.0") = str "0.0".
Proof. repeat split; vm_compute; reflexivity. Qed.

(** C1 as stated does not hold: [0.0] does not stay [0.0]. *)
Lemma literal_zero_not_kept :
  ~ (forall uni_decimal uni_alnum : char -> bool,
       let optimize := optimize_float_literals uni_decimal uni_alnum in
       optimize (str "1.000") = str "1." /\
       optimize (str "0.5") = str ".5" /\
       optimize (str "0.0") = str "0.0" /\
       optimize (str "10.00") = str "10." /\
       optimize (str "0.50") = str ".50").
Proof.
  intros H.
  destruct (H (fun _ => false) (fun _ => false)) as (_ & _ & H0 & _).
  vm_compute in H0. discriminate H0.
Qed.

(** ** The driver refuses to compress to the standard output *)

(** C7: with the compress flag and no output path, [main] ends with
    status 1 and the diagnostic on the error stream, whatever the file
    system holds: no file is read, none is written, nothing is printed
    and no pass runs. *)
Theorem compress_needs_output
    (uni_decimal uni_alnum : char -> bool) (zlib_compress : bytes -> bytes)
    (fs : filesystem) (args : arguments) :
  compress args = true ->
  no_output (output_file args) = true ->
  exists r,
    main uni_decimal uni_alnum zlib_compress fs args = Some r /\
    status r = 1 /\ status r <> 0 /\
    to_stderr r = refusal /\
    to_stdout r = None /\ files_read r = [] /\ file_written r = None.
Proof.
  intros Hc Ho. unfold main. rewrite Hc, Ho. simpl.
  eexists. split; [reflexivity|]. simpl. repeat split; try reflexivity.
  discriminate.
Qed.

Lemma compress_needs_output_witness :
  exists r,
    main (fun _ => false) (fun _ => false) (fun b => b)
         (Filesystem (fun _ n => n) (fun p => p) (fun _ => []) ∅
                     (fun _ => None) (fun p => p) (fun _ => None)
                     (fun _ => None) None (fun _ => true))
         (Arguments (str "a.glsl") None true) = Some r /\
    status r = 1 /\ status r <> 0 /\
    to_stderr r = refusal /\
    to_stdout r = None /\ files_read r = [] /\ file_written r = None.
Proof.
  apply compress_needs_output; reflexivity.
Defined.

(** ** Packaging round trip *)

Lemma le_bytes_length k n : length (le_bytes k n) = k.
Proof. revert n. induction k as [|k IH]; intros n; simpl; [|rewrite IH]; reflexivity. Qed.

Lemma le_bytes_small k n : Forall (fun b => b < 256) (le_bytes k n).
Proof.
  revert n. induction k as [|k IH]; intros n; simpl; constructor; [|apply IH].
  change 255 with (N.ones 8). rewrite N.land_ones.
  apply N.mod_upper_bound. discriminate.
Qed.

Lemma le_value_le_bytes k n :
  n < 2 ^ (8 * N.of_nat k) -> le_value (le_bytes k n) = n.
Proof.
  revert n. induction k as [|k IH]; intros n Hn.
  - simpl in *. lia.
  - simpl le_bytes. simpl le_value.
    rewrite IH.
    + change 255 with (N.ones 8). rewrite N.land_ones, N.shiftr_div_pow2.
      change (2 ^ 8) with 256.
      pose proof (N.div_mod n 256). lia.
    + rewrite N.shiftr_div_pow2. change (2 ^ 8) with 256.
      apply N.Div0.div_lt_upper_bound.
      replace (8 * N.of_nat (S k)) with (8 + 8 * N.of_nat k) in Hn by lia.
      rewrite N.pow_add_r in Hn. exact Hn.
Qed.

Lemma utf8_char_scalar c : is_scalar c = true -> is_Some (utf8_char c).
Proof.
  unfold is_scalar, utf8_char, in_range. intros H.
  destruct (c <? 128) eqn:E1; [eauto|].
  destruct (c <? 2048) eqn:E2; [eauto|].
  destruct ((55296 <=? c) && (c <=? 57343)) eqn:E3.
  - exfalso.
    apply andb_true_iff in E3 as [E3 E4].
    apply N.leb_le in E3, E4.
    apply orb_true_iff in H as [H|H].
    + apply N.ltb_lt in H. lia.
    + apply andb_true_iff in H as [H _]. apply N.leb_le in H. lia.
  - destruct (c <? 65536) eqn:E4; [eauto|].
    destruct (c <? 1114112) eqn:E5; [eauto|].
    exfalso. apply N.ltb_ge in E5, E4.
    apply orb_true_iff in H as [H|H].
    + apply N.ltb_lt in H. lia.
    + apply andb_true_iff in H as [_ H]. apply N.leb_le in H. lia.
Qed.

Lemma utf8_encode_scalar t :
  Forall (fun c => is_scalar c = true) t -> is_Some (utf8_encode t).
Proof.
  induction 1 as [|c t Hc _ IH]; simpl; [eauto|].
  destruct (utf8_char_scalar c Hc) as [b ->].
  destruct IH as [bs ->]. eauto.
Qed.

Lemma utf8_char_length c b : utf8_char c = Some b -> (length b <= 4)%nat.
Proof.
  unfold utf8_char. intros H.
  repeat match type of H with
         | (if ?x then _ else _) = _ => destruct x
         end; inversion H; subst; simpl; lia.
Qed.

Lemma utf8_encode_length t encoded :
  utf8_encode t = Some encoded -> (length encoded <= 4 * length t)%nat.
Proof.
  revert encoded. induction t as [|c t IH]; intros encoded H; simpl in H.
  - inversion H. simpl. lia.
  - destruct (utf8_char c) as [b|] eqn:Hb; [|discriminate].
    destruct (utf8_encode t) as [bs|]; [|discriminate].
    inversion H; subst. rewrite length_app.
    pose proof (utf8_char_length _ _ Hb). pose proof (IH bs eq_refl).
    simpl. lia.
Qed.

(** C5: for a text of Unicode scalar values, of fewer than 2^62 code
    points, [compress_shader] returns eight bytes that hold, as a
    little-endian unsigned integer, the length of the UTF-8 encoding,
    followed by the compressed encoding; decompressing what follows the
    header and reading that many bytes gives the encoding back. *)
Theorem package_round_trip
    (zlib_compress : bytes -> bytes) (zlib_decompress : bytes -> option bytes)
    (t : text) :
  (forall b, zlib_decompress (zlib_compress b) = Some b) ->
  Forall (fun c => is_scalar c = true) t ->
  N.of_nat (length t) < 2 ^ 62 ->
  exists encoded packed inflated,
    utf8_encode t = Some encoded /\
    compress_shader zlib_compress t = Some packed /\
    length (take 8 packed) = 8%nat /\
    Forall (fun b => b < 256) (take 8 packed) /\
    le_value (take 8 packed) = N.of_nat (length encoded) /\
    drop 8 packed = zlib_compress encoded /\
    zlib_decompress (drop 8 packed) = Some inflated /\
    take (N.to_nat (le_value (take 8 packed))) inflated = encoded.
Proof.
  intros Hz Ht Hlong.
  destruct (utf8_encode_scalar t Ht) as [encoded He].
  assert (Hlen : N.of_nat (length encoded) < 2 ^ 64).
  { pose proof (utf8_encode_length _ _ He) as Hle.
    change (2 ^ 64) with (4 * 2 ^ 62). lia. }
  exists encoded.
  unfold compress_shader, pack_Q. rewrite He.
  apply N.ltb_lt in Hlen. rewrite Hlen. apply N.ltb_lt in Hlen.
  eexists. exists encoded.
  assert (Htake : take 8 (le_bytes 8 (N.of_nat (length encoded))
                          ++ zlib_compress encoded)
                  = le_bytes 8 (N.of_nat (length encoded))).
  { apply take_app_length'. symmetry. apply le_bytes_length. }
  assert (Hdrop : drop 8 (le_bytes 8 (N.of_nat (length encoded))
                          ++ zlib_compress encoded)
                  = zlib_compress encoded).
  { apply drop_app_length'. symmetry. apply le_bytes_length. }
  assert (Hval : le_value (le_bytes 8 (N.of_nat (length encoded)))
                 = N.of_nat (length encoded)).
  { apply le_value_le_bytes. exact Hlen. }
  split; [reflexivity|]. split; [reflexivity|].
  rewrite Htake, Hdrop, Hval, Nat2N.id.
  repeat split;
    first [ apply le_bytes_length | apply le_bytes_small | apply Hz
          | apply firstn_all | reflexivity ].
Qed.

Lemma package_round_trip_witness :
  exists encoded packed inflated,
    utf8_encode (str "void main(){}") = Some encoded /\
    compress_shader (fun b => b) (str "void main(){}") = Some packed /\
    length (take 8 packed) = 8%nat /\
    Forall (fun b => b < 256) (take 8 packed) /\
    le_value (take 8 packed) = N.of_nat (length encoded) /\
    drop 8 packed = encoded /\
    Some (drop 8 packed) = Some inflated /\
    take (N.to_nat (le_value (take 8 packed))) inflated = encoded.
Proof.
  apply (package_round_trip (fun b => b) (fun b => Some b)
                            (str "void main(){}")).
  - reflexivity.
  - repeat (constructor; [reflexivity|]). constructor.
  - reflexivity.
Defined.

(** ** The whitespace compactor *)

Lemma splitlines_unbroken t : Forall unbroken (splitlines t).
Proof.
  assert (H : forall n t, (length t <= n)%nat -> Forall unbroken (splitlines t)).
  { induction n as [|n IH]; intros [|c t'] Hlen; simpl in *;
      try (constructor; fail); try lia.
    destruct (is_linebreak c) eqn:Hc.
    - constructor; [constructor|].
      destruct t' as [|c' t'']; [constructor|].
      destruct ((c =? CR) && (c' =? LF)); apply IH; simpl in *; lia.
    - pose proof (IH t' ltac:(lia)) as Ht'.
      destruct (splitlines t') as [|l ls].
      + repeat constructor. exact Hc.
      + inversion Ht'; subst. constructor; [constructor|]; assumption. }
  apply (H (length t)). lia.
Qed.

Lemma lstrip_suffix l : exists pre, l = pre ++ lstrip l /\ forallb isspace pre = true.
Proof.
  induction l as [|c l IH]; simpl.
  - exists []. split; reflexivity.
  - destruct (isspace c) eqn:Hc.
    + destruct IH as (pre & Hl & Hpre). exists (c :: pre). simpl.
      rewrite Hc, Hpre. split; [congruence|reflexivity].
    + exists []. split; reflexivity.
Qed.

Lemma lstrip_head l c r : lstrip l = c :: r -> isspace c = false.
Proof.
  induction l as [|x l IH]; simpl; [discriminate|].
  destruct (isspace x) eqn:Hx; [exact IH|].
  intros H. inversion H; subst. exact Hx.
Qed.

Lemma lstrip_In l c : In c (lstrip l) -> In c l.
Proof.
  destruct (lstrip_suffix l) as (pre & Hl & _). intros H.
  rewrite Hl. apply in_or_app. right. exact H.
Qed.

Lemma lstrip_nonblank l : truthy (lstrip l) = true <-> nonblank l.
Proof.
  split.
  - destruct (lstrip l) as [|c r] eqn:E; [discriminate|]. intros _.
    exists c. split.
    + apply lstrip_In. rewrite E. left. reflexivity.
    + eapply lstrip_head, E.
  - intros (c & Hin & Hc). induction l as [|x l IH]; [destruct Hin|].
    simpl. destruct (isspace x) eqn:Hx; [|reflexivity].
    destruct Hin as [->|Hin]; [congruence|]. apply IH, Hin.
Qed.

Lemma nonblank_rev l : nonblank (rev l) <-> nonblank l.
Proof.
  unfold nonblank. split; intros (c & Hin & Hc); exists c; split; auto.
  - apply in_rev. exact Hin.
  - apply in_rev in Hin. exact Hin.
Qed.

Lemma truthy_rev (l : text) : truthy (rev l) = truthy l.
Proof.
  destruct l as [|c l]; [reflexivity|]. simpl.
  destruct (rev l ++ [c]) eqn:E; [|reflexivity].
  apply app_eq_nil in E as [_ E]. discriminate.
Qed.

(** [line.strip()] is true exactly for the lines that show something. *)
Lemma strip_nonblank l : truthy (strip l) = true <-> nonblank l.
Proof.
  unfold strip. rewrite truthy_rev, lstrip_nonblank, nonblank_rev.
  split.
  - intros (c & Hin & Hc). exists c. split; [apply lstrip_In, Hin|exact Hc].
  - intros H. apply lstrip_nonblank in H.
    destruct (lstrip l) as [|c r] eqn:E; [discriminate|].
    exists c. split; [left; reflexivity|]. eapply lstrip_head, E.
Qed.

Lemma kept_lines_good x :
  Forall (fun l => nonblank l /\ unbroken l) (kept_lines x).
Proof.
  unfold kept_lines. apply List.Forall_forall. intros l Hin.
  apply List.filter_In in Hin as [Hin Hl]. split.
  - apply strip_nonblank, Hl.
  - pose proof (splitlines_unbroken x) as H.
    rewrite List.Forall_forall in H. apply H, Hin.
Qed.

Lemma directive_at_middle done line rest :
  directive_at (done ++ line :: rest) (length done) = is_directive line.
Proof.
  unfold directive_at. rewrite list_lookup_middle; reflexivity.
Qed.

Lemma newline_loop_cons lines i line todo :
  newline_loop lines i (line :: todo)
  = (if (0 <? i)%nat
        && (is_directive line
            || (0 <? i)%nat && directive_at lines (i - 1)
            || (i <? length lines - 1)%nat && directive_at lines (i + 1))
     then [[LF]] else [])
    ++ line :: newline_loop lines (S i) todo.
Proof. reflexivity. Qed.

(** Past the first line, the test of the loop is the separator rule. *)
Lemma loop_test done prev line rest :
  let lines := done ++ prev :: line :: rest in
  let i := S (length done) in
  (0 <? i)%nat
  && (is_directive line
      || (0 <? i)%nat && directive_at lines (i - 1)
      || (i <? length lines - 1)%nat && directive_at lines (i + 1))
  = separated prev line (head rest).
Proof.
  intros lines i. unfold separated.
  assert (Hi : (0 <? i)%nat = true) by (apply Nat.ltb_lt; unfold i; lia).
  rewrite Hi. cbn [andb].
  assert (Hprev : directive_at lines (i - 1) = is_directive prev).
  { unfold i, lines. replace (S (length done) - 1)%nat with (length done) by lia.
    apply directive_at_middle. }
  rewrite Hprev. f_equal.
  destruct rest as [|n rest'].
  - replace (i <? length lines - 1)%nat with false; [reflexivity|].
    symmetry. apply Nat.ltb_ge. unfold i, lines.
    rewrite length_app. simpl. lia.
  - replace (i <? length lines - 1)%nat with true.
    + cbn [andb head]. unfold i, lines.
      replace (done ++ prev :: line :: n :: rest')
        with ((done ++ [prev; line]) ++ n :: rest')
        by (rewrite <- app_assoc; reflexivity).
      replace (S (length done) + 1)%nat with (length (done ++ [prev; line]))
        by (rewrite length_app; simpl; lia).
      apply directive_at_middle.
    + symmetry. apply Nat.ltb_lt. unfold i, lines.
      rewrite length_app. simpl. lia.
Qed.

(** The loop over indices is the separator rule applied along the
    lines. *)
Lemma newline_loop_compact todo : forall done prev,
  concat (newline_loop (done ++ prev :: todo) (S (length done)) todo)
  = compact_from prev todo.
Proof.
  induction todo as [|line rest IH]; intros done prev; [reflexivity|].
  rewrite newline_loop_cons.
  rewrite (loop_test done prev line rest).
  cbn [compact_from]. rewrite concat_app. f_equal.
  - destruct (separated prev line (head rest)); reflexivity.
  - cbn [concat]. f_equal.
    specialize (IH (done ++ [prev]) line).
    rewrite <- app_assoc in IH. cbn [app] in IH.
    rewrite length_app in IH. cbn [length] in IH.
    replace (length done + 1)%nat with (S (length done)) in IH by lia.
    exact IH.
Qed.

(** [remove_newlines] joins the kept lines under the separator rule. *)
Lemma remove_newlines_compact x : remove_newlines x = compact (kept_lines x).
Proof.
  unfold remove_newlines, compact.
  destruct (kept_lines x) as [|line rest]; [reflexivity|].
  rewrite newline_loop_cons. cbn [Nat.ltb Nat.leb andb app concat]. f_equal.
  apply (newline_loop_compact rest [] line).
Qed.

Lemma join_nl_cons l ls : join_nl (l :: ls) = l ++ opened_lines ls.
Proof.
  revert l. induction ls as [|l' ls IH]; intros l.
  - simpl. rewrite app_nil_r. reflexivity.
  - change (join_nl (l :: l' :: ls)) with (l ++ LF :: join_nl (l' :: ls)).
    rewrite IH. reflexivity.
Qed.

(** What [tail_blocks] returns: the lines in order, cut into runs that
    are not empty; the text that the separator rule builds; no directive
    inside a run of several lines. *)
Lemma tail_blocks_spec lines : forall prev,
  let cont := fst (tail_blocks prev lines) in
  let more := snd (tail_blocks prev lines) in
  concat (cont :: more) = lines /\
  Forall (fun b => b <> []) more /\
  compact_from prev lines = concat cont ++ opened_lines (map (@concat char) more) /\
  Forall (fun l => is_directive l = false) cont /\
  (cont <> [] -> is_directive prev = false) /\
  Forall (fun b => forall l, In l b -> is_directive l = true -> b = [l]) more /\
  all_separated (is_directive prev) (map block_flag more).
Proof.
  induction lines as [|line rest IH]; intros prev.
  - simpl. refine (conj _ (conj _ (conj _ (conj _ (conj _ (conj _ _))))));
      try constructor. intros H. congruence.
  - specialize (IH line). cbn [tail_blocks compact_from].
    destruct (tail_blocks line rest) as [cont more] eqn:E.
    cbn [fst snd] in IH.
    destruct IH as (Hcat & Hne & Hcomp & Hcont & Hprev & Hdir & Hsep).
    destruct (separated prev line (head rest)) eqn:Hs; cbn [fst snd].
    + refine (conj _ (conj _ (conj _ (conj _ (conj _ (conj _ _)))))).
      * cbn [concat app] in *. rewrite <- Hcat. reflexivity.
      * constructor; [discriminate|exact Hne].
      * cbn [concat app map opened_lines flat_map]. rewrite Hcomp.
        cbn [concat]. rewrite <- !app_assoc. reflexivity.
      * constructor.
      * intros H. congruence.
      * constructor; [|exact Hdir].
        intros l Hin Hl. destruct cont as [|c cont'].
        -- destruct Hin as [->|[]]. reflexivity.
        -- exfalso. specialize (Hprev ltac:(discriminate)).
           destruct Hin as [->|Hin]; [congruence|].
           rewrite List.Forall_forall in Hcont.
           specialize (Hcont l Hin). congruence.
      * cbn [map all_separated block_flag]. split; [|exact Hsep].
        unfold separated in Hs.
        destruct (is_directive line); [reflexivity|].
        destruct (is_directive prev); [reflexivity|].
        cbn [orb] in *.
        destruct rest as [|n rest']; [discriminate Hs|].
        cbn [head] in Hs.
        destruct cont as [|c cont'].
        -- destruct more as [|b more'].
           ++ discriminate Hcat.
           ++ inversion Hne as [|? ? Hb _]; subst.
              destruct b as [|l b']; [congruence|].
              cbn [concat app] in Hcat. inversion Hcat; subst.
              cbn [map block_flag]. exact Hs.
        -- cbn [concat app] in Hcat. inversion Hcat; subst.
           inversion Hcont; subst. congruence.
    + unfold separated in Hs.
      apply orb_false_iff in Hs as [Hs Hnext].
      apply orb_false_iff in Hs as [Hline Hp].
      refine (conj _ (conj _ (conj _ (conj _ (conj _ (conj _ _)))))).
      * cbn [concat app] in *. rewrite <- Hcat. reflexivity.
      * exact Hne.
      * rewrite Hcomp. cbn [concat app]. rewrite <- !app_assoc. reflexivity.
      * constructor; assumption.
      * intros _. exact Hp.
      * exact Hdir.
      * rewrite Hp. rewrite Hline in Hsep. exact Hsep.
Qed.

Lemma blocks_spec lines :
  concat (blocks lines) = lines /\
  Forall (fun b => b <> []) (blocks lines) /\
  compact lines = join_nl (map (@concat char) (blocks lines)) /\
  Forall (fun b => forall l, In l b -> is_directive l = true -> b = [l])
         (blocks lines) /\
  match blocks lines with
  | [] => True
  | b :: more => all_separated (block_flag b) (map block_flag more)
  end.
Proof.
  destruct lines as [|line rest]; [repeat split; constructor|].
  pose proof (tail_blocks_spec rest line) as H.
  unfold blocks, compact.
  destruct (tail_blocks line rest) as [cont more]. cbn [fst snd] in H.
  destruct H as (Hcat & Hne & Hcomp & Hcont & Hprev & Hdir & Hsep).
  refine (conj _ (conj _ (conj _ (conj _ _)))).
  - cbn [concat app] in *. rewrite <- Hcat. reflexivity.
  - constructor; [discriminate|exact Hne].
  - cbn [map]. rewrite join_nl_cons, Hcomp. cbn [concat].
    rewrite <- app_assoc. reflexivity.
  - constructor; [|exact Hdir].
    intros l Hin Hl. destruct cont as [|c cont'].
    + destruct Hin as [->|[]]. reflexivity.
    + exfalso. specialize (Hprev ltac:(discriminate)).
      destruct Hin as [->|Hin]; [congruence|].
      rewrite List.Forall_forall in Hcont.
      specialize (Hcont l Hin). congruence.
  - exact Hsep.
Qed.

Lemma lstrip_app l r : nonblank l -> lstrip (l ++ r) = lstrip l ++ r.
Proof.
  intros (c & Hin & Hc). induction l as [|x l IH]; [destruct Hin|].
  simpl. destruct (isspace x) eqn:Hx; [|reflexivity].
  destruct Hin as [->|Hin]; [congruence|]. apply IH, Hin.
Qed.

Lemma is_directive_app l r :
  nonblank l -> is_directive (l ++ r) = is_directive l.
Proof.
  intros Hl. unfold is_directive. rewrite lstrip_app by exact Hl.
  apply lstrip_nonblank in Hl.
  destruct (lstrip l); [discriminate|reflexivity].
Qed.

Lemma nonblank_app_l l r : nonblank l -> nonblank (l ++ r).
Proof.
  intros (c & Hin & Hc). exists c. split; [|exact Hc].
  apply in_or_app. left. exact Hin.
Qed.

(** An output line made of good kept lines is good, and is a directive
    exactly when its first kept line is one. *)
Lemma block_good b :
  b <> [] -> Forall (fun l => nonblank l /\ unbroken l) b ->
  nonblank (concat b) /\ unbroken (concat b)
  /\ is_directive (concat b) = block_flag b.
Proof.
  intros Hne Hb. destruct b as [|l b']; [congruence|].
  inversion Hb as [|? ? [Hl Hu] Hb']; subst. cbn [concat block_flag].
  refine (conj _ (conj _ _)).
  - apply nonblank_app_l, Hl.
  - unfold unbroken in *. apply List.Forall_app. split; [exact Hu|].
    clear -Hb'. induction Hb' as [|x b'' [_ Hx] _ IH]; [constructor|].
    cbn [concat]. apply List.Forall_app. split; assumption.
  - apply is_directive_app, Hl.
Qed.

Lemma blocks_good lines :
  Forall (fun l => nonblank l /\ unbroken l) lines ->
  Forall (fun b => nonblank (concat b) /\ unbroken (concat b)
                   /\ is_directive (concat b) = block_flag b)
         (blocks lines).
Proof.
  intros Hlines.
  destruct (blocks_spec lines) as (Hcat & Hne & _).
  rewrite List.Forall_forall in *. intros b Hb.
  apply block_good; [apply Hne, Hb|].
  rewrite List.Forall_forall. intros l Hl. apply Hlines.
  rewrite <- Hcat. apply in_concat. exists b. split; assumption.
Qed.

Lemma unbroken_no_LF l : unbroken l -> ~ In LF l.
Proof.
  intros Hu Hin. unfold unbroken in Hu. rewrite List.Forall_forall in Hu.
  specialize (Hu LF Hin). discriminate Hu.
Qed.

Lemma split_nl_line l t :
  ~ In LF l -> split_nl (l ++ LF :: t) = l :: split_nl t.
Proof.
  induction l as [|c l IH]; intros Hl.
  - reflexivity.
  - cbn [app split_nl].
    destruct (c =? LF) eqn:Hc.
    + apply N.eqb_eq in Hc. subst. exfalso. apply Hl. left. reflexivity.
    + rewrite IH; [reflexivity|]. intros H. apply Hl. right. exact H.
Qed.

Lemma split_nl_single l : ~ In LF l -> split_nl l = [l].
Proof.
  induction l as [|c l IH]; intros Hl; [reflexivity|].
  cbn [split_nl]. destruct (c =? LF) eqn:Hc.
  - apply N.eqb_eq in Hc. subst. exfalso. apply Hl. left. reflexivity.
  - rewrite IH; [reflexivity|]. intros H. apply Hl. right. exact H.
Qed.

(** Splitting at newlines undoes joining lines that hold none. *)
Lemma split_nl_join_nl ls :
  ls <> [] -> Forall (fun l => ~ In LF l) ls -> split_nl (join_nl ls) = ls.
Proof.
  intros Hne Hls. induction Hls as [|l ls Hl Hls IH]; [congruence|].
  destruct ls as [|l' ls'].
  - apply split_nl_single, Hl.
  - change (join_nl (l :: l' :: ls')) with (l ++ LF :: join_nl (l' :: ls')).
    rewrite split_nl_line by exact Hl. rewrite IH; [reflexivity|discriminate].
Qed.

Lemma splitlines_line l t :
  unbroken l -> splitlines (l ++ LF :: t) = l :: splitlines t.
Proof.
  induction 1 as [|c l Hc _ IH].
  - cbn [app splitlines]. change (is_linebreak LF) with true. cbn iota.
    destruct t as [|c' t']; reflexivity.
  - cbn [app splitlines]. rewrite Hc, IH. reflexivity.
Qed.

Lemma splitlines_single l : unbroken l -> l <> [] -> splitlines l = [l].
Proof.
  induction 1 as [|c l Hc Hl IH]; intros Hne; [congruence|].
  cbn [splitlines]. rewrite Hc.
  destruct l as [|c' l']; [reflexivity|].
  rewrite IH; [reflexivity|discriminate].
Qed.

(** [splitlines] undoes joining lines that are not empty and hold no
    line boundary. *)
Lemma splitlines_join_nl ls :
  Forall (fun l => l <> [] /\ unbroken l) ls -> splitlines (join_nl ls) = ls.
Proof.
  induction 1 as [|l ls [Hne Hl] Hls IH]; [reflexivity|].
  destruct ls as [|l' ls'].
  - apply splitlines_single; assumption.
  - change (join_nl (l :: l' :: ls')) with (l ++ LF :: join_nl (l' :: ls')).
    rewrite splitlines_line by exact Hl. rewrite IH. reflexivity.
Qed.

Lemma nonblank_not_nil l : nonblank l -> l <> [].
Proof. intros (c & Hin & _) ->. destruct Hin. Qed.

(** The output of the compactor is its output lines joined by
    newlines, and every output line is good. *)
Lemma remove_newlines_lines x :
  let gs := map (@concat char) (blocks (kept_lines x)) in
  remove_newlines x = join_nl gs /\
  Forall (fun g => nonblank g /\ unbroken g) gs.
Proof.
  intros gs. split.
  - rewrite remove_newlines_compact.
    apply (blocks_spec (kept_lines x)).
  - unfold gs. apply List.Forall_map.
    pose proof (blocks_good _ (kept_lines_good x)) as H.
    eapply List.Forall_impl; [|exact H].
    intros b (Hn & Hu & _). split; assumption.
Qed.

Lemma two_newlines_empty_line pre post :
  In [] (tl (split_nl (pre ++ LF :: LF :: post))).
Proof.
  induction pre as [|c pre IH].
  - left. reflexivity.
  - cbn [app split_nl]. destruct (c =? LF).
    + cbn [tl]. destruct (split_nl (pre ++ LF :: LF :: post)) as [|l ls].
      * destruct IH.
      * right. exact IH.
    + destruct (split_nl (pre ++ LF :: LF :: post)) as [|l ls].
      * destruct IH.
      * exact IH.
Qed.

Example compacted_around_directive :
  remove_newlines (lines_of ["a"; ""; "#d"; "b"; "c"])
  = lines_of ["a"; "#d"; "bc"].
Proof. vm_compute. reflexivity. Qed.

Example compacted_before_directive :
  remove_newlines (lines_of ["x"; "y"; "  "; "z"; "#d"])
  = lines_of ["xy"; "z"; "#d"].
Proof. vm_compute. reflexivity. Qed.

Example compacted_directive_first :
  remove_newlines (lines_of ["#d"; "x"]) = lines_of ["#d"; "x"].
Proof. vm_compute. reflexivity. Qed.

Example compacted_blank_text :
  remove_newlines (lines_of [" "; ""; "  "]) = [].
Proof. vm_compute. reflexivity. Qed.

(** C10: the output of [remove_newlines] does not begin with a newline,
    holds no two newlines in a row, and each of its lines, cut by
    [splitlines] or at the newlines, holds a character that is not white
    space; when every line of the input is blank the output is empty. *)
Theorem compacted_shape (x : text) :
  let out := remove_newlines x in
  head out <> Some LF /\
  (forall pre post, out <> pre ++ LF :: LF :: post) /\
  Forall nonblank (splitlines out) /\
  (out <> [] -> Forall nonblank (split_nl out)) /\
  (Forall (fun l => ~ nonblank l) (splitlines x) -> out = []).
Proof.
  intros out.
  destruct (remove_newlines_lines x) as [Hout Hgs].
  set (gs := map (@concat char) (blocks (kept_lines x))) in *.
  fold out in Hout.
  assert (Hsplitlines : splitlines out = gs).
  { rewrite Hout. apply splitlines_join_nl.
    eapply List.Forall_impl; [|exact Hgs].
    intros g [Hn Hu]. split; [apply nonblank_not_nil, Hn|exact Hu]. }
  assert (Hsplit : out <> [] -> split_nl out = gs).
  { intros Hne. rewrite Hout. apply split_nl_join_nl.
    - intros E. apply Hne. rewrite Hout, E. reflexivity.
    - eapply List.Forall_impl; [|exact Hgs].
      intros g [_ Hu]. apply unbroken_no_LF, Hu. }
  assert (Hlines : Forall nonblank gs).
  { eapply List.Forall_impl; [|exact Hgs]. intros g [Hn _]. exact Hn. }
  refine (conj _ (conj _ (conj _ (conj _ _)))).
  - destruct out as [|c out'] eqn:E; [discriminate|].
    cbn [head]. intros H. inversion H; subst c.
    specialize (Hsplit ltac:(discriminate)).
    cbn [split_nl] in Hsplit. change (LF =? LF) with true in Hsplit.
    cbn iota in Hsplit. rewrite <- Hsplit in Hlines.
    inversion Hlines as [|? ? Hnil _]; subst.
    apply nonblank_not_nil in Hnil. congruence.
  - intros pre post E.
    assert (Hne : out <> []) by (rewrite E; destruct pre; discriminate).
    specialize (Hsplit Hne).
    pose proof (two_newlines_empty_line pre post) as Hin.
    rewrite <- E, Hsplit in Hin.
    assert (Hin' : In [] gs) by (destruct gs; [destruct Hin|right; exact Hin]).
    rewrite List.Forall_forall in Hlines.
    apply Hlines, nonblank_not_nil in Hin'. congruence.
  - rewrite Hsplitlines. exact Hlines.
  - intros Hne. rewrite (Hsplit Hne). exact Hlines.
  - intros Hblank. unfold out. rewrite remove_newlines_compact.
    replace (kept_lines x) with (@nil text); [reflexivity|].
    symmetry. unfold kept_lines.
    induction Hblank as [|l ls Hl _ IH]; [reflexivity|].
    cbn [List.filter]. destruct (truthy (strip l)) eqn:Hs; [|exact IH].
    exfalso. apply Hl, strip_nonblank, Hs.
Qed.

(** C3: the output of [remove_newlines] is its kept lines in order,
    joined under the separator rule: a newline stands before a line,
    other than the one that opens the output, when that line, the line
    before it or the line after it is a directive, and nothing stands
    between two lines otherwise.  The output lines are runs of kept
    lines, and an output line that holds a directive line holds that
    line alone. *)
Theorem directive_isolation (x : text) :
  let lines := kept_lines x in
  let out := remove_newlines x in
  out = compact lines /\
  concat (blocks lines) = lines /\
  Forall (fun b => b <> []) (blocks lines) /\
  out = join_nl (map (@concat char) (blocks lines)) /\
  (out <> [] -> split_nl out = map (@concat char) (blocks lines)) /\
  Forall (fun b => forall l, In l b -> is_directive l = true -> b = [l])
         (blocks lines).
Proof.
  intros lines out.
  destruct (blocks_spec lines) as (Hcat & Hne & Hcomp & Hdir & _).
  destruct (remove_newlines_lines x) as [Hout Hgs].
  fold lines in Hout, Hgs. fold out in Hout.
  refine (conj _ (conj Hcat (conj Hne (conj Hout (conj _ Hdir))))).
  - apply remove_newlines_compact.
  - intros Hnil. rewrite Hout. apply split_nl_join_nl.
    + intros E. apply Hnil. rewrite Hout, E. reflexivity.
    + eapply List.Forall_impl; [|exact Hgs].
      intros g [_ Hu]. apply unbroken_no_LF, Hu.
Qed.

(** ** The include resolver *)

Section ResolverFacts.

Variable fs : filesystem.

Lemma pending_mono st st' :
  grows st st' -> (size (pending fs st') <= size (pending fs st))%nat.
Proof.
  intros Hg. apply subseteq_size. unfold pending, grows in *.
  intros f Hf. apply elem_of_difference in Hf as [Hd Hn].
  apply elem_of_difference. split; [exact Hd|].
  intros Hin. apply Hn, Hg, Hin.
Qed.

Lemma pending_add file content st :
  files fs !! file = Some content -> file ∉ included_files st ->
  (size (pending fs (add_included file st)) < size (pending fs st))%nat.
Proof.
  intros Hf Hn. apply subset_size. unfold pending, add_included. simpl.
  assert (Hdom : file ∈ dom (files fs)) by (apply elem_of_dom; eauto).
  split.
  - intros f Hin. apply elem_of_difference in Hin as [Hd Hnot].
    apply elem_of_difference. split; [exact Hd|].
    intros Hi. apply Hnot, elem_of_union. right. exact Hi.
  - intros Hsub. specialize (Hsub file).
    rewrite !elem_of_difference, elem_of_union, elem_of_singleton in Hsub.
    destruct Hsub as [_ Hno]; [split; assumption|]. apply Hno. left. reflexivity.
Qed.

(** With fuel above the number of files still to inline, the resolution
    returns, and the set of included files has only grown. *)
Lemma process_includes_total fuel : forall shader_content base_path st,
  (size (pending fs st) < fuel)%nat ->
  exists out st',
    process_includes fs fuel shader_content base_path st = Some (out, st')
    /\ grows st st'.
Proof.
  induction fuel as [|fuel IH]; intros shader_content base_path st Hfuel;
    [lia|].
  cbn [process_includes].
  generalize (finditer include_pattern shader_content). intros pieces.
  revert st Hfuel.
  induction pieces as [|[c|m] pieces IHp]; intros st Hfuel; cbn [sub_with].
  - exists [], st. split; [reflexivity|]. unfold grows. set_solver.
  - destruct (IHp st Hfuel) as (out & st' & -> & Hg).
    exists (c :: out), st'. split; [reflexivity|exact Hg].
  - assert (Hrepl : exists r st1,
               replacer fs (process_includes fs fuel) base_path m st
               = Some (r, st1) /\ grows st st1).
    { unfold replacer.
      set (file := canonical fs (join fs base_path (group 1 (captured m)))).
      case_decide as Hin.
      - exists [], st. split; [reflexivity|]. unfold grows. set_solver.
      - destruct (files fs !! file) as [content|] eqn:Hfile.
        + pose proof (pending_add _ _ _ Hfile Hin) as Hlt.
          assert (Hsmall : (size (pending fs (add_included file st)) < fuel)%nat)
            by lia.
          destruct (IH content (parent fs file) (add_included file st) Hsmall)
            as (o & s1 & -> & Hg).
          exists (o ++ [LF]), s1. split; [reflexivity|].
          unfold grows, add_included in *. simpl in Hg. set_solver.
        + eexists [], _. split; [reflexivity|].
          unfold grows, eprint. simpl. set_solver. }
    destruct Hrepl as (r & st1 & -> & Hg1).
    pose proof (pending_mono _ _ Hg1) as Hle.
    destruct (IHp st1 ltac:(lia)) as (out & st2 & -> & Hg2).
    exists (r ++ out), st2. split; [reflexivity|].
    unfold grows in *. set_solver.
Qed.

(** More fuel does not change what a resolution returned. *)
Lemma process_includes_fuel fuel : forall fuel' shader_content base_path st r,
  process_includes fs fuel shader_content base_path st = Some r ->
  (fuel <= fuel')%nat ->
  process_includes fs fuel' shader_content base_path st = Some r.
Proof.
  induction fuel as [|fuel IH];
    intros fuel' shader_content base_path st r Hr Hle; [discriminate|].
  destruct fuel' as [|fuel']; [lia|].
  cbn [process_includes] in *.
  revert st r Hr.
  generalize (finditer include_pattern shader_content). intros pieces.
  induction pieces as [|[c|m] pieces IHp]; intros st r Hr; cbn [sub_with] in *.
  - exact Hr.
  - destruct (sub_with _ pieces st) as [[out st']|] eqn:E; [|discriminate].
    rewrite (IHp _ _ E). exact Hr.
  - destruct (replacer fs (process_includes fs fuel) base_path m st)
      as [[r1 st1]|] eqn:E1; [|discriminate].
    assert (E1' : replacer fs (process_includes fs fuel') base_path m st
                  = Some (r1, st1)).
    { unfold replacer in *. case_decide; [exact E1|].
      destruct (files fs !! _) as [content|]; [|exact E1].
      destruct (process_includes fs fuel content _ _) as [[o s1]|] eqn:E;
        [|discriminate].
      rewrite (IH fuel' _ _ _ _ E ltac:(lia)). exact E1. }
    rewrite E1'.
    destruct (sub_with _ pieces st1) as [[out st2]|] eqn:E2; [|discriminate].
    rewrite (IHp _ _ E2). exact Hr.
Qed.

(** What a replacement that calls a growing [recur] does to the set. *)
Lemma replacer_grows recur base_path m st r st' :
  (forall c b s o s', recur c b s = Some (o, s') -> grows s s') ->
  replacer fs recur base_path m st = Some (r, st') -> grows st st'.
Proof.
  intros Hrec. unfold replacer. case_decide.
  - intros [= <- <-]. unfold grows. set_solver.
  - destruct (files fs !! _) as [content|].
    + destruct (recur content _ _) as [[o s1]|] eqn:E; [|discriminate].
      intros [= <- <-]. apply Hrec in E.
      unfold grows, add_included in *. simpl in E. set_solver.
    + intros [= <- <-]. unfold grows, eprint. simpl. set_solver.
Qed.

Lemma sub_with_grows repl pieces : forall st out st',
  (forall m s r s', repl m s = Some (r, s') -> grows s s') ->
  sub_with repl pieces st = Some (out, st') -> grows st st'.
Proof.
  induction pieces as [|[c|m] pieces IH]; intros st out st' Hrepl;
    cbn [sub_with].
  - intros [= <- <-]. unfold grows. set_solver.
  - destruct (sub_with repl pieces st) as [[o s1]|] eqn:E; [|discriminate].
    intros [= <- <-]. eapply IH; eauto.
  - destruct (repl m st) as [[r s1]|] eqn:E1; [|discriminate].
    destruct (sub_with repl pieces s1) as [[o s2]|] eqn:E2; [|discriminate].
    intros [= <- <-]. apply Hrepl in E1. eapply IH in E2; [|exact Hrepl].
    unfold grows in *. set_solver.
Qed.

Lemma process_includes_grows fuel : forall shader_content base_path st out st',
  process_includes fs fuel shader_content base_path st = Some (out, st') ->
  grows st st'.
Proof.
  induction fuel as [|fuel IH]; intros shader_content base_path st out st';
    [discriminate|].
  cbn [process_includes]. apply sub_with_grows.
  intros m s r s'. apply replacer_grows. exact IH.
Qed.

(** A directive that refers to a file of the set is replaced by the
    empty string: nothing is read, nothing is printed, the set is as it
    was. *)
Lemma replacer_included recur base_path m st :
  target fs base_path m ∈ included_files st ->
  replacer fs recur base_path m st = Some ([], st).
Proof.
  intros Hin. unfold replacer, target in *. case_decide; [reflexivity|].
  contradiction.
Qed.

(** With [file] in the set, the directives that refer to it can be
    left out of the scan. *)
Lemma sub_with_without_refs recur base_path file pieces : forall st,
  (forall c b s o s', recur c b s = Some (o, s') -> grows s s') ->
  file ∈ included_files st ->
  sub_with (replacer fs recur base_path) pieces st
  = sub_with (replacer fs recur base_path)
             (without_refs fs base_path file pieces) st.
Proof.
  intros st Hrec. revert st.
  induction pieces as [|[c|m] pieces IH]; intros st Hin;
    cbn [without_refs List.filter refers_to negb sub_with].
  - reflexivity.
  - fold (without_refs fs base_path file pieces). rewrite (IH st Hin).
    reflexivity.
  - fold (without_refs fs base_path file pieces).
    case_bool_decide as Href; cbn [negb sub_with].
    + rewrite replacer_included by (rewrite Href; exact Hin).
      rewrite (IH st Hin).
      destruct (sub_with _ _ st) as [[out st']|]; reflexivity.
    + destruct (replacer fs recur base_path m st) as [[r st1]|] eqn:E;
        [|reflexivity].
      apply replacer_grows in E; [|exact Hrec].
      rewrite (IH st1); [reflexivity|]. unfold grows in E. set_solver.
Qed.

(** The set holds only files that exist, from the empty set on. *)
Lemma replacer_in_files recur base_path m st r st' :
  (forall c b s o s', included_files s ⊆ dom (files fs) ->
     recur c b s = Some (o, s') -> included_files s' ⊆ dom (files fs)) ->
  included_files st ⊆ dom (files fs) ->
  replacer fs recur base_path m st = Some (r, st') ->
  included_files st' ⊆ dom (files fs).
Proof.
  intros Hrec Hst. unfold replacer. case_decide.
  - intros [= <- <-]. exact Hst.
  - destruct (files fs !! _) as [content|] eqn:Hfile.
    + destruct (recur content _ _) as [[o s1]|] eqn:E; [|discriminate].
      intros [= <- <-]. eapply Hrec; [|exact E].
      unfold add_included. simpl.
      assert (Hdom : canonical fs (join fs base_path (group 1 (captured m)))
                     ∈ dom (files fs)) by (apply elem_of_dom; eauto).
      intros f Hin. apply elem_of_union in Hin as [Hin|Hin].
      * apply elem_of_singleton in Hin. subst f. exact Hdom.
      * apply Hst, Hin.
    + intros [= <- <-]. exact Hst.
Qed.

Lemma process_includes_in_files fuel : forall shader_content base_path st out st',
  included_files st ⊆ dom (files fs) ->
  process_includes fs fuel shader_content base_path st = Some (out, st') ->
  included_files st' ⊆ dom (files fs).
Proof.
  induction fuel as [|fuel IH]; intros shader_content base_path st out st' Hst;
    [discriminate|].
  cbn [process_includes].
  generalize (finditer include_pattern shader_content). intros pieces.
  revert st out st' Hst.
  induction pieces as [|[c|m] pieces IHp]; intros st out st' Hst;
    cbn [sub_with].
  - intros [= <- <-]. exact Hst.
  - destruct (sub_with _ pieces st) as [[o s1]|] eqn:E; [|discriminate].
    intros [= <- <-]. eapply IHp; eauto.
  - destruct (replacer _ _ _ m st) as [[r s1]|] eqn:E1; [|discriminate].
    destruct (sub_with _ pieces s1) as [[o s2]|] eqn:E2; [|discriminate].
    intros [= <- <-]. eapply IHp; [|exact E2].
    eapply replacer_in_files; [|exact Hst|exact E1].
    intros c b s o' s' Hs. apply IH. exact Hs.
Qed.

End ResolverFacts.

Lemma enough_fuel_pending fs st fuel :
  (enough_fuel fs <= fuel)%nat -> (size (pending fs st) < fuel)%nat.
Proof.
  unfold enough_fuel, pending. intros H.
  assert (Hle : (size (dom (files fs) ∖ included_files st)
                 <= size (dom (files fs)))%nat).
  { apply subseteq_size. intros f Hf.
    apply elem_of_difference in Hf as [Hf _]. exact Hf. }
  rewrite size_dom in Hle. lia.
Qed.

(** Whatever the include graph, the resolution returns the same
    outcome for every fuel from [enough_fuel] on; the outcome is the one
    of the scan without the directives that refer to a file of the
    set. *)
Lemma resolution_returns (fs : filesystem) (shader_content : text)
    (base_path : path) (st : resolver) :
  exists out st',
    (forall fuel, (enough_fuel fs <= fuel)%nat ->
       process_includes fs fuel shader_content base_path st = Some (out, st'))
    /\ grows st st'
    /\ (forall file fuel, file ∈ included_files st ->
          (enough_fuel fs <= fuel)%nat ->
          sub_with (replacer fs (process_includes fs fuel) base_path)
                   (without_refs fs base_path file
                      (finditer include_pattern shader_content)) st
          = Some (out, st')).
Proof.
  destruct (process_includes_total fs (enough_fuel fs) shader_content
              base_path st (enough_fuel_pending fs st _ (Nat.le_refl _)))
    as (out & st' & Hrun & Hg).
  exists out, st'.
  assert (Hall : forall fuel, (enough_fuel fs <= fuel)%nat ->
            process_includes fs fuel shader_content base_path st
            = Some (out, st')).
  { intros fuel Hle. eapply process_includes_fuel; eauto. }
  refine (conj Hall (conj Hg _)).
  intros file fuel Hin Hle.
  rewrite <- sub_with_without_refs.
  - specialize (Hall (S fuel) ltac:(lia)). exact Hall.
  - intros c b s o s'. apply process_includes_grows.
  - exact Hin.
Qed.

(** A file that is inlined has its own path in the set while its text
    is resolved: the directives in it that refer to the file itself are
    replaced by the empty string. *)
Lemma inlined_file_ignores_itself fs fuel base_path m st content :
  let file := target fs base_path m in
  files fs !! file = Some content ->
  file ∉ included_files st ->
  (enough_fuel fs <= fuel)%nat ->
  exists inlined st',
    replacer fs (process_includes fs (S fuel)) base_path m st
    = Some (inlined ++ [LF], st') /\
    sub_with (replacer fs (process_includes fs fuel) (parent fs file))
             (without_refs fs (parent fs file) file
                (finditer include_pattern content))
             (add_included file st)
    = Some (inlined, st').
Proof.
  intros file Hfile Hnot Hle.
  destruct (resolution_returns fs content (parent fs file)
              (add_included file st)) as (out & st' & Hall & _ & Hself).
  exists out, st'. split.
  - unfold replacer. fold (target fs base_path m). fold file.
    case_decide; [contradiction|]. rewrite Hfile.
    rewrite (Hall (S fuel) ltac:(lia)). reflexivity.
  - apply Hself; [|exact Hle]. unfold add_included. simpl. set_solver.
Qed.

(** The cycle guard of [replacer]: whatever the include graph, the
    resolution returns once the fuel reaches the number of files plus
    one, cycles or not; a directive whose canonical path is in the
    include set is replaced by the empty string, with no file read and
    the set unchanged; where a file of the include set is referred to,
    the outcome is the one of the scan with those directives left out;
    and a file that is inlined is put into the set before its text is
    resolved, so that what is inlined is its text resolved with the
    directives that refer to the file itself left out, and a newline. *)
Lemma include_cycles_end (fs : filesystem) (shader_content : text)
    (base_path : path) (st : resolver) :
  (exists out st',
     (forall fuel, (enough_fuel fs <= fuel)%nat ->
        process_includes fs fuel shader_content base_path st = Some (out, st'))
     /\ grows st st'
     /\ (forall file fuel, file ∈ included_files st ->
           (enough_fuel fs <= fuel)%nat ->
           sub_with (replacer fs (process_includes fs fuel) base_path)
                    (without_refs fs base_path file
                       (finditer include_pattern shader_content)) st
           = Some (out, st')))
  /\ (forall recur m, target fs base_path m ∈ included_files st ->
        replacer fs recur base_path m st = Some ([], st))
  /\ (forall m content fuel,
        files fs !! target fs base_path m = Some content ->
        target fs base_path m ∉ included_files st ->
        (enough_fuel fs <= fuel)%nat ->
        exists inlined st',
          replacer fs (process_includes fs (S fuel)) base_path m st
          = Some (inlined ++ [LF], st') /\
          sub_with (replacer fs (process_includes fs fuel)
                             (parent fs (target fs base_path m)))
                   (without_refs fs (parent fs (target fs base_path m))
                      (target fs base_path m)
                      (finditer include_pattern content))
                   (add_included (target fs base_path m) st)
          = Some (inlined, st')).
Proof.
  refine (conj (resolution_returns fs shader_content base_path st) (conj _ _)).
  - intros recur m. apply replacer_included.
  - intros m content fuel. apply inlined_file_ignores_itself.
Qed.

(** C4: the guard misses the file the program is run on.
    [process_shader] starts the resolution of its text from the empty
    set, where [replacer] puts every file it inlines into the set
    before it resolves its text.  So [a.glsl], which includes itself
    and then holds [X], is inlined once into itself, and the guard ends
    the recursion one file late: the resolution gives the text of the
    file twice, not the text with the directive replaced by the empty
    string. *)
Theorem entry_self_include_inlined :
  fst <$> process_includes self_fs (enough_fuel self_fs) self_text []
            (entry_state self_fs (str "a.glsl"))
  = Some ([LF] ++ str "X" ++ [LF; LF] ++ str "X")
  /\ fst <$> process_includes self_fs (enough_fuel self_fs) ([LF] ++ str "X") []
               (entry_state self_fs (str "a.glsl"))
     = Some ([LF] ++ str "X")
  /\ fst <$> process_includes self_fs (enough_fuel self_fs) self_text []
               (entry_state self_fs (str "a.glsl"))
     <> fst <$> process_includes self_fs (enough_fuel self_fs)
                  ([LF] ++ str "X") [] (entry_state self_fs (str "a.glsl")).
Proof.
  assert (H1 : fst <$> process_includes self_fs (enough_fuel self_fs)
                         self_text [] (entry_state self_fs (str "a.glsl"))
               = Some ([LF] ++ str "X" ++ [LF; LF] ++ str "X"))
    by (vm_compute; reflexivity).
  assert (H2 : fst <$> process_includes self_fs (enough_fuel self_fs)
                         ([LF] ++ str "X") []
                         (entry_state self_fs (str "a.glsl"))
               = Some ([LF] ++ str "X"))
    by (vm_compute; reflexivity).
  refine (conj H1 (conj H2 _)). rewrite H1, H2. discriminate.
Qed.

(** What [process_shader] makes of that file: its [X] twice, and the
    file read twice. *)
Example entry_self_include_processed :
  match process_shader (fun _ => false) (fun _ => false) self_fs (str "a.glsl")
  with
  | Some (inl (t, st)) => Some (t, opened st)
  | _ => None
  end
  = Some (str "XX", [str "a.glsl"; str "a.glsl"]).
Proof. vm_compute. reflexivity. Qed.

(** The same one file late for a longer cycle: [a.glsl] includes
    [b.glsl], which includes [a.glsl]; run on [a.glsl], the resolver
    inlines [a.glsl] into [b.glsl] before the guard holds. *)
Example entry_cycle_inlined :
  process_includes cycle_fs (enough_fuel cycle_fs)
    (include_of "b.glsl" ++ [LF] ++ str "A") []
    (entry_state cycle_fs (str "a.glsl"))
  = Some (lines_of [""; "A"; ""; "B"; ""; "A"],
          Resolver {[ str "b.glsl"; str "a.glsl" ]} []
                   [str "a.glsl"; str "b.glsl"; str "a.glsl"]).
Proof. vm_compute. reflexivity. Qed.

(** The text with a directive deleted need not resolve like the text
    itself when another directive follows on the same line: [^] leaves
    that one alone in the text, and finds it once the first is gone. *)
Lemma same_line_directive_kept :
  fst <$> process_includes twice_fs (enough_fuel twice_fs) twice_text []
            (Resolver {[ str "f.glsl" ]} [] [])
  = Some (include_of "g.glsl")
  /\ fst <$> process_includes twice_fs (enough_fuel twice_fs)
               (include_of "g.glsl") [] (Resolver {[ str "f.glsl" ]} [] [])
     = Some (str "G" ++ [LF]).
Proof. split; vm_compute; reflexivity. Qed.

(** A diamond: [d.glsl] is inlined where it is met first, and the second
    directive that refers to it gives the empty string. *)
Example diamond_inlined_once :
  fst <$> process_includes diamond_fs (enough_fuel diamond_fs)
            (include_of "b.glsl" ++ [LF] ++ include_of "c.glsl") []
            (entry_state diamond_fs (str "top.glsl"))
  = Some (lines_of ["D"; ""; "B"; ""; ""; "C"; ""]).
Proof. vm_compute. reflexivity. Qed.

(** ** A missing include *)

(** The error stream is only added to, and nothing a resolution does
    depends on what it holds. *)
Section StderrFacts.

Variable fs : filesystem.

Lemma with_stderr_same st : with_stderr (stderr st) st = st.
Proof. destruct st. reflexivity. Qed.

Lemma replacer_framed recur base_path m :
  (forall c b, framed (recur c b)) ->
  framed (replacer fs recur base_path m).
Proof.
  intros Hrec s o s'. unfold replacer.
  set (file := canonical fs (join fs base_path (group 1 (captured m)))).
  cbn [with_stderr included_files].
  case_decide as Hin.
  - intros [= <- <-]. exists []. split; [rewrite app_nil_r; reflexivity|].
    intros e. rewrite app_nil_r. reflexivity.
  - destruct (files fs !! file) as [content|] eqn:Hfile.
    + destruct (recur content (parent fs file) (add_included file s))
        as [[inlined s1]|] eqn:Hr; [|discriminate].
      intros [= <- <-]. destruct (Hrec _ _ _ _ _ Hr) as (said & Hs & Hall).
      exists said. split; [exact Hs|]. intros e.
      change (add_included file (with_stderr e s))
        with (with_stderr e (add_included file s)).
      rewrite Hall. reflexivity.
    + intros [= <- <-].
      exists ((str "Include not found: " ++ file) ++ [LF]).
      split; [reflexivity|]. intros e. reflexivity.
Qed.

Lemma sub_with_framed repl pieces :
  (forall m, framed (repl m)) -> framed (sub_with repl pieces).
Proof.
  intros Hrepl.
  induction pieces as [|[c|m] pieces IH]; intros st out st'; cbn [sub_with].
  - intros [= <- <-]. exists []. split; [rewrite app_nil_r; reflexivity|].
    intros e. rewrite app_nil_r. reflexivity.
  - destruct (sub_with repl pieces st) as [[o s1]|] eqn:E; [|discriminate].
    intros [= <- <-]. destruct (IH _ _ _ E) as (said & Hs & Hall).
    exists said. split; [exact Hs|]. intros e. rewrite Hall. reflexivity.
  - destruct (repl m st) as [[r s1]|] eqn:E1; [|discriminate].
    destruct (sub_with repl pieces s1) as [[o s2]|] eqn:E2; [|discriminate].
    intros [= <- <-].
    destruct (Hrepl _ _ _ _ E1) as (said1 & Hs1 & Hall1).
    destruct (IH _ _ _ E2) as (said2 & Hs2 & Hall2).
    exists (said1 ++ said2). split.
    + rewrite Hs2, Hs1, app_assoc. reflexivity.
    + intros e. rewrite Hall1, Hall2, app_assoc. reflexivity.
Qed.

Lemma process_includes_framed fuel : forall shader_content base_path,
  framed (process_includes fs fuel shader_content base_path).
Proof.
  induction fuel as [|fuel IH]; intros shader_content base_path;
    [intros s o s'; discriminate|].
  cbn [process_includes]. apply sub_with_framed.
  intros m. apply replacer_framed. exact IH.
Qed.

Lemma sub_with_app repl before rest : forall st,
  sub_with repl (before ++ rest) st
  = match sub_with repl before st with
    | Some (out1, st1) =>
        match sub_with repl rest st1 with
        | Some (out2, st2) => Some (out1 ++ out2, st2)
        | None => None
        end
    | None => None
    end.
Proof.
  induction before as [|[c|m] before IH]; intros st;
    cbn [app sub_with].
  - destruct (sub_with repl rest st) as [[o s]|]; reflexivity.
  - rewrite IH. destruct (sub_with repl before st) as [[o1 s1]|]; [|reflexivity].
    destruct (sub_with repl rest s1) as [[o2 s2]|]; reflexivity.
  - destruct (repl m st) as [[r s0]|]; [|reflexivity].
    rewrite IH. destruct (sub_with repl before s0) as [[o1 s1]|]; [|reflexivity].
    destruct (sub_with repl rest s1) as [[o2 s2]|]; [|reflexivity].
    rewrite app_assoc. reflexivity.
Qed.

Lemma sub_with_in_files repl pieces : forall st out st',
  (forall m s r s', included_files s ⊆ dom (files fs) ->
     repl m s = Some (r, s') -> included_files s' ⊆ dom (files fs)) ->
  included_files st ⊆ dom (files fs) ->
  sub_with repl pieces st = Some (out, st') ->
  included_files st' ⊆ dom (files fs).
Proof.
  induction pieces as [|[c|m] pieces IH]; intros st out st' Hrepl Hst;
    cbn [sub_with].
  - intros [= <- <-]. exact Hst.
  - destruct (sub_with repl pieces st) as [[o s1]|] eqn:E; [|discriminate].
    intros [= <- <-]. eapply IH; eauto.
  - destruct (repl m st) as [[r s1]|] eqn:E1; [|discriminate].
    destruct (sub_with repl pieces s1) as [[o s2]|] eqn:E2; [|discriminate].
    intros [= <- <-]. eapply IH; [exact Hrepl| |exact E2].
    eapply Hrepl; eassumption.
Qed.

Lemma replacer_fuel fuel fuel' base_path m st r :
  replacer fs (process_includes fs fuel) base_path m st = Some r ->
  (fuel <= fuel')%nat ->
  replacer fs (process_includes fs fuel') base_path m st = Some r.
Proof.
  intros E Hle. unfold replacer in *. case_decide; [exact E|].
  destruct (files fs !! _) as [content|]; [|exact E].
  destruct (process_includes fs fuel content _ _) as [[o s1]|] eqn:E1;
    [|discriminate].
  rewrite (process_includes_fuel fs fuel fuel' _ _ _ _ E1 Hle). exact E.
Qed.

Lemma sub_with_fuel fuel fuel' base_path pieces : forall st r,
  sub_with (replacer fs (process_includes fs fuel) base_path) pieces st
  = Some r ->
  (fuel <= fuel')%nat ->
  sub_with (replacer fs (process_includes fs fuel') base_path) pieces st
  = Some r.
Proof.
  induction pieces as [|[c|m] pieces IH]; intros st r Hr Hle;
    cbn [sub_with] in *.
  - exact Hr.
  - destruct (sub_with _ pieces st) as [[out st']|] eqn:E; [|discriminate].
    rewrite (IH _ _ E Hle). exact Hr.
  - destruct (replacer fs (process_includes fs fuel) base_path m st)
      as [[r1 st1]|] eqn:E1; [|discriminate].
    rewrite (replacer_fuel _ _ _ _ _ _ E1 Hle).
    destruct (sub_with _ pieces st1) as [[out st2]|] eqn:E2; [|discriminate].
    rewrite (IH _ _ E2 Hle). exact Hr.
Qed.

Lemma replacer_missing recur base_path m st :
  files fs !! target fs base_path m = None ->
  included_files st ⊆ dom (files fs) ->
  replacer fs recur base_path m st
  = Some ([], eprint (str "Include not found: " ++ target fs base_path m) st).
Proof.
  intros Hfile Hst. unfold replacer. fold (target fs base_path m).
  case_decide as Hin.
  - apply Hst, elem_of_dom in Hin. rewrite Hfile in Hin.
    destruct Hin as [? [=]].
  - rewrite Hfile. reflexivity.
Qed.

End StderrFacts.

(** C6: a directive of the text whose path names no file, met by a
    resolution that starts from a set holding only files that exist
    (as the empty set does), does not stop the resolution, which
    returns for every fuel from [enough_fuel] on.  What it returns is
    what the text before the directive gives followed by what the text
    after it gives: the empty string stands for the directive.  The
    text after it is resolved from the state the text before it left,
    with one line naming the path added to the error stream and nothing
    else changed.  And the result is the one of the scan with that
    directive left out (the same text, the same set and the same files
    read), but for that line on the error stream, between what was
    reported before the directive and what is reported after it. *)
Theorem missing_include_skipped (fs : filesystem) (shader_content : text)
    (base_path : path) (st : resolver)
    (before : list piece) (m : hit) (rest : list piece) :
  finditer include_pattern shader_content = before ++ Found m :: rest ->
  files fs !! target fs base_path m = None ->
  included_files st ⊆ dom (files fs) ->
  exists out st' out_before st_before out_after said_before said_after,
    (forall fuel, (enough_fuel fs <= fuel)%nat ->
       process_includes fs fuel shader_content base_path st = Some (out, st'))
    /\ out = out_before ++ [] ++ out_after
    /\ (forall fuel, (enough_fuel fs <= fuel)%nat ->
          sub_with (replacer fs (process_includes fs fuel) base_path)
                   before st
          = Some (out_before, st_before))
    /\ (forall fuel, (enough_fuel fs <= fuel)%nat ->
          sub_with (replacer fs (process_includes fs fuel) base_path) rest
                   (eprint (str "Include not found: "
                            ++ target fs base_path m) st_before)
          = Some (out_after, st'))
    /\ stderr st_before = stderr st ++ said_before
    /\ stderr st'
       = stderr st ++ said_before ++ not_found (target fs base_path m)
         ++ said_after
    /\ (forall fuel, (enough_fuel fs <= fuel)%nat ->
          sub_with (replacer fs (process_includes fs fuel) base_path)
                   (before ++ rest) st
          = Some (out, with_stderr (stderr st ++ said_before ++ said_after)
                                   st')).
Proof.
  intros Hscan Hfile Hst.
  destruct (resolution_returns fs shader_content base_path st)
    as (out & st' & Hret & _).
  pose proof (Hret (S (enough_fuel fs)) ltac:(lia)) as Hrun.
  cbn [process_includes] in Hrun. rewrite Hscan, sub_with_app in Hrun.
  set (repl := replacer fs (process_includes fs (enough_fuel fs)) base_path)
    in *.
  destruct (sub_with repl before st) as [[out1 st1]|] eqn:E1; [|discriminate].
  cbn [sub_with] in Hrun.
  assert (Hst1 : included_files st1 ⊆ dom (files fs)).
  { eapply sub_with_in_files; [|exact Hst|exact E1].
    intros m0 s r s' Hs. apply replacer_in_files; [|exact Hs].
    intros c b s0 o s0' Hs0. apply process_includes_in_files. exact Hs0. }
  unfold repl at 1 in Hrun.
  rewrite (replacer_missing fs _ _ _ _ Hfile Hst1) in Hrun.
  fold repl in Hrun.
  set (line := str "Include not found: " ++ target fs base_path m) in *.
  destruct (sub_with repl rest (eprint line st1)) as [[out2 st2]|] eqn:E2;
    [|discriminate].
  injection Hrun as <- <-.
  assert (Hframed : forall pieces, framed (sub_with repl pieces)).
  { intros pieces. apply sub_with_framed. intros m0.
    apply replacer_framed. intros c b. apply process_includes_framed. }
  destruct (Hframed before _ _ _ E1) as (said_before & Hs1 & _).
  destruct (Hframed rest _ _ _ E2) as (said_after & Hs2 & Hall2).
  exists (out1 ++ out2), st2, out1, st1, out2, said_before, said_after.
  split; [exact Hret|]. split; [reflexivity|].
  split; [intros fuel Hle;
          exact (sub_with_fuel fs _ fuel _ _ _ _ E1 Hle)|].
  split; [intros fuel Hle;
          exact (sub_with_fuel fs _ fuel _ _ _ _ E2 Hle)|].
  split; [exact Hs1|]. split.
  - rewrite Hs2. unfold eprint, line, not_found. cbn [stderr].
    rewrite Hs1, <- !app_assoc. reflexivity.
  - intros fuel Hle.
    apply (sub_with_fuel fs (enough_fuel fs) fuel); [|exact Hle].
    fold repl. rewrite sub_with_app, E1.
    specialize (Hall2 (stderr st1)).
    change (with_stderr (stderr st1) (eprint line st1))
      with (with_stderr (stderr st1) st1) in Hall2.
    rewrite with_stderr_same in Hall2. rewrite Hall2.
    rewrite Hs1, <- app_assoc. reflexivity.
Qed.

Lemma missing_include_skipped_witness :
  let fs := twice_fs in
  let before := [Keep 65; Keep LF] in
  let m := Hit (include_of "e.glsl") [(1%nat, str "e.glsl")] in
  let rest :=
    [Keep LF; Found (Hit (include_of "g.glsl") [(1%nat, str "g.glsl")])] in
  let st := Resolver ∅ [] [] in
  exists out st' out_before st_before out_after said_before said_after,
    (forall fuel, (enough_fuel fs <= fuel)%nat ->
       process_includes fs fuel missing_text [] st = Some (out, st'))
    /\ out = out_before ++ [] ++ out_after
    /\ (forall fuel, (enough_fuel fs <= fuel)%nat ->
          sub_with (replacer fs (process_includes fs fuel) []) before st
          = Some (out_before, st_before))
    /\ (forall fuel, (enough_fuel fs <= fuel)%nat ->
          sub_with (replacer fs (process_includes fs fuel) []) rest
                   (eprint (str "Include not found: " ++ target fs [] m)
                           st_before)
          = Some (out_after, st'))
    /\ stderr st_before = stderr st ++ said_before
    /\ stderr st'
       = stderr st ++ said_before ++ not_found (target fs [] m) ++ said_after
    /\ (forall fuel, (enough_fuel fs <= fuel)%nat ->
          sub_with (replacer fs (process_includes fs fuel) [])
                   (before ++ rest) st
          = Some (out, with_stderr (stderr st ++ said_before ++ said_after)
                                   st')).
Proof.
  apply (missing_include_skipped twice_fs missing_text [] (Resolver ∅ [] [])).
  - vm_compute. reflexivity.
  - reflexivity.
  - apply empty_subseteq.
Defined.

(** The match that the scan of a directive hands to [replacer]. *)
Example include_directive_found :
  finditer include_pattern (include_of "e.glsl")
  = [Found (Hit (include_of "e.glsl") [(1%nat, str "e.glsl")])].
Proof. vm_compute. reflexivity. Qed.

(** A line, a directive that names no file, then one that names
    [g.glsl]: the first directive leaves its line empty and a line on
    the error stream, the second is inlined. *)
Example missing_then_found :
  process_includes twice_fs (enough_fuel twice_fs) missing_text []
    (Resolver ∅ [] [])
  = Some (lines_of ["A"; ""; "G"; ""],
          Resolver {[ str "g.glsl" ]}
                   (str "Include not found: e.glsl" ++ [LF])
                   [str "g.glsl"]).
Proof. vm_compute. reflexivity. Qed.

(** ** The [re] engine *)

(** What [re.sub] returns is made of characters of the text and of
    characters of the replacements. *)
Lemma scan_chars (Q : char -> Prop) r repl :
  (forall h, Forall Q (repl h)) ->
  forall after skip before,
    Forall Q after ->
    Forall Q (flat_map (render repl) (scan r skip before after)).
Proof.
  intros Hrepl. induction after as [|c t IH]; intros skip before Hafter.
  - destruct skip as [|k]; [|constructor].
    cbn [scan].
    destruct (first_match false r _) as [s1|]; [|constructor].
    destruct (advanced _ s1).
    + cbn [flat_map render]. rewrite app_nil_r. apply Hrepl.
    + cbn [flat_map render]. apply List.Forall_app. split; [apply Hrepl|].
      destruct (first_match true r _) as [s2|]; [|constructor].
      cbn [flat_map render]. rewrite app_nil_r. apply Hrepl.
  - inversion Hafter as [|? ? Hc Ht]; subst.
    destruct skip as [|k]; [|cbn [scan]; apply IH, Ht].
    cbn [scan].
    assert (Hstep : Forall Q (flat_map (render repl)
                                 (Keep c :: scan r 0 (c :: before) t))).
    { cbn [flat_map render]. constructor; [exact Hc|]. apply IH, Ht. }
    destruct (first_match false r _) as [s1|]; [|exact Hstep].
    destruct (advanced _ s1).
    + cbn [flat_map render]. apply List.Forall_app. split; [apply Hrepl|].
      apply IH, Ht.
    + cbn [flat_map render]. apply List.Forall_app. split; [apply Hrepl|].
      destruct (first_match true r _) as [s2|]; [|exact Hstep].
      cbn [flat_map render]. apply List.Forall_app. split; [apply Hrepl|].
      apply IH, Ht.
Qed.

Lemma re_sub_chars (Q : char -> Prop) r repl t :
  (forall h, Forall Q (repl h)) -> Forall Q t -> Forall Q (re_sub r repl t).
Proof. intros Hrepl Ht. apply scan_chars; assumption. Qed.

(** ** Symbol normalisation keeps the lines *)

Lemma symbols_codes :
  symbols = [44; 46; 40; 41; 123; 125; 59; 58; 43; 45; 42; 47; 61; 60; 62;
             33; 63; 124; 38].
Proof. reflexivity. Qed.

Lemma split_nl_not_nil t : split_nl t <> [].
Proof.
  destruct t as [|c t]; [discriminate|]. cbn [split_nl].
  destruct (c =? LF); [discriminate|].
  destruct (split_nl t); discriminate.
Qed.

Lemma split_nl_no_LF t : Forall (fun l => ~ In LF l) (split_nl t).
Proof.
  induction t as [|c t IH]; cbn [split_nl].
  - constructor; [intros []|constructor].
  - destruct (c =? LF) eqn:Hc.
    + constructor; [intros []|exact IH].
    + destruct (split_nl t) as [|l ls].
      * constructor; [|constructor]. intros [->|[]]. discriminate Hc.
      * inversion IH; subst. constructor; [|assumption].
        intros [->|H]; [discriminate Hc|contradiction].
Qed.

Lemma join_nl_split_nl t : join_nl (split_nl t) = t.
Proof.
  induction t as [|c t IH]; [reflexivity|]. cbn [split_nl].
  destruct (c =? LF) eqn:Hc.
  - apply N.eqb_eq in Hc. subst c.
    pose proof (split_nl_not_nil t) as Hne.
    destruct (split_nl t) as [|l ls]; [congruence|].
    change (join_nl ([] :: l :: ls)) with ([] ++ LF :: join_nl (l :: ls)).
    rewrite IH. reflexivity.
  - pose proof (split_nl_not_nil t) as Hne.
    destruct (split_nl t) as [|l ls]; [congruence|].
    rewrite !join_nl_cons in *. rewrite <- IH. reflexivity.
Qed.

Lemma newlines_app t u : newlines (t ++ u) = (newlines t + newlines u)%nat.
Proof. apply count_occ_app. Qed.

Lemma newlines_none l : ~ In LF l -> newlines l = 0%nat.
Proof. intros H. apply count_occ_not_In, H. Qed.

Lemma newlines_opened ls :
  Forall (fun l => ~ In LF l) ls -> newlines (opened_lines ls) = length ls.
Proof.
  induction 1 as [|l ls Hl _ IH]; [reflexivity|].
  change (opened_lines (l :: ls)) with ([LF] ++ l ++ opened_lines ls).
  rewrite !newlines_app, IH, (newlines_none l Hl). reflexivity.
Qed.

(** The newlines of a text made of lines that hold none: one less than
    the lines. *)
Lemma newlines_join_nl ls :
  Forall (fun l => ~ In LF l) ls -> newlines (join_nl ls) = (length ls - 1)%nat.
Proof.
  intros H. destruct H as [|l ls Hl Hls]; [reflexivity|].
  rewrite join_nl_cons, newlines_app, (newlines_none l Hl).
  rewrite newlines_opened by exact Hls.
  simpl. lia.
Qed.

Lemma not_LF_Forall l : ~ In LF l <-> Forall (fun c => c <> LF) l.
Proof.
  rewrite List.Forall_forall. split.
  - intros H c Hin ->. exact (H Hin).
  - intros H Hin. exact (H LF Hin eq_refl).
Qed.

Lemma strip_around_no_LF l symbol :
  symbol <> LF -> ~ In LF l -> ~ In LF (strip_around l symbol).
Proof.
  intros Hs Hl. unfold strip_around. rewrite not_LF_Forall in *.
  apply re_sub_chars; [intros _; repeat constructor; exact Hs|].
  apply re_sub_chars; [intros _; repeat constructor; exact Hs|exact Hl].
Qed.

(** A line that holds no newline holds none once normalised. *)
Lemma normalize_line_no_LF l : ~ In LF l -> ~ In LF (normalize_line l).
Proof.
  intros Hl. unfold normalize_line.
  assert (Hspace : forall t, ~ In LF t ->
            ~ In LF (re_sub hspaces (fun _ => [SPACE]) t)).
  { intros t Ht. rewrite not_LF_Forall in *.
    apply re_sub_chars; [intros _; repeat constructor; discriminate|exact Ht]. }
  destruct (is_directive l).
  - apply Hspace. rewrite not_LF_Forall in *.
    apply re_sub_chars; [intros _; repeat constructor; discriminate|exact Hl].
  - apply Hspace.
    assert (Hsym : Forall (fun s => s <> LF) symbols)
      by (rewrite symbols_codes; repeat constructor; discriminate).
    revert l Hl. induction Hsym as [|s ss Hs _ IH]; intros l Hl; [exact Hl|].
    cbn [fold_left]. apply IH, strip_around_no_LF; assumption.
Qed.

(** C9: [normalize_spaces] returns as many newlines as it is given;
    its lines are the lines of its input, each normalised on its own. *)
Theorem normalize_keeps_lines (shader_content : text) :
  newlines (normalize_spaces shader_content) = newlines shader_content /\
  split_nl (normalize_spaces shader_content)
  = map normalize_line (split_nl shader_content) /\
  length (split_nl (normalize_spaces shader_content))
  = length (split_nl shader_content).
Proof.
  assert (Hlines : Forall (fun l => ~ In LF l)
                     (map normalize_line (split_nl shader_content))).
  { apply List.Forall_map.
    eapply List.Forall_impl; [|apply split_nl_no_LF].
    intros l. apply normalize_line_no_LF. }
  assert (Hsplit : split_nl (normalize_spaces shader_content)
                   = map normalize_line (split_nl shader_content)).
  { unfold normalize_spaces. apply split_nl_join_nl; [|exact Hlines].
    pose proof (split_nl_not_nil shader_content).
    destruct (split_nl shader_content); [congruence|discriminate]. }
  refine (conj _ (conj Hsplit _)).
  - unfold normalize_spaces. rewrite newlines_join_nl by exact Hlines.
    rewrite length_map.
    rewrite <- (join_nl_split_nl shader_content) at 2.
    rewrite newlines_join_nl by apply split_nl_no_LF. reflexivity.
  - rewrite Hsplit. apply length_map.
Qed.

(** ** Patterns as scans told where to replace *)

Lemma first_match_head r s : first_match false r s = head (matches r s).
Proof.
  unfold first_match. f_equal. cbn [negb orb].
  induction (matches r s) as [|x l IH]; [reflexivity|].
  cbn [List.filter]. rewrite IH. reflexivity.
Qed.

(** [re.sub] is the scan told where to replace, when [f] tells at each
    position how long the first match of [r] is and what [repl] makes of
    it. *)
Lemma scan_rewrite r repl f :
  (forall b a,
     option_map (fun s1 => ((length a - length (ahead s1))%nat,
                            repl (hit_of (MState b a []) s1)))
                (first_match false r (MState b a []))
     = option_map (fun no => (S (fst no), snd no)) (f b a)) ->
  forall a k b, flat_map (render repl) (scan r k b a) = rewrite f k b a.
Proof.
  intros Hf. induction a as [|c t IH]; intros k b.
  - destruct k as [|k]; [|reflexivity]. cbn [scan rewrite].
    specialize (Hf b []).
    destruct (first_match false r (MState b [] [])) as [s1|]; [|reflexivity].
    destruct (f b []) as [[n out]|]; [|discriminate].
    cbn in Hf. inversion Hf.
  - destruct k as [|k]; [|cbn [scan rewrite]; apply IH].
    cbn [scan rewrite]. specialize (Hf b (c :: t)).
    destruct (first_match false r (MState b (c :: t) [])) as [s1|].
    + destruct (f b (c :: t)) as [[n out]|]; [|discriminate].
      cbn [option_map fst snd] in Hf. inversion Hf as [[Hlen Hout]].
      unfold advanced, consumed. cbn [ahead length] in *.
      replace (length (ahead s1) <? S (length t))%nat with true
        by (symmetry; apply Nat.ltb_lt; lia).
      cbn [flat_map render]. rewrite Hout. f_equal.
      rewrite length_take. cbn [length].
      rewrite Nat.min_l, Hlen by lia. cbn [Nat.sub]. rewrite Nat.sub_0_r.
      apply IH.
    + destruct (f b (c :: t)) as [[n out]|]; [discriminate|].
      cbn [flat_map render app]. f_equal. apply IH.
Qed.

Lemma re_sub_rewrite r repl f t :
  (forall b a,
     option_map (fun s1 => ((length a - length (ahead s1))%nat,
                            repl (hit_of (MState b a []) s1)))
                (first_match false r (MState b a []))
     = option_map (fun no => (S (fst no), snd no)) (f b a)) ->
  re_sub r repl t = rewrite f 0 [] t.
Proof. intros Hf. apply scan_rewrite, Hf. Qed.

Lemma moved_0 s : moved 0 s = s.
Proof. destruct s. reflexivity. Qed.

Lemma moved_S n b c t g :
  moved (S n) (MState b (c :: t) g) = moved n (MState (c :: b) t g).
Proof.
  unfold moved. cbn [ahead behind groups take drop rev].
  rewrite <- app_assoc. reflexivity.
Qed.

Lemma span_le p a : (span p a <= length a)%nat.
Proof.
  induction a as [|c t IH]; [reflexivity|]. cbn [span length].
  destruct (p c); lia.
Qed.

Lemma moved_length n s :
  (n <= length (ahead s))%nat ->
  (length (ahead (moved n s)) + n)%nat = length (ahead s).
Proof.
  intros H. unfold moved. cbn [ahead]. rewrite length_drop. lia.
Qed.

(** A greedy repetition of a set, followed by [k]: [k] is tried first
    where the run of the set ends; when [k] fails wherever a character of
    the set comes next, that is the only place where it is tried with
    success. *)
Lemma greedy_run p (k : mstate -> list mstate) n : forall s,
  (length (ahead s) <= n)%nat ->
  exists tl,
    flat_map k (star_iter true (matches (Set_ p)) n s)
    = k (moved (span p (ahead s)) s) ++ tl
    /\ ((forall b c t g, p c = true -> k (MState b (c :: t) g) = []) ->
        tl = []).
Proof.
  set (body := matches (Set_ p)).
  assert (Hbody : forall b a g,
            body (MState b a g)
            = match a with
              | c :: t => if p c then [MState (c :: b) t g] else []
              | [] => []
              end) by reflexivity.
  induction n as [|n IH]; intros [b a g] Hlen; cbn [ahead] in *.
  - destruct a; [|simpl in Hlen; lia].
    exists []. cbn [star_iter flat_map span]. rewrite moved_0. split; reflexivity.
  - cbn [star_iter]. rewrite Hbody.
    destruct a as [|c t].
    + exists []. cbn [flat_map app span]. rewrite moved_0. split; reflexivity.
    + cbn [span]. destruct (p c) eqn:Hc.
      * cbn [flat_map]. unfold advanced. cbn [ahead length].
        replace (length t <? S (length t))%nat with true
          by (symmetry; apply Nat.ltb_lt; lia).
        rewrite app_nil_r, flat_map_app.
        destruct (IH (MState (c :: b) t g)) as (tl & Htl & Hfail);
          [cbn in *; lia|].
        rewrite Htl. cbn [ahead]. rewrite moved_S.
        exists (tl ++ flat_map k [MState b (c :: t) g]).
        split; [rewrite app_assoc; reflexivity|].
        intros Hk. rewrite (Hfail Hk). cbn [flat_map app].
        rewrite (Hk b c t g Hc). reflexivity.
      * exists []. cbn [flat_map app]. rewrite moved_0. split; reflexivity.
Qed.

(** A lazy repetition of a set, followed by [k]. *)
Lemma lazy_run p (k : mstate -> list mstate) n : forall b a g,
  (length a <= n)%nat ->
  flat_map k (star_iter false (matches (Set_ p)) n (MState b a g))
  = lazy_tries p k b a g.
Proof.
  set (body := matches (Set_ p)).
  assert (Hbody : forall b a g,
            body (MState b a g)
            = match a with
              | c :: t => if p c then [MState (c :: b) t g] else []
              | [] => []
              end) by reflexivity.
  induction n as [|n IH]; intros b a g Hlen.
  - destruct a; [|simpl in Hlen; lia].
    cbn [star_iter flat_map lazy_tries]. reflexivity.
  - cbn [star_iter flat_map]. rewrite Hbody.
    destruct a as [|c t]; cbn [lazy_tries].
    + reflexivity.
    + f_equal. destruct (p c) eqn:Hc; [|reflexivity].
      cbn [flat_map]. unfold advanced. cbn [ahead length].
      replace (length t <? S (length t))%nat with true
        by (symmetry; apply Nat.ltb_lt; lia).
      rewrite app_nil_r. apply IH. simpl in Hlen. lia.
Qed.

(** A literal matches where the text ahead begins with it. *)
Lemma matches_Lit w : forall b a g,
  matches (Lit w) (MState b a g)
  = match strip_prefix w a with
    | Some rest => [MState (rev w ++ b) rest g]
    | None => []
    end.
Proof.
  induction w as [|x w IH]; intros b a g; [reflexivity|].
  cbn [Lit matches strip_prefix]. unfold Chr. cbn [matches ahead behind groups].
  destruct a as [|c t]; [reflexivity|].
  destruct (x =? c) eqn:Hx; [|reflexivity].
  apply N.eqb_eq in Hx. subst c.
  cbn [flat_map]. rewrite app_nil_r, IH.
  destruct (strip_prefix w t); [|reflexivity].
  cbn [rev]. rewrite <- app_assoc. reflexivity.
Qed.

Lemma strip_prefix_length w : forall a rest,
  strip_prefix w a = Some rest -> (length rest + length w)%nat = length a.
Proof.
  induction w as [|x w IH]; intros a rest H; cbn [strip_prefix] in H.
  - inversion H. simpl. lia.
  - destruct a as [|c t]; [discriminate|].
    destruct (x =? c); [|discriminate].
    apply IH in H. simpl. lia.
Qed.

(** ** The comment stripper *)

(** Where a lazy run over any character first meets the literal [w]. *)
Lemma lazy_find w : forall b a g,
  match find w a with
  | Some i =>
      exists s1, head (lazy_tries any_char (matches (Lit w)) b a g) = Some s1
                 /\ (length (ahead s1) + i + length w)%nat = length a
  | None => head (lazy_tries any_char (matches (Lit w)) b a g) = None
  end.
Proof.
  intros b a. revert b. induction a as [|c t IH]; intros b g.
  - cbn [find lazy_tries]. rewrite matches_Lit.
    destruct (strip_prefix w []) as [rest|] eqn:E; [|reflexivity].
    eexists. split; [reflexivity|]. cbn [ahead].
    apply strip_prefix_length in E. simpl in *. lia.
  - cbn [find lazy_tries any_char]. rewrite matches_Lit.
    destruct (strip_prefix w (c :: t)) as [rest|] eqn:E.
    + eexists. split; [reflexivity|]. cbn [ahead].
      apply strip_prefix_length in E. lia.
    + cbn [app]. specialize (IH (c :: b) g).
      destruct (find w t) as [i|]; cbn [option_map]; [|exact IH].
      destruct IH as (s1 & Hs1 & Hlen). exists s1.
      split; [exact Hs1|]. simpl. lia.
Qed.

Lemma head_flat_map_one {A B} (f : A -> list B) (x : A) :
  flat_map f [x] = f x.
Proof. cbn [flat_map]. apply app_nil_r. Qed.

Lemma matches_Cat r1 r2 s :
  matches (Cat r1 r2) s = flat_map (matches r2) (matches r1 s).
Proof. reflexivity. Qed.

Lemma matches_lazy_then p r2 b a g :
  matches (Cat (Star false (Set_ p)) r2) (MState b a g)
  = lazy_tries p (matches r2) b a g.
Proof.
  change (matches (Cat (Star false (Set_ p)) r2) (MState b a g))
    with (flat_map (matches r2)
            (star_iter false (matches (Set_ p)) (length a) (MState b a g))).
  apply lazy_run. reflexivity.
Qed.

(** The first match of the block comment pattern. *)
Lemma block_comment_first b a :
  option_map (fun s1 => ((length a - length (ahead s1))%nat, @nil char))
             (first_match false block_comment (MState b a []))
  = option_map (fun no => (S (fst no), snd no)) (block_at b a).
Proof.
  rewrite first_match_head. unfold block_comment, block_at.
  rewrite matches_Cat, matches_Lit.
  destruct (strip_prefix (str "/*") a) as [rest|] eqn:E; [|reflexivity].
  rewrite head_flat_map_one, matches_lazy_then.
  pose proof (lazy_find (str "*/") (rev (str "/*") ++ b) rest []) as H.
  apply strip_prefix_length in E.
  destruct (find (str "*/") rest) as [i|].
  - destruct H as (s1 & -> & Hlen). cbn [option_map fst snd].
    f_equal. f_equal. change (length (str "*/")) with 2%nat in Hlen.
    change (length (str "/*")) with 2%nat in E. lia.
  - rewrite H. reflexivity.
Qed.

(** What follows the body of a line comment: a newline or the end. *)
Lemma line_end_here b a g :
  matches (Ahead true (Alt (Chr LF) Eos)) (MState b a g)
  = match a with
    | [] => [MState b a g]
    | c :: _ => if c =? LF then [MState b a g] else []
    end.
Proof.
  cbn [matches]. unfold Chr. cbn [matches ahead at_eos].
  destruct a as [|c t]; [reflexivity|].
  rewrite (N.eqb_sym LF c).
  destruct (c =? LF) eqn:Hc; [reflexivity|].
  destruct t; unfold at_eos; cbn [ahead app]; rewrite ?Hc; reflexivity.
Qed.

Lemma lazy_line_end : forall a b g,
  exists s1,
    head (lazy_tries not_newline (matches (Ahead true (Alt (Chr LF) Eos)))
            b a g) = Some s1
    /\ (length (ahead s1) + span not_newline a)%nat = length a.
Proof.
  induction a as [|c t IH]; intros b g; cbn [lazy_tries];
    rewrite line_end_here.
  - eexists. split; reflexivity.
  - cbn [span]. unfold not_newline at 1 3.
    destruct (c =? LF); cbn [negb].
    + eexists. split; [reflexivity|]. cbn [ahead]. lia.
    + cbn [app]. destruct (IH (c :: b) g) as (s1 & Hs1 & Hlen).
      exists s1. split; [exact Hs1|]. simpl. lia.
Qed.

(** The first match of the line comment pattern. *)
Lemma line_comment_first b a :
  option_map (fun s1 => ((length a - length (ahead s1))%nat, @nil char))
             (first_match false line_comment (MState b a []))
  = option_map (fun no => (S (fst no), snd no)) (line_at b a).
Proof.
  rewrite first_match_head. unfold line_comment, line_at.
  rewrite matches_Cat, matches_Lit.
  destruct (strip_prefix (str "//") a) as [rest|] eqn:E; [|reflexivity].
  rewrite head_flat_map_one, matches_lazy_then.
  destruct (lazy_line_end rest (rev (str "//") ++ b) []) as (s1 & -> & Hlen).
  apply strip_prefix_length in E. cbn [option_map fst snd].
  f_equal. f_equal. change (length (str "//")) with 2%nat in E. lia.
Qed.

Example block_then_line_comment :
  remove_comments (str "a/*b//c*/d") = str "ad".
Proof. vm_compute. reflexivity. Qed.

Example first_closing_wins :
  remove_comments (str "a/*x*/b*/c") = str "ab*/c".
Proof. vm_compute. reflexivity. Qed.

Example block_comment_across_lines :
  remove_comments (lines_of ["x//y/*"; "z*/w"]) = str "x".
Proof. vm_compute. reflexivity. Qed.

Example line_comment_to_newline :
  remove_comments (lines_of ["a // c"; "b"]) = lines_of ["a "; "b"].
Proof. vm_compute. reflexivity. Qed.

(** C8: [remove_comments] first removes the block comments, each from a
    [/*] through the first [*/] after it, whatever lies between, and
    then removes from the result the line comments, each from a [//] up
    to the first newline or to the end of the text. *)
Theorem comments_removed_in_order (shader_content : text) :
  remove_comments shader_content
  = strip_line_comments (strip_block_comments shader_content).
Proof.
  unfold remove_comments, strip_line_comments, strip_block_comments.
  rewrite (re_sub_rewrite block_comment _ block_at)
    by (intros b a; apply block_comment_first).
  apply re_sub_rewrite. intros b a. apply line_comment_first.
Qed.

(** ** The substitutions of the normaliser *)

Lemma flat_map_unit {A} (l : list A) : flat_map (fun x => [x]) l = l.
Proof. induction l as [|x l IH]; [reflexivity|]. cbn [flat_map app]. congruence. Qed.

Lemma span_S_moved p n b a g :
  span p a = S n ->
  exists c t, a = c :: t /\ p c = true /\ span p t = n
              /\ moved (S n) (MState b a g) = moved n (MState (c :: b) t g).
Proof.
  destruct a as [|c t]; cbn [span]; [discriminate|].
  destruct (p c) eqn:Hc; [|discriminate]. intros [= Hn].
  exists c, t. rewrite moved_S. auto.
Qed.

(** One or more of a set, greedy, followed by [k]. *)
Lemma plus_run p (k : mstate -> list mstate) b a g :
  match span p a with
  | O => flat_map k (matches (Plus true (Set_ p)) (MState b a g)) = []
  | S n =>
      exists tl,
        flat_map k (matches (Plus true (Set_ p)) (MState b a g))
        = k (moved (S n) (MState b a g)) ++ tl
        /\ ((forall b c t g, p c = true -> k (MState b (c :: t) g) = []) ->
            tl = [])
  end.
Proof.
  unfold Plus. rewrite matches_Cat.
  destruct (span p a) as [|n] eqn:Hspan.
  - destruct a as [|c t]; [reflexivity|].
    cbn [span] in Hspan. cbn [matches ahead].
    destruct (p c); [discriminate|reflexivity].
  - destruct (span_S_moved p n b a g Hspan) as (c & t & -> & Hc & Hn & Hmoved).
    change (matches (Set_ p) (MState b (c :: t) g))
      with (if p c then [MState (c :: b) t g] else []).
    rewrite Hc, head_flat_map_one.
    change (matches (Star true (Set_ p)) (MState (c :: b) t g))
      with (star_iter true (matches (Set_ p)) (length t) (MState (c :: b) t g)).
    destruct (greedy_run p k (length t) (MState (c :: b) t g))
      as (tl & Htl & Hfail); [reflexivity|].
    exists tl. cbn [ahead] in Htl. rewrite Hn in Htl.
    rewrite Hmoved. split; assumption.
Qed.

Lemma ahead_moved n s : ahead (moved n s) = drop n (ahead s).
Proof. reflexivity. Qed.

(** The first match of [[ \t]+]. *)
Lemma hspaces_first b a :
  option_map (fun s1 => ((length a - length (ahead s1))%nat, [SPACE]))
             (first_match false hspaces (MState b a []))
  = option_map (fun no => (S (fst no), snd no)) (collapse_at b a).
Proof.
  rewrite first_match_head. unfold hspaces, collapse_at.
  rewrite <- (flat_map_unit (matches _ _)).
  pose proof (plus_run hspace (fun x => [x]) b a []) as H.
  pose proof (span_le hspace a) as Hle.
  destruct (span hspace a) as [|n].
  - rewrite H. reflexivity.
  - destruct H as (tl & -> & _). cbn [head app option_map fst snd].
    rewrite ahead_moved. cbn [ahead]. rewrite length_drop.
    f_equal. f_equal. lia.
Qed.

Lemma Chr_here sym b a g :
  matches (Chr sym) (MState b a g)
  = match a with
    | d :: t => if sym =? d then [MState (d :: b) t g] else []
    | [] => []
    end.
Proof. reflexivity. Qed.

Lemma Chr_fails_on_blank sym :
  hspace sym = false ->
  forall b c t g, hspace c = true -> matches (Chr sym) (MState b (c :: t) g) = [].
Proof.
  intros Hs b c t g Hc. rewrite Chr_here.
  destruct (sym =? c) eqn:E; [|reflexivity].
  apply N.eqb_eq in E. congruence.
Qed.

(** The first match of [[ \t]+] followed by the symbol. *)
Lemma spaces_before_first sym b a :
  hspace sym = false ->
  option_map (fun s1 => ((length a - length (ahead s1))%nat, [sym]))
             (first_match false (spaces_before sym) (MState b a []))
  = option_map (fun no => (S (fst no), snd no)) (before_at sym b a).
Proof.
  intros Hs. rewrite first_match_head. unfold spaces_before, before_at, hspaces.
  rewrite matches_Cat.
  pose proof (plus_run hspace (matches (Chr sym)) b a []) as H.
  pose proof (span_le hspace a) as Hle.
  destruct (span hspace a) as [|n].
  - rewrite H. reflexivity.
  - destruct H as (tl & -> & Htl).
    rewrite (Htl (Chr_fails_on_blank sym Hs)), app_nil_r.
    unfold moved. cbn [ahead behind groups]. rewrite Chr_here.
    pose proof (length_drop a (S n)) as Hd.
    destruct (drop (S n) a) as [|d t]; [reflexivity|].
    destruct (sym =? d); [|reflexivity].
    cbn [head option_map fst snd ahead]. cbn [length] in Hd.
    f_equal. f_equal. lia.
Qed.

(** The first match of the symbol followed by [[ \t]+]. *)
Lemma spaces_after_first sym b a :
  option_map (fun s1 => ((length a - length (ahead s1))%nat, [sym]))
             (first_match false (spaces_after sym) (MState b a []))
  = option_map (fun no => (S (fst no), snd no)) (after_at sym b a).
Proof.
  rewrite first_match_head. unfold spaces_after, after_at, hspaces.
  rewrite matches_Cat, Chr_here.
  destruct a as [|c t]; [reflexivity|].
  destruct (sym =? c); [|reflexivity].
  rewrite head_flat_map_one.
  rewrite <- (flat_map_unit (matches _ _)).
  pose proof (plus_run hspace (fun x => [x]) (c :: b) t []) as H.
  pose proof (span_le hspace t) as Hle.
  destruct (span hspace t) as [|n].
  - rewrite H. reflexivity.
  - destruct H as (tl & -> & _). cbn [head app option_map fst snd].
    rewrite ahead_moved. cbn [ahead]. rewrite length_drop. cbn [length].
    f_equal. f_equal. lia.
Qed.

(** The first match of [^\s*#]. *)
Lemma leading_hash_first b a :
  option_map (fun s1 => ((length a - length (ahead s1))%nat, [HASH]))
             (first_match false leading_hash (MState b a []))
  = option_map (fun no => (S (fst no), snd no)) (hash_at b a).
Proof.
  rewrite first_match_head. unfold leading_hash, hash_at.
  rewrite matches_Cat.
  change (matches (Bol false) (MState b a []))
    with (if at_bol false (MState b a []) then [MState b a []] else []).
  unfold at_bol. cbn [behind].
  destruct b as [|x b']; [|reflexivity].
  rewrite head_flat_map_one.
  change (matches (Cat (Star true (Set_ isspace)) (Chr HASH)) (MState [] a []))
    with (flat_map (matches (Chr HASH))
            (star_iter true (matches (Set_ isspace)) (length a)
               (MState [] a []))).
  destruct (greedy_run isspace (matches (Chr HASH)) (length a) (MState [] a []))
    as (tl & -> & Htl); [reflexivity|].
  rewrite Htl, app_nil_r.
  - cbn [ahead]. unfold moved. cbn [ahead behind groups]. rewrite Chr_here.
    pose proof (length_drop a (span isspace a)) as Hd.
    pose proof (span_le isspace a) as Hle.
    destruct (drop (span isspace a) a) as [|d t]; [reflexivity|].
    destruct (HASH =? d); [|reflexivity].
    cbn [head option_map fst snd ahead]. cbn [length] in Hd.
    f_equal. f_equal. lia.
  - intros b c t g Hc. rewrite Chr_here.
    destruct (HASH =? c) eqn:E; [|reflexivity].
    apply N.eqb_eq in E. subst c. discriminate Hc.
Qed.

(** ** Lines as blanks and the characters between them *)

Lemma words_enc t : words (fst (enc t)) (snd (enc t)) = t.
Proof.
  induction t as [|c t IH]; [reflexivity|]. cbn [enc].
  destruct (enc t) as [x last]. cbn [fst snd] in IH.
  destruct (hspace c).
  - destruct x as [|[r d] x']; cbn [fst snd words app] in *;
      f_equal; exact IH.
  - cbn [fst snd words app]. f_equal. exact IH.
Qed.

Lemma spaced_enc t : spaced (fst (enc t)) (snd (enc t)).
Proof.
  induction t as [|c t IH]; [split; constructor|]. cbn [enc].
  destruct (enc t) as [x last]. cbn [fst snd] in IH.
  destruct IH as [Hx Hlast].
  destruct (hspace c) eqn:Hc.
  - destruct x as [|[r d] x']; cbn [fst snd].
    + split; [constructor|]. constructor; assumption.
    + inversion Hx as [|? ? [Hr Hd] Hx']; subst. cbn [fst snd] in *.
      split; [|exact Hlast]. constructor; [|exact Hx'].
      split; [constructor; assumption|exact Hd].
  - cbn [fst snd]. split; [|exact Hlast].
    constructor; [|exact Hx]. split; [constructor|exact Hc].
Qed.

Lemma rewrite_skip f pre : forall b a,
  rewrite f (length pre) b (pre ++ a) = rewrite f 0 (rev pre ++ b) a.
Proof.
  induction pre as [|c pre IH]; intros b a.
  - destruct a; reflexivity.
  - cbn [length app rewrite rev]. rewrite IH, <- app_assoc. reflexivity.
Qed.

Lemma span_blanks r rest :
  blanks r -> stops rest -> span hspace (r ++ rest) = length r.
Proof.
  induction 1 as [|h r Hh _ IH]; intros Hrest.
  - destruct rest as [|d rest']; [reflexivity|].
    cbn [app span]. cbn in Hrest. rewrite Hrest. reflexivity.
  - cbn [app span length]. rewrite Hh, IH by exact Hrest. reflexivity.
Qed.


(** A scan whose oracle does not look behind gives the same text
    whatever lies behind. *)
Lemma rewrite_before f :
  (forall b b' a, f b a = f b' a) ->
  forall a k b b', rewrite f k b a = rewrite f k b' a.
Proof.
  intros Hf. induction a as [|c t IH]; intros k b b'; [reflexivity|].
  cbn [rewrite]. destruct k as [|k]; [|apply IH].
  rewrite (Hf b b'). destruct (f b' (c :: t)) as [[n out]|].
  - f_equal. apply IH.
  - f_equal. apply IH.
Qed.

Lemma collapse_at_before b b' a : collapse_at b a = collapse_at b' a.
Proof. reflexivity. Qed.

Lemma before_at_before sym b b' a : before_at sym b a = before_at sym b' a.
Proof. reflexivity. Qed.

Lemma after_at_before sym b b' a : after_at sym b a = after_at sym b' a.
Proof. reflexivity. Qed.

Lemma apply_runs_nil F prev last : apply_runs F prev [] last = F prev last None.
Proof. reflexivity. Qed.

Lemma apply_runs_cons F prev r c x last :
  apply_runs F prev ((r, c) :: x) last
  = F prev r (Some c) ++ c :: apply_runs F (Some c) x last.
Proof. reflexivity. Qed.

Lemma blanks_cons_span h r rest :
  blanks (h :: r) -> stops rest ->
  span hspace (h :: r ++ rest) = S (length r).
Proof. intros Hr Hrest. apply (span_blanks (h :: r) rest Hr Hrest). Qed.

(** *** One space for a run *)

Lemma collapse_run r rest b :
  blanks r -> stops rest ->
  rewrite collapse_at 0 b (r ++ rest)
  = F_collapse None r None ++ rewrite collapse_at 0 [] rest.
Proof.
  intros Hr Hrest. destruct r as [|h r'].
  - cbn [app F_collapse]. apply rewrite_before, collapse_at_before.
  - cbn [app rewrite F_collapse]. unfold collapse_at at 1.
    rewrite (blanks_cons_span h r' rest Hr Hrest).
    rewrite rewrite_skip. f_equal.
    apply rewrite_before, collapse_at_before.
Qed.

Lemma collapse_char c rest b :
  hspace c = false ->
  rewrite collapse_at 0 b (c :: rest) = c :: rewrite collapse_at 0 [] rest.
Proof.
  intros Hc. cbn [rewrite]. unfold collapse_at at 1. cbn [span].
  rewrite Hc. f_equal. apply rewrite_before, collapse_at_before.
Qed.

Lemma collapse_words x last :
  spaced x last ->
  forall b prev,
    rewrite collapse_at 0 b (words x last) = apply_runs F_collapse prev x last.
Proof.
  intros [Hx Hlast]. induction Hx as [|[r c] x' [Hr Hc] _ IH]; intros b prev.
  - cbn [words]. rewrite apply_runs_nil.
    rewrite <- (app_nil_r last) at 1.
    rewrite collapse_run by (assumption || exact I).
    cbn [rewrite]. rewrite app_nil_r. reflexivity.
  - cbn [words fst snd] in *. rewrite apply_runs_cons.
    rewrite collapse_run by (assumption || exact Hc).
    rewrite collapse_char by exact Hc.
    rewrite (IH [] (Some c)). reflexivity.
Qed.

(** *** The blanks before a symbol *)

Section Symbol.

Variable sym : char.
Hypothesis sym_not_blank : hspace sym = false.

Lemma before_kept r : forall c rest b,
  blanks r -> hspace c = false -> (sym =? c) = false ->
  rewrite (before_at sym) 0 b (r ++ c :: rest)
  = r ++ c :: rewrite (before_at sym) 0 [] rest.
Proof.
  induction r as [|h r' IH]; intros c rest b Hr Hc Hne.
  - cbn [app rewrite]. unfold before_at at 1. cbn [span]. rewrite Hc.
    f_equal. apply rewrite_before, before_at_before.
  - inversion Hr as [|? ? Hh Hr']; subst.
    cbn [app rewrite]. unfold before_at at 1.
    rewrite (blanks_cons_span h r' (c :: rest) Hr Hc).
    change (drop (S (length r')) (h :: r' ++ c :: rest))
      with (drop (length r') (r' ++ c :: rest)).
    rewrite drop_app_length, Hne. f_equal. apply IH; assumption.
Qed.

Lemma before_gone r c rest b :
  blanks r -> hspace c = false -> (sym =? c) = true ->
  rewrite (before_at sym) 0 b (r ++ c :: rest)
  = c :: rewrite (before_at sym) 0 [] rest.
Proof.
  intros Hr Hc He. destruct r as [|h r'].
  - cbn [app rewrite]. unfold before_at at 1. cbn [span]. rewrite Hc.
    f_equal. apply rewrite_before, before_at_before.
  - cbn [app rewrite]. unfold before_at at 1.
    rewrite (blanks_cons_span h r' (c :: rest) Hr Hc).
    change (drop (S (length r')) (h :: r' ++ c :: rest))
      with (drop (length r') (r' ++ c :: rest)).
    rewrite drop_app_length, He. apply N.eqb_eq in He. subst c.
    cbn [app]. f_equal.
    replace (r' ++ sym :: rest) with ((r' ++ [sym]) ++ rest)
      by (rewrite <- app_assoc; reflexivity).
    replace (S (length r')) with (length (r' ++ [sym]))
      by (rewrite length_app; simpl; lia).
    rewrite rewrite_skip. apply rewrite_before, before_at_before.
Qed.

Lemma before_last last : forall b,
  blanks last -> rewrite (before_at sym) 0 b last = last.
Proof.
  induction last as [|h r' IH]; intros b Hr; [reflexivity|].
  inversion Hr as [|? ? Hh Hr']; subst.
  assert (Hs : span hspace (h :: r') = S (length r')).
  { pose proof (span_blanks (h :: r') [] Hr I) as H.
    rewrite app_nil_r in H. exact H. }
  cbn [rewrite]. unfold before_at at 1. rewrite Hs.
  change (drop (S (length r')) (h :: r')) with (drop (length r') r').
  rewrite drop_all. f_equal. apply IH, Hr'.
Qed.

Lemma before_words x last :
  spaced x last ->
  forall b prev,
    rewrite (before_at sym) 0 b (words x last)
    = apply_runs (F_before sym) prev x last.
Proof.
  intros [Hx Hlast]. induction Hx as [|[r c] x' [Hr Hc] _ IH]; intros b prev.
  - cbn [words]. rewrite apply_runs_nil. apply before_last, Hlast.
  - cbn [words fst snd] in *. rewrite apply_runs_cons.
    unfold F_before at 1. cbn [is_char].
    destruct (sym =? c) eqn:He.
    + rewrite before_gone by assumption. rewrite (IH [] (Some c)). reflexivity.
    + rewrite before_kept by assumption. rewrite (IH [] (Some c)). reflexivity.
Qed.

(** *** The blanks after a symbol *)

Lemma sym_not_a_blank h : hspace h = true -> (sym =? h) = false.
Proof.
  intros Hh. destruct (sym =? h) eqn:E; [|reflexivity].
  apply N.eqb_eq in E. congruence.
Qed.

Lemma after_blanks r : forall rest b,
  blanks r ->
  rewrite (after_at sym) 0 b (r ++ rest)
  = r ++ rewrite (after_at sym) 0 [] rest.
Proof.
  induction r as [|h r' IH]; intros rest b Hr.
  - cbn [app]. apply rewrite_before, after_at_before.
  - inversion Hr as [|? ? Hh Hr']; subst.
    cbn [app rewrite]. unfold after_at at 1.
    rewrite (sym_not_a_blank h Hh). f_equal. apply IH, Hr'.
Qed.

Lemma after_char c r rest b :
  blanks r -> stops rest ->
  rewrite (after_at sym) 0 b (c :: r ++ rest)
  = c :: F_after sym (Some c) r None ++ rewrite (after_at sym) 0 [] rest.
Proof.
  intros Hr Hrest. cbn [rewrite]. unfold after_at at 1, F_after.
  cbn [is_char]. destruct (sym =? c) eqn:He.
  - rewrite (span_blanks r rest Hr Hrest).
    destruct r as [|h r'].
    + cbn [length app]. f_equal. apply rewrite_before, after_at_before.
    + cbn [length]. apply N.eqb_eq in He. subst c. cbn [app]. f_equal.
      change (h :: r' ++ rest) with ((h :: r') ++ rest).
      change (S (length r')) with (length (h :: r')).
      rewrite rewrite_skip. apply rewrite_before, after_at_before.
  - f_equal. apply after_blanks, Hr.
Qed.

Lemma after_words_from x last :
  spaced x last ->
  forall b c, hspace c = false ->
    rewrite (after_at sym) 0 b (c :: words x last)
    = c :: apply_runs (F_after sym) (Some c) x last.
Proof.
  intros [Hx Hlast]. induction Hx as [|[r d] x' [Hr Hd] _ IH]; intros b c Hc.
  - cbn [words]. rewrite apply_runs_nil.
    rewrite <- (app_nil_r last) at 1.
    rewrite after_char by (assumption || exact I).
    cbn [rewrite]. rewrite app_nil_r. reflexivity.
  - cbn [words fst snd] in *. rewrite apply_runs_cons.
    rewrite after_char by (assumption || exact Hd).
    rewrite (IH [] d Hd). reflexivity.
Qed.

Lemma after_words x last :
  spaced x last ->
  forall b,
    rewrite (after_at sym) 0 b (words x last)
    = apply_runs (F_after sym) None x last.
Proof.
  intros Hs b. pose proof Hs as [Hx Hlast].
  destruct x as [|[r c] x'].
  - cbn [words]. rewrite apply_runs_nil.
    rewrite <- (app_nil_r last) at 1. rewrite after_blanks by exact Hlast.
    cbn [rewrite]. rewrite app_nil_r. reflexivity.
  - inversion Hx as [|? ? [Hr Hc] Hx']; subst. cbn [words fst snd] in *.
    rewrite apply_runs_cons, after_blanks by exact Hr.
    rewrite after_words_from by first [exact Hc | split; assumption].
    reflexivity.
Qed.

End Symbol.

(** ** Rewriting run by run *)

Lemma last_char_map_runs F x : forall prev,
  last_char prev (map_runs F prev x) = last_char prev x.
Proof.
  induction x as [|[r c] x IH]; intros prev; [reflexivity|].
  cbn [map_runs last_char]. apply IH.
Qed.

Lemma map_runs_compose F G x : forall prev,
  map_runs G prev (map_runs F prev x) = map_runs (and_then F G) prev x.
Proof.
  induction x as [|[r c] x IH]; intros prev; [reflexivity|].
  cbn [map_runs]. rewrite IH. reflexivity.
Qed.

Lemma map_runs_ext F G x : forall prev,
  (forall p r n, F p r n = G p r n) -> map_runs F prev x = map_runs G prev x.
Proof.
  induction x as [|[r c] x IH]; intros prev H; [reflexivity|].
  cbn [map_runs]. rewrite H, (IH _ H). reflexivity.
Qed.

Lemma apply_runs_ext F G prev x last :
  (forall p r n, F p r n = G p r n) ->
  apply_runs F prev x last = apply_runs G prev x last.
Proof.
  intros H. unfold apply_runs. rewrite (map_runs_ext F G x prev H), H.
  reflexivity.
Qed.

Lemma spaced_map_runs F x last : forall prev,
  sound F -> spaced x last ->
  spaced (map_runs F prev x) (F (last_char prev x) last None).
Proof.
  intros prev HF [Hx Hlast]. split; [|apply HF, Hlast].
  clear Hlast. revert prev.
  induction Hx as [|[r c] x [Hr Hc] _ IH]; intros prev; [constructor|].
  cbn [map_runs]. constructor; [|apply IH].
  cbn [fst snd] in *. split; [apply HF, Hr|exact Hc].
Qed.

Lemma runwise_ext op F G :
  (forall p r n, F p r n = G p r n) -> runwise op F -> runwise op G.
Proof.
  intros H Hop x last Hs. rewrite (Hop x last Hs). apply apply_runs_ext, H.
Qed.

(** Two rewritings run by run, one after the other, are one. *)
Lemma runwise_compose op1 op2 F G :
  runwise op1 F -> sound F -> runwise op2 G ->
  runwise (fun l => op2 (op1 l)) (and_then F G).
Proof.
  intros H1 HF H2 x last Hs. rewrite (H1 x last Hs). unfold apply_runs at 1.
  rewrite (H2 _ _ (spaced_map_runs F x last None HF Hs)).
  unfold apply_runs. rewrite map_runs_compose, last_char_map_runs.
  reflexivity.
Qed.

Lemma sound_and_then F G : sound F -> sound G -> sound (and_then F G).
Proof. intros HF HG p r n Hr. apply HG, HF, Hr. Qed.

Lemma sound_collapse : sound F_collapse.
Proof.
  intros p r n _. destruct r; [constructor|]. repeat constructor.
Qed.

Lemma sound_before s : sound (F_before s).
Proof. intros p r n Hr. unfold F_before. destruct (is_char s n); [constructor|exact Hr]. Qed.

Lemma sound_after s : sound (F_after s).
Proof. intros p r n Hr. unfold F_after. destruct (is_char s p); [constructor|exact Hr]. Qed.

Lemma sound_symbols syms : sound (F_symbols syms).
Proof.
  intros p r n Hr. unfold F_symbols.
  destruct (existsb _ syms); [constructor|exact Hr].
Qed.

Lemma runwise_collapse : runwise (re_sub hspaces (fun _ => [SPACE])) F_collapse.
Proof.
  intros x last Hs.
  rewrite (re_sub_rewrite hspaces _ collapse_at)
    by (intros b a; apply hspaces_first).
  apply collapse_words, Hs.
Qed.

Lemma runwise_before s :
  hspace s = false ->
  runwise (re_sub (spaces_before s) (fun _ => [s])) (F_before s).
Proof.
  intros Hsym x last Hs.
  rewrite (re_sub_rewrite (spaces_before s) _ (before_at s))
    by (intros b a; apply spaces_before_first, Hsym).
  apply before_words; assumption.
Qed.

Lemma runwise_after s :
  hspace s = false ->
  runwise (re_sub (spaces_after s) (fun _ => [s])) (F_after s).
Proof.
  intros Hsym x last Hs.
  rewrite (re_sub_rewrite (spaces_after s) _ (after_at s))
    by (intros b a; apply spaces_after_first).
  apply after_words; assumption.
Qed.

(** The loop over the symbols removes the runs next to one of them. *)
Lemma runwise_symbols syms :
  Forall (fun s => hspace s = false) syms ->
  forall op F, runwise op F -> sound F ->
    runwise (fun l => fold_left strip_around syms (op l))
            (and_then F (F_symbols syms)).
Proof.
  induction 1 as [|s ss Hs _ IH]; intros op F Hop HF.
  - cbn [fold_left]. eapply runwise_ext; [|exact Hop]. reflexivity.
  - cbn [fold_left].
    assert (Hstep : runwise (fun l => strip_around (op l) s)
                      (and_then (and_then F (F_before s)) (F_after s))).
    { unfold strip_around.
      apply (runwise_compose (fun l => re_sub (spaces_before s) _ (op l))
               (re_sub (spaces_after s) (fun _ => [s]))).
      - apply (runwise_compose op (re_sub (spaces_before s) (fun _ => [s])));
          [exact Hop|exact HF|apply runwise_before, Hs].
      - apply sound_and_then; [exact HF|apply sound_before].
      - apply runwise_after, Hs. }
    eapply runwise_ext; [|apply (IH _ _ Hstep)].
    + intros p r n. unfold and_then, F_symbols, F_after, F_before.
      cbn [existsb].
      destruct (is_char s n), (is_char s p), (existsb _ ss); reflexivity.
    + apply sound_and_then;
        [apply sound_and_then; [exact HF|apply sound_before]
        |apply sound_after].
Qed.

Lemma symbols_not_blank : Forall (fun s => hspace s = false) symbols.
Proof. rewrite symbols_codes. repeat constructor. Qed.

(** A line that is not a directive has the runs next to a symbol
    removed and the others made one space. *)
Lemma runwise_code : runwise normalize_code F_line.
Proof.
  unfold normalize_code.
  eapply runwise_ext;
    [|apply (runwise_compose (fold_left strip_around symbols)
               (re_sub hspaces (fun _ => [SPACE])) (F_symbols symbols)
               F_collapse)].
  - reflexivity.
  - eapply runwise_ext;
      [|apply (runwise_symbols symbols symbols_not_blank (fun l => l)
                 (fun _ r _ => r))].
    + reflexivity.
    + intros x last Hs. unfold apply_runs.
      assert (Hid : forall x prev, map_runs (fun _ r _ => r) prev x = x).
      { clear. induction x as [|[r c] x IH]; intros prev; [reflexivity|].
        cbn [map_runs]. rewrite IH. reflexivity. }
      rewrite Hid. reflexivity.
    + intros p r n Hr. exact Hr.
  - apply sound_symbols.
  - apply runwise_collapse.
Qed.

Lemma F_line_idem p r n : and_then F_line F_line p r n = F_line p r n.
Proof.
  unfold and_then, F_line, F_symbols, F_collapse.
  destruct (existsb _ symbols); [reflexivity|].
  destruct r; reflexivity.
Qed.

Lemma sound_line : sound F_line.
Proof.
  intros p r n Hr. unfold F_line. apply sound_collapse, sound_symbols, Hr.
Qed.

(** Normalising a line of code twice is normalising it once. *)
Lemma normalize_code_idem l : normalize_code (normalize_code l) = normalize_code l.
Proof.
  rewrite <- (words_enc l).
  pose proof (spaced_enc l) as Hs.
  rewrite (runwise_compose normalize_code normalize_code F_line F_line
             runwise_code sound_line runwise_code _ _ Hs).
  rewrite (runwise_code _ _ Hs). apply apply_runs_ext, F_line_idem.
Qed.

(** ** What normalising a line keeps *)

Lemma hspace_isspace c : hspace c = true -> isspace c = true.
Proof.
  unfold hspace. intros H. apply orb_true_iff in H as [H|H];
    apply N.eqb_eq in H; subst c; reflexivity.
Qed.

Lemma lstrip_blanks r rest : blanks r -> lstrip (r ++ rest) = lstrip rest.
Proof.
  induction 1 as [|h r Hh _ IH]; [reflexivity|].
  cbn [app lstrip]. rewrite (hspace_isspace h Hh). exact IH.
Qed.

Lemma is_directive_blanks r rest :
  blanks r -> is_directive (r ++ rest) = is_directive rest.
Proof. intros Hr. unfold is_directive. rewrite lstrip_blanks by exact Hr. reflexivity. Qed.

Lemma is_directive_blank r : blanks r -> is_directive r = false.
Proof.
  intros Hr. pose proof (is_directive_blanks r [] Hr) as H.
  rewrite app_nil_r in H. exact H.
Qed.

Lemma is_directive_cons c rest :
  is_directive (c :: rest)
  = if isspace c then is_directive rest else c =? HASH.
Proof. unfold is_directive. cbn [lstrip]. destruct (isspace c); reflexivity. Qed.

(** Rewriting the runs of a line does not change whether it is a
    directive. *)
Lemma is_directive_apply_runs F x last :
  sound F -> spaced x last ->
  forall prev,
    is_directive (apply_runs F prev x last) = is_directive (words x last).
Proof.
  intros HF [Hx Hlast].
  induction Hx as [|[r c] x' [Hr Hc] _ IH]; intros prev.
  - rewrite apply_runs_nil. cbn [words].
    rewrite (is_directive_blank last Hlast).
    apply is_directive_blank, HF, Hlast.
  - cbn [fst snd] in *. rewrite apply_runs_cons. cbn [words].
    rewrite (is_directive_blanks r _ Hr).
    rewrite (is_directive_blanks _ _ (HF prev r (Some c) Hr)).
    rewrite !is_directive_cons, IH. reflexivity.
Qed.

Lemma blanks_not_nonblank r : blanks r -> ~ nonblank r.
Proof.
  intros Hr (c & Hin & Hc). unfold blanks in Hr.
  rewrite List.Forall_forall in Hr. apply Hr, hspace_isspace in Hin. congruence.
Qed.

(** Nor whether it shows something. *)
Lemma nonblank_apply_runs F x last :
  spaced x last ->
  forall prev, nonblank (words x last) -> nonblank (apply_runs F prev x last).
Proof.
  intros [Hx Hlast].
  induction Hx as [|[r c] x' [Hr Hc] _ IH]; intros prev Hn.
  - cbn [words] in Hn. exfalso. exact (blanks_not_nonblank last Hlast Hn).
  - cbn [fst snd words] in *. rewrite apply_runs_cons.
    destruct Hn as (d & Hin & Hd).
    apply in_app_or in Hin as [Hin|[->|Hin]].
    + exfalso. apply (blanks_not_nonblank r Hr). exists d. auto.
    + exists d. split; [|exact Hd]. apply in_or_app. right. left. reflexivity.
    + destruct (IH (Some c)) as (e & Hine & He); [exists d; auto|].
      exists e. split; [|exact He]. apply in_or_app. right. right. exact Hine.
Qed.

Lemma normalize_line_branches l :
  normalize_line l
  = if is_directive l then normalize_directive l else normalize_code l.
Proof. reflexivity. Qed.

Lemma is_directive_code l :
  is_directive (normalize_code l) = is_directive l.
Proof.
  rewrite <- (words_enc l) at 1 2.
  rewrite (runwise_code _ _ (spaced_enc l)).
  apply is_directive_apply_runs; [apply sound_line|apply spaced_enc].
Qed.

Lemma nonblank_code l : nonblank l -> nonblank (normalize_code l).
Proof.
  intros Hl. rewrite <- (words_enc l) in *.
  rewrite (runwise_code _ _ (spaced_enc l)).
  apply nonblank_apply_runs; [apply spaced_enc|exact Hl].
Qed.

(** *** Directive lines *)

Lemma lstrip_drop l : lstrip l = drop (span isspace l) l.
Proof.
  induction l as [|c l IH]; [reflexivity|]. cbn [lstrip span].
  destruct (isspace c); [exact IH|reflexivity].
Qed.

Lemma rewrite_hash_behind a : forall k b,
  b <> [] -> rewrite hash_at k b a = drop k a.
Proof.
  induction a as [|c t IH]; intros k b Hb.
  - destruct k; reflexivity.
  - cbn [rewrite]. destruct k as [|k].
    + destruct b as [|x b']; [congruence|]. cbn [hash_at drop].
      f_equal. rewrite IH by discriminate. reflexivity.
    + cbn [drop]. apply IH. discriminate.
Qed.

(** On a directive line the first substitution leaves the line from the
    [#] on. *)
Lemma leading_hash_lstrip l :
  is_directive l = true -> re_sub leading_hash (fun _ => [HASH]) l = lstrip l.
Proof.
  intros Hd.
  rewrite (re_sub_rewrite leading_hash _ hash_at)
    by (intros b a; apply leading_hash_first).
  unfold is_directive in Hd. rewrite lstrip_drop in *.
  destruct l as [|c t]; [discriminate Hd|].
  cbn [rewrite]. unfold hash_at at 1.
  destruct (drop (span isspace (c :: t)) (c :: t)) as [|d rest] eqn:E;
    [discriminate Hd|].
  cbn [startswith_hash] in Hd. rewrite (N.eqb_sym HASH d), Hd.
  apply N.eqb_eq in Hd. subst d. cbn [app]. f_equal.
  rewrite rewrite_hash_behind by discriminate.
  destruct (span isspace (c :: t)) as [|n].
  - cbn [drop] in *. inversion E. reflexivity.
  - cbn [drop] in E. rewrite <- (Nat.add_1_r n), <- drop_drop, E.
    reflexivity.
Qed.

Lemma collapse_idem l :
  re_sub hspaces (fun _ => [SPACE]) (re_sub hspaces (fun _ => [SPACE]) l)
  = re_sub hspaces (fun _ => [SPACE]) l.
Proof.
  rewrite <- (words_enc l).
  pose proof (spaced_enc l) as Hs.
  rewrite (runwise_compose _ _ F_collapse F_collapse
             runwise_collapse sound_collapse runwise_collapse _ _ Hs).
  rewrite (runwise_collapse _ _ Hs). apply apply_runs_ext.
  intros p r n. unfold and_then, F_collapse. destruct r; reflexivity.
Qed.

Lemma collapse_hash rest :
  re_sub hspaces (fun _ => [SPACE]) (HASH :: rest)
  = HASH :: re_sub hspaces (fun _ => [SPACE]) rest.
Proof.
  rewrite !(re_sub_rewrite hspaces _ collapse_at)
    by (intros b a; apply hspaces_first).
  apply collapse_char. reflexivity.
Qed.

(** A directive line normalised: the line from its [#] on, its runs of
    blanks made one space. *)
Lemma normalize_directive_hash l :
  is_directive l = true ->
  exists rest,
    lstrip l = HASH :: rest /\
    normalize_directive l = HASH :: re_sub hspaces (fun _ => [SPACE]) rest.
Proof.
  intros Hd. unfold normalize_directive.
  rewrite (leading_hash_lstrip l Hd).
  unfold is_directive in Hd.
  destruct (lstrip l) as [|c rest]; [discriminate Hd|].
  cbn [startswith_hash] in Hd. apply N.eqb_eq in Hd. subst c.
  exists rest. split; [reflexivity|apply collapse_hash].
Qed.

Lemma is_directive_hash rest : is_directive (HASH :: rest) = true.
Proof. reflexivity. Qed.

(** Normalising a line does not change whether it is a directive. *)
Lemma is_directive_normalize_line l :
  is_directive (normalize_line l) = is_directive l.
Proof.
  rewrite normalize_line_branches.
  destruct (is_directive l) eqn:Hd; [|rewrite is_directive_code; exact Hd].
  destruct (normalize_directive_hash l Hd) as (rest & _ & ->).
  apply is_directive_hash.
Qed.

(** Normalising a line twice is normalising it once. *)
Lemma normalize_line_idem l :
  normalize_line (normalize_line l) = normalize_line l.
Proof.
  rewrite (normalize_line_branches (normalize_line l)).
  rewrite is_directive_normalize_line, normalize_line_branches.
  destruct (is_directive l) eqn:Hd; [|apply normalize_code_idem].
  destruct (normalize_directive_hash l Hd) as (rest & _ & ->).
  destruct (normalize_directive_hash _ (is_directive_hash
              (re_sub hspaces (fun _ => [SPACE]) rest)))
    as (rest' & Hrest' & ->).
  cbn [lstrip] in Hrest'. change (isspace HASH) with false in Hrest'.
  inversion Hrest'; subst rest'. rewrite collapse_idem. reflexivity.
Qed.

Lemma nonblank_normalize_line l : nonblank l -> nonblank (normalize_line l).
Proof.
  intros Hl. rewrite normalize_line_branches.
  destruct (is_directive l) eqn:Hd; [|apply nonblank_code, Hl].
  destruct (normalize_directive_hash l Hd) as (rest & _ & ->).
  exists HASH. split; [left; reflexivity|reflexivity].
Qed.

Lemma unbroken_normalize_line l : unbroken l -> unbroken (normalize_line l).
Proof.
  intros Hl. unfold unbroken in *. unfold normalize_line.
  assert (Hspace : forall t, Forall (fun c => is_linebreak c = false) t ->
            Forall (fun c => is_linebreak c = false)
                   (re_sub hspaces (fun _ => [SPACE]) t)).
  { intros t Ht. apply re_sub_chars; [intros _; repeat constructor|exact Ht]. }
  destruct (is_directive l).
  - apply Hspace. apply re_sub_chars; [intros _; repeat constructor|exact Hl].
  - apply Hspace.
    assert (Hsym : Forall (fun s => is_linebreak s = false) symbols)
      by (rewrite symbols_codes; repeat constructor).
    revert l Hl. induction Hsym as [|s ss Hs _ IH]; intros l Hl; [exact Hl|].
    cbn [fold_left]. apply IH. unfold strip_around.
    apply re_sub_chars; [intros _; repeat constructor; exact Hs|].
    apply re_sub_chars; [intros _; repeat constructor; exact Hs|exact Hl].
Qed.

(** ** Compaction and normalisation, twice *)

Lemma normalize_spaces_join ls :
  Forall (fun l => ~ In LF l) ls ->
  normalize_spaces (join_nl ls) = join_nl (map normalize_line ls).
Proof.
  intros Hls. unfold normalize_spaces.
  destruct ls as [|l ls']; [reflexivity|].
  rewrite split_nl_join_nl by (discriminate || exact Hls). reflexivity.
Qed.

(** Where the flags put a newline before every line, the separator rule
    opens every line with one. *)
Lemma compact_all_separated ls : forall prev,
  all_separated (is_directive prev) (map is_directive ls) ->
  compact_from prev ls = opened_lines ls.
Proof.
  induction ls as [|l rest IH]; intros prev Hsep; [reflexivity|].
  cbn [map all_separated] in Hsep. destruct Hsep as [Hhere Hrest].
  cbn [compact_from]. unfold separated.
  replace (match head rest with
           | Some n => is_directive n
           | None => false
           end)
    with (match map is_directive rest with
          | d' :: _ => d'
          | [] => false
          end) by (destruct rest; reflexivity).
  rewrite Hhere, (IH l Hrest). reflexivity.
Qed.

Lemma filter_all {A} (p : A -> bool) l :
  Forall (fun x => p x = true) l -> List.filter p l = l.
Proof.
  induction 1 as [|x l Hx _ IH]; [reflexivity|].
  cbn [List.filter]. rewrite Hx, IH. reflexivity.
Qed.

(** A text whose lines are good and all kept apart by the separator
    rule is left as it is by the compactor. *)
Lemma remove_newlines_fixed ls :
  Forall (fun l => nonblank l /\ unbroken l) ls ->
  match ls with
  | [] => True
  | l :: more => all_separated (is_directive l) (map is_directive more)
  end ->
  remove_newlines (join_nl ls) = join_nl ls.
Proof.
  intros Hgood Hsep. rewrite remove_newlines_compact.
  assert (Hkept : kept_lines (join_nl ls) = ls).
  { unfold kept_lines. rewrite splitlines_join_nl.
    - apply filter_all. eapply List.Forall_impl; [|exact Hgood].
      intros l [Hn _]. apply strip_nonblank, Hn.
    - eapply List.Forall_impl; [|exact Hgood].
      intros l [Hn Hu]. split; [apply nonblank_not_nil, Hn|exact Hu]. }
  rewrite Hkept. destruct ls as [|l more]; [reflexivity|].
  cbn [compact]. rewrite (compact_all_separated more l Hsep), join_nl_cons.
  reflexivity.
Qed.

Example compacted_and_normalized :
  normalize_spaces
    (remove_newlines (lines_of ["float  x = 1 ;"; "  # define  A"; "y"]))
  = lines_of ["float x=1;"; "# define A"; "y"].
Proof. vm_compute. reflexivity. Qed.

(** C2: compaction followed by normalisation, [g], does nothing more
    when it is run again: [g (g x) = g x]. *)
Theorem compaction_normalization_idempotent (x : text) :
  let g := fun t => normalize_spaces (remove_newlines t) in
  g (g x) = g x.
Proof.
  intros g. unfold g.
  destruct (remove_newlines_lines x) as [Hout Hgood].
  pose proof (blocks_good _ (kept_lines_good x)) as Hblocks.
  destruct (blocks_spec (kept_lines x)) as (_ & _ & _ & _ & Hsep).
  set (bs := blocks (kept_lines x)) in *.
  set (gs := map (@concat char) bs) in *.
  assert (Hlf : Forall (fun l => ~ In LF l) gs).
  { eapply List.Forall_impl; [|exact Hgood].
    intros l [_ Hu]. apply unbroken_no_LF, Hu. }
  assert (Hfirst : normalize_spaces (remove_newlines x)
                   = join_nl (map normalize_line gs)).
  { rewrite Hout. apply normalize_spaces_join, Hlf. }
  assert (Hgood' : Forall (fun l => nonblank l /\ unbroken l)
                     (map normalize_line gs)).
  { apply List.Forall_map. eapply List.Forall_impl; [|exact Hgood].
    intros l [Hn Hu].
    split; [apply nonblank_normalize_line, Hn|apply unbroken_normalize_line, Hu]. }
  assert (Hflags : map is_directive (map normalize_line gs)
                   = map block_flag bs).
  { unfold gs. rewrite !map_map. apply map_ext_Forall.
    eapply List.Forall_impl; [|exact Hblocks].
    intros b (_ & _ & Hb). cbn beta.
    rewrite is_directive_normalize_line. exact Hb. }
  rewrite Hfirst, remove_newlines_fixed; [| exact Hgood' |].
  - rewrite normalize_spaces_join.
    + rewrite map_map. f_equal. apply map_ext. intros l.
      apply normalize_line_idem.
    + eapply List.Forall_impl; [|exact Hgood'].
      intros l [_ Hu]. apply unbroken_no_LF, Hu.
  - unfold gs in *. destruct bs as [|b more]; [exact I|].
    cbn [map] in *. inversion Hflags as [[Hb Hmore]].
    rewrite Hb, Hmore. exact Hsep.
Qed.

(** ** The whole pipeline on the two files of the scenario *)

Example scenario_output (uni_decimal uni_alnum : char -> bool) :
  fst <$> (process_shader uni_decimal uni_alnum scenario_fs (str "a.glsl")
             ≫= fun r => match r with inl ok => Some ok | inr _ => None end)
  = Some (lines_of ["#define FOO 1"; "float x=1.;"]).
Proof. vm_compute. reflexivity. Qed.

(** * The engine: what a match and a scan are made of *)

(** What holds from a position to itself, goes through a chain, and
    holds of the body of a repetition, holds of the repetition. *)
Lemma star_iter_closure (T : mstate -> mstate -> Prop) greedy
    (body : mstate -> list mstate) n :
  (forall s, T s s) ->
  (forall s1 s2 s3, T s1 s2 -> T s2 s3 -> T s1 s3) ->
  (forall s s', In s' (body s) -> T s s') ->
  forall s s', In s' (star_iter greedy body n s) -> T s s'.
Proof.
  intros Hrefl Htrans Hbody. induction n as [|n IH]; intros s s' Hin.
  - destruct Hin as [<-|[]]. apply Hrefl.
  - cbn [star_iter] in Hin.
    assert (Hcases : s' = s \/
              In s' (flat_map (fun s1 => if advanced s s1
                                         then star_iter greedy body n s1
                                         else []) (body s))).
    { destruct greedy.
      - apply in_app_iff in Hin. destruct Hin as [H|[<-|[]]]; auto.
      - destruct Hin as [<-|H]; auto. }
    destruct Hcases as [->|Hmore]; [apply Hrefl|].
    apply in_flat_map in Hmore. destruct Hmore as (s1 & H1 & Hs').
    destruct (advanced s s1); [|destruct Hs'].
    eapply Htrans; [apply Hbody, H1|apply IH, Hs'].
Qed.

(** A match only moves forward: what is ahead after it is the end of
    what was ahead before it. *)
Lemma star_iter_forward greedy (body : mstate -> list mstate) n :
  (forall s s', In s' (body s) -> exists w, ahead s = w ++ ahead s') ->
  forall s s', In s' (star_iter greedy body n s) ->
    exists w, ahead s = w ++ ahead s'.
Proof.
  apply (star_iter_closure (fun s s' => exists w, ahead s = w ++ ahead s')).
  - intros s. exists []. reflexivity.
  - intros s1 s2 s3 [w1 H1] [w2 H2]. exists (w1 ++ w2).
    rewrite H1, H2, app_assoc. reflexivity.
Qed.

Lemma matches_forward r : forall s s',
  In s' (matches r s) -> exists w, ahead s = w ++ ahead s'.
Proof.
  induction r as [|p|r1 IH1 r2 IH2|r1 IH1 r2 IH2|greedy r IH|i r IH|ml| |w0
                  |positive r IH]; intros s s' Hin; cbn [matches] in Hin.
  - destruct Hin as [<-|[]]. exists []. reflexivity.
  - destruct (ahead s) as [|c t] eqn:Ha; [destruct Hin|].
    destruct (p c); [|destruct Hin]. destruct Hin as [<-|[]].
    exists [c]. reflexivity.
  - apply in_flat_map in Hin. destruct Hin as (s1 & H1 & H2).
    destruct (IH1 _ _ H1) as [w1 Hw1]. destruct (IH2 _ _ H2) as [w2 Hw2].
    exists (w1 ++ w2). rewrite Hw1, Hw2, app_assoc. reflexivity.
  - apply in_app_iff in Hin. destruct Hin as [H|H]; eauto.
  - eapply star_iter_forward; [exact IH|exact Hin].
  - apply in_map_iff in Hin. destruct Hin as (s1 & <- & H1).
    cbn [ahead]. apply IH, H1.
  - destruct (at_bol ml s); [|destruct Hin]. destruct Hin as [<-|[]].
    exists []. reflexivity.
  - destruct (at_eos s); [|destruct Hin]. destruct Hin as [<-|[]].
    exists []. reflexivity.
  - destruct (at_boundary w0 s); [|destruct Hin]. destruct Hin as [<-|[]].
    exists []. reflexivity.
  - destruct (matches r s), positive; try destruct Hin as [<-|[]];
      try destruct Hin; exists []; reflexivity.
Qed.

Lemma consumed_forward s s' w : ahead s = w ++ ahead s' -> consumed s s' = w.
Proof.
  intros H. unfold consumed. rewrite H, length_app.
  replace (length w + length (ahead s') - length (ahead s'))%nat
    with (length w) by lia.
  apply take_app_length.
Qed.

Lemma advanced_forward s s' w :
  ahead s = w ++ ahead s' -> advanced s s' = true -> w <> [].
Proof.
  intros H Hadv ->. unfold advanced in Hadv. rewrite H in Hadv. cbn in Hadv.
  apply Nat.ltb_lt in Hadv. lia.
Qed.

Lemma first_match_In mu r s s1 :
  first_match mu r s = Some s1 ->
  In s1 (matches r s) /\ (mu = true -> advanced s s1 = true).
Proof.
  unfold first_match. intros H.
  assert (Hin : In s1 (List.filter (fun s' => negb mu || advanced s s')
                                   (matches r s))).
  { destruct (List.filter _ _) as [|x l]; [discriminate|].
    injection H as ->. left. reflexivity. }
  apply filter_In in Hin. destruct Hin as [Hin Hp]. split; [exact Hin|].
  intros ->. exact Hp.
Qed.

(** The pieces of a scan are characters of the text and matches of the
    pattern, and put side by side they are the text. *)
Lemma scan_pieces r : forall a k b,
  Forall (from_match r) (scan r k b a)
  /\ flat_map source (scan r k b a) = drop k a.
Proof.
  assert (Hhit : forall b a s1, In s1 (matches r (MState b a [])) ->
            from_match r (Found (hit_of (MState b a []) s1))).
  { intros b a s1 H. exists b, a, s1. split; [exact H|reflexivity]. }
  assert (Hjump : forall b c t s1,
            In s1 (matches r (MState b (c :: t) [])) ->
            advanced (MState b (c :: t) []) s1 = true ->
            matched (hit_of (MState b (c :: t) []) s1)
            ++ drop (length (consumed (MState b (c :: t) []) s1) - 1) t
            = c :: t).
  { intros b c t s1 Hin Hadv.
    destruct (matches_forward _ _ _ Hin) as [w Hw].
    pose proof (advanced_forward _ _ _ Hw Hadv) as Hne.
    cbn [hit_of matched]. rewrite (consumed_forward _ _ _ Hw).
    cbn [ahead] in Hw. destruct w as [|c' w']; [congruence|].
    cbn [app] in Hw. injection Hw as <- ->.
    cbn [length]. replace (S (length w') - 1)%nat with (length w') by lia.
    rewrite drop_app_length. reflexivity. }
  induction a as [|c t IH]; intros k b.
  - destruct k as [|k]; [|split; [constructor|reflexivity]].
    cbn [scan].
    assert (Hempty : forall s1, In s1 (matches r (MState b [] [])) ->
              matched (hit_of (MState b [] []) s1) = []).
    { intros s1 Hin. destruct (matches_forward _ _ _ Hin) as [w Hw].
      cbn [hit_of matched]. rewrite (consumed_forward _ _ _ Hw).
      cbn [ahead] in Hw. symmetry in Hw. apply app_eq_nil in Hw. tauto. }
    destruct (first_match false r (MState b [] [])) as [s1|] eqn:H1;
      [|split; [constructor|reflexivity]].
    apply first_match_In in H1. destruct H1 as [H1 _].
    destruct (advanced (MState b [] []) s1).
    + split; [repeat constructor; apply Hhit, H1|].
      cbn [flat_map source]. rewrite (Hempty _ H1). reflexivity.
    + destruct (first_match true r (MState b [] [])) as [s2|] eqn:H2.
      * apply first_match_In in H2. destruct H2 as [H2 _].
        split; [repeat constructor; apply Hhit; assumption|].
        cbn [flat_map source]. rewrite (Hempty _ H1), (Hempty _ H2).
        reflexivity.
      * split; [repeat constructor; apply Hhit, H1|].
        cbn [flat_map source]. rewrite (Hempty _ H1). reflexivity.
  - destruct k as [|k]; [|cbn [scan drop]; apply IH].
    cbn [scan].
    assert (Hstep : Forall (from_match r) (Keep c :: scan r 0 (c :: b) t)
                    /\ flat_map source (Keep c :: scan r 0 (c :: b) t)
                       = c :: t).
    { destruct (IH 0%nat (c :: b)) as [IH1 IH2].
      split; [constructor; [exact I|exact IH1]|].
      cbn [flat_map source app]. rewrite IH2. reflexivity. }
    destruct (first_match false r (MState b (c :: t) [])) as [s1|] eqn:H1;
      [|exact Hstep].
    apply first_match_In in H1. destruct H1 as [H1 _].
    destruct (advanced (MState b (c :: t) []) s1) eqn:Hadv.
    + destruct (IH (length (consumed (MState b (c :: t) []) s1) - 1)%nat
                   (c :: b)) as [IH1 IH2].
      split; [constructor; [apply Hhit, H1|exact IH1]|].
      cbn [flat_map source]. rewrite IH2. apply Hjump; assumption.
    + assert (Hnone : matched (hit_of (MState b (c :: t) []) s1) = []).
      { destruct (matches_forward _ _ _ H1) as [w Hw].
        cbn [hit_of matched]. rewrite (consumed_forward _ _ _ Hw).
        unfold advanced in Hadv. rewrite Hw, length_app in Hadv.
        apply Nat.ltb_ge in Hadv. destruct w; [reflexivity|cbn in Hadv; lia]. }
      destruct (first_match true r (MState b (c :: t) [])) as [s2|] eqn:H2.
      * apply first_match_In in H2. destruct H2 as [H2 Hadv2].
        specialize (Hadv2 eq_refl).
        destruct (IH (length (consumed (MState b (c :: t) []) s2) - 1)%nat
                     (c :: b)) as [IH1 IH2].
        split; [constructor; [apply Hhit, H1|];
                constructor; [apply Hhit, H2|exact IH1]|].
        cbn [flat_map source]. rewrite Hnone, IH2. cbn [app].
        apply Hjump; assumption.
      * destruct Hstep as [Hs1 Hs2].
        split; [constructor; [apply Hhit, H1|exact Hs1]|].
        change (flat_map source (Found (hit_of (MState b (c :: t) []) s1)
                                 :: Keep c :: scan r 0 (c :: b) t))
          with (matched (hit_of (MState b (c :: t) []) s1)
                ++ flat_map source (Keep c :: scan r 0 (c :: b) t)).
        rewrite Hnone, Hs2. reflexivity.
Qed.

Lemma finditer_pieces r t :
  Forall (from_match r) (finditer r t) /\ flat_map source (finditer r t) = t.
Proof. apply (scan_pieces r t 0%nat []). Qed.

(** What holds of every replacement against the text it replaces, and
    goes through concatenation, holds of the substitution against the
    text. *)
Lemma re_sub_pieces (R : text -> text -> Prop) r repl t :
  R [] [] ->
  (forall c, R [c] [c]) ->
  (forall x y x' y', R x y -> R x' y' -> R (x ++ x') (y ++ y')) ->
  (forall b a s', In s' (matches r (MState b a [])) ->
     R (repl (hit_of (MState b a []) s')) (consumed (MState b a []) s')) ->
  R (re_sub r repl t) t.
Proof.
  intros Hnil Hone Happ Hhit.
  destruct (finditer_pieces r t) as [Hall Hsrc].
  unfold re_sub.
  assert (H : forall l, Forall (from_match r) l ->
            R (flat_map (render repl) l) (flat_map source l)).
  { induction 1 as [|p l Hp _ IH]; [exact Hnil|].
    cbn [flat_map]. apply Happ; [|exact IH].
    destruct p as [c|h]; [apply Hone|].
    destruct Hp as (b & a & s' & Hin & ->). cbn [render source hit_of matched].
    apply Hhit, Hin. }
  specialize (H _ Hall). rewrite Hsrc in H. exact H.
Qed.

(** ** The matches of the constructs, read backwards *)

Lemma went_refl s : went [] s s.
Proof. split; reflexivity. Qed.

Lemma went_trans w1 w2 s1 s2 s3 :
  went w1 s1 s2 -> went w2 s2 s3 -> went (w1 ++ w2) s1 s3.
Proof.
  intros [H1 G1] [H2 G2]. split; [|congruence].
  rewrite H1, H2, app_assoc. reflexivity.
Qed.

Lemma went_consumed w s s' : went w s s' -> consumed s s' = w.
Proof. intros [H _]. apply consumed_forward, H. Qed.

Lemma in_Cat r1 r2 s s' :
  In s' (matches (Cat r1 r2) s) ->
  exists s1, In s1 (matches r1 s) /\ In s' (matches r2 s1).
Proof. cbn [matches]. intros H. apply in_flat_map in H. exact H. Qed.

Lemma in_Set p s s' :
  In s' (matches (Set_ p) s) -> exists c, p c = true /\ went [c] s s'.
Proof.
  cbn [matches]. destruct (ahead s) as [|c t] eqn:Ha; [intros []|].
  destruct (p c) eqn:Hp; [|intros []]. intros [<-|[]].
  exists c. split; [exact Hp|]. split; [exact Ha|reflexivity].
Qed.

Lemma in_Chr c s s' : In s' (matches (Chr c) s) -> went [c] s s'.
Proof.
  intros H. apply in_Set in H. destruct H as (d & Hd & Hw).
  apply N.eqb_eq in Hd. subst d. exact Hw.
Qed.

Lemma in_Star_Set greedy p s s' :
  In s' (matches (Star greedy (Set_ p)) s) ->
  exists w, Forall (fun c => p c = true) w /\ went w s s'.
Proof.
  cbn [matches].
  apply (star_iter_closure
           (fun s s' => exists w, Forall (fun c => p c = true) w /\ went w s s')).
  - intros s0. exists []. split; [constructor|apply went_refl].
  - intros s1 s2 s3 (w1 & F1 & H1) (w2 & F2 & H2). exists (w1 ++ w2).
    split; [apply Forall_app; split; assumption|eapply went_trans; eassumption].
  - intros s0 s0' H. apply in_Set in H. destruct H as (c & Hc & Hw).
    exists [c]. split; [repeat constructor; exact Hc|exact Hw].
Qed.

Lemma in_Plus_Set greedy p s s' :
  In s' (matches (Plus greedy (Set_ p)) s) ->
  exists w, w <> [] /\ Forall (fun c => p c = true) w /\ went w s s'.
Proof.
  intros H. apply in_Cat in H. destruct H as (s1 & H1 & H2).
  apply in_Set in H1. destruct H1 as (c & Hc & Hw1).
  apply in_Star_Set in H2. destruct H2 as (w & Hw & Hw2).
  exists ([c] ++ w). split; [discriminate|].
  split; [constructor; assumption|eapply went_trans; eassumption].
Qed.

Lemma in_Lit w : forall s s', In s' (matches (Lit w) s) -> went w s s'.
Proof.
  induction w as [|c w IH]; intros s s' H.
  - destruct H as [<-|[]]. apply went_refl.
  - change (Lit (c :: w)) with (Cat (Chr c) (Lit w)) in H.
    apply in_Cat in H. destruct H as (s1 & H1 & H2).
    apply in_Chr in H1. apply IH in H2.
    apply (went_trans [c] w _ _ _ H1 H2).
Qed.

Lemma in_Group i r s s' :
  In s' (matches (Group i r) s) ->
  exists s1, In s1 (matches r s) /\ ahead s' = ahead s1
             /\ groups s' = (i, consumed s s1) :: groups s1.
Proof.
  cbn [matches]. intros H. apply in_map_iff in H.
  destruct H as (s1 & <- & H1). exists s1. auto.
Qed.

Lemma in_Bol ml s s' : In s' (matches (Bol ml) s) -> s' = s.
Proof.
  cbn [matches]. destruct (at_bol ml s); [|intros []]. intros [<-|[]].
  reflexivity.
Qed.

Lemma in_Boundary w s s' : In s' (matches (Boundary w) s) -> s' = s.
Proof.
  cbn [matches]. destruct (at_boundary w s); [|intros []]. intros [<-|[]].
  reflexivity.
Qed.

Lemma in_Ahead positive r s s' : In s' (matches (Ahead positive r) s) -> s' = s.
Proof.
  cbn [matches]. destruct (matches r s), positive; intros H;
    try destruct H as [<-|[]]; try destruct H; reflexivity.
Qed.

(** ** What the patterns of the passes match *)

Lemma hspaces_shape s s' :
  In s' (matches hspaces s) -> exists w, w <> [] /\ blanks w /\ went w s s'.
Proof. apply in_Plus_Set. Qed.

Lemma spaces_before_shape sym s s' :
  In s' (matches (spaces_before sym) s) ->
  exists w, w <> [] /\ blanks w /\ went (w ++ [sym]) s s'.
Proof.
  intros H. apply in_Cat in H. destruct H as (s1 & H1 & H2).
  apply hspaces_shape in H1. destruct H1 as (w & Hne & Hw & H1).
  apply in_Chr in H2. exists w. split; [exact Hne|]. split; [exact Hw|].
  eapply went_trans; eassumption.
Qed.

Lemma spaces_after_shape sym s s' :
  In s' (matches (spaces_after sym) s) ->
  exists w, w <> [] /\ blanks w /\ went (sym :: w) s s'.
Proof.
  intros H. apply in_Cat in H. destruct H as (s1 & H1 & H2).
  apply in_Chr in H1.
  apply hspaces_shape in H2. destruct H2 as (w & Hne & Hw & H2).
  exists w. split; [exact Hne|]. split; [exact Hw|].
  apply (went_trans [sym] w _ _ _ H1 H2).
Qed.

Lemma leading_hash_shape s s' :
  In s' (matches leading_hash s) ->
  exists w, Forall (fun c => isspace c = true) w /\ went (w ++ [HASH]) s s'.
Proof.
  intros H. apply in_Cat in H. destruct H as (s0 & H0 & H).
  apply in_Bol in H0. subst s0.
  apply in_Cat in H. destruct H as (s1 & H1 & H2).
  apply in_Star_Set in H1. destruct H1 as (w & Hw & H1).
  apply in_Chr in H2. exists w. split; [exact Hw|].
  eapply went_trans; eassumption.
Qed.

(** * White space is all that compaction and normalisation touch *)

Lemma visible_app x y : visible (x ++ y) = visible x ++ visible y.
Proof. apply List.filter_app. Qed.

Lemma visible_space w : Forall (fun c => isspace c = true) w -> visible w = [].
Proof.
  induction 1 as [|c w Hc _ IH]; [reflexivity|].
  unfold visible in *. cbn [List.filter]. rewrite Hc. exact IH.
Qed.

Lemma visible_blanks w : blanks w -> visible w = [].
Proof.
  intros H. apply visible_space. eapply List.Forall_impl; [|exact H].
  intros c Hc. apply hspace_isspace, Hc.
Qed.

Lemma visible_nonblank l : ~ nonblank l -> visible l = [].
Proof.
  intros H. apply visible_space. apply List.Forall_forall. intros c Hin.
  destruct (isspace c) eqn:Hc; [reflexivity|].
  exfalso. apply H. exists c. split; assumption.
Qed.

Lemma linebreak_isspace c : is_linebreak c = true -> isspace c = true.
Proof.
  unfold is_linebreak, isspace, in_range. intros H.
  repeat match type of H with
         | _ || _ = true => apply orb_true_iff in H; destruct H as [H|H]
         end;
    repeat match goal with
           | |- _ || _ = true => apply orb_true_iff
           end;
    try (apply andb_true_iff in H; destruct H as [H1 H2];
         apply N.leb_le in H1; apply N.leb_le in H2);
    try apply N.eqb_eq in H.
  all: repeat rewrite orb_true_iff; repeat rewrite andb_true_iff;
       repeat rewrite N.leb_le; repeat rewrite N.eqb_eq; lia.
Qed.

Lemma trims_refl x : trims x x.
Proof. split; [reflexivity|lia]. Qed.

Lemma trims_trans x y z : trims x y -> trims y z -> trims x z.
Proof. intros [V1 L1] [V2 L2]. split; [congruence|lia]. Qed.

Lemma trims_app x y x' y' : trims x y -> trims x' y' -> trims (x ++ x') (y ++ y').
Proof.
  intros [V1 L1] [V2 L2]. split.
  - rewrite !visible_app. congruence.
  - rewrite !length_app. lia.
Qed.

Lemma trims_cons c x y : trims x y -> trims (c :: x) (c :: y).
Proof. intros H. apply (trims_app [c] [c]); [apply trims_refl|exact H]. Qed.

(** A substitution whose replacements trim what they replace trims the
    text. *)
Lemma re_sub_trims r repl t :
  (forall b a s', In s' (matches r (MState b a [])) ->
     trims (repl (hit_of (MState b a []) s')) (consumed (MState b a []) s')) ->
  trims (re_sub r repl t) t.
Proof.
  apply re_sub_pieces.
  - apply trims_refl.
  - intros c. apply trims_refl.
  - apply trims_app.
Qed.

Lemma collapse_trims t : trims (re_sub hspaces (fun _ => [SPACE]) t) t.
Proof.
  apply re_sub_trims. intros b a s' H.
  apply hspaces_shape in H. destruct H as (w & Hne & Hw & H).
  rewrite (went_consumed _ _ _ H). split.
  - rewrite (visible_blanks w Hw). reflexivity.
  - destruct w; [congruence|cbn [length]; lia].
Qed.

Lemma strip_around_trims sym t :
  isspace sym = false -> trims (strip_around t sym) t.
Proof.
  intros Hsym. unfold strip_around.
  eapply trims_trans; apply re_sub_trims; intros b a s' H.
  - apply spaces_after_shape in H. destruct H as (w & Hne & Hw & H).
    rewrite (went_consumed _ _ _ H).
    apply (trims_app [sym] [sym] [] w); [apply trims_refl|].
    split; [rewrite (visible_blanks w Hw); reflexivity|cbn [length]; lia].
  - apply spaces_before_shape in H. destruct H as (w & Hne & Hw & H).
    rewrite (went_consumed _ _ _ H).
    apply (trims_app [] w [sym] [sym]); [|apply trims_refl].
    split; [rewrite (visible_blanks w Hw); reflexivity|cbn [length]; lia].
Qed.

Lemma leading_hash_trims t : trims (re_sub leading_hash (fun _ => [HASH]) t) t.
Proof.
  apply re_sub_trims. intros b a s' H.
  apply leading_hash_shape in H. destruct H as (w & Hw & H).
  rewrite (went_consumed _ _ _ H).
  apply (trims_app [] w [HASH] [HASH]); [|apply trims_refl].
  split; [rewrite (visible_space w Hw); reflexivity|cbn [length]; lia].
Qed.

Lemma symbols_not_space : Forall (fun s => isspace s = false) symbols.
Proof. rewrite symbols_codes. repeat constructor. Qed.

Lemma normalize_line_trims l : trims (normalize_line l) l.
Proof.
  unfold normalize_line. destruct (is_directive l).
  - eapply trims_trans; [apply collapse_trims|apply leading_hash_trims].
  - eapply trims_trans; [apply collapse_trims|].
    pose proof symbols_not_space as Hsym. revert l.
    induction Hsym as [|s ss Hs _ IH]; intros l; [apply trims_refl|].
    cbn [fold_left]. eapply trims_trans; [apply IH|].
    apply strip_around_trims, Hs.
Qed.

Lemma opened_lines_trims (f : text -> text) ls :
  (forall l, trims (f l) l) ->
  trims (opened_lines (map f ls)) (opened_lines ls).
Proof.
  intros Hf. induction ls as [|l ls IH]; [apply trims_refl|].
  cbn [map opened_lines flat_map]. apply trims_cons.
  apply trims_app; [apply Hf|exact IH].
Qed.

Lemma normalize_spaces_trims t : trims (normalize_spaces t) t.
Proof.
  unfold normalize_spaces. rewrite <- (join_nl_split_nl t) at 2.
  destruct (split_nl t) as [|l ls]; [apply trims_refl|].
  cbn [map]. rewrite !join_nl_cons.
  apply trims_app; [apply normalize_line_trims|].
  apply opened_lines_trims, normalize_line_trims.
Qed.

(** The lines of [splitlines], each opened by a newline, against the
    text. *)
Lemma splitlines_opened t :
  visible (opened_lines (splitlines t)) = visible t
  /\ (length (opened_lines (splitlines t)) <= S (length t))%nat.
Proof.
  assert (Hvis : forall c r, visible (c :: r)
                 = if isspace c then visible r else c :: visible r).
  { intros c r. unfold visible. cbn [List.filter].
    destruct (isspace c); reflexivity. }
  assert (H : forall n t, (length t <= n)%nat ->
            visible (opened_lines (splitlines t)) = visible t
            /\ (length (opened_lines (splitlines t)) <= S (length t))%nat).
  { induction n as [|n IH]; intros [|c t'] Hlen; cbn [length] in Hlen;
      try lia; try (split; [reflexivity|cbn; lia]).
    cbn [splitlines]. destruct (is_linebreak c) eqn:Hc.
    - apply linebreak_isspace in Hc.
      assert (Hgo : forall u, (length u <= length t')%nat ->
                visible u = visible t' ->
                visible (opened_lines ([] :: splitlines u)) = visible (c :: t')
                /\ (length (opened_lines ([] :: splitlines u))
                    <= S (length (c :: t')))%nat).
      { intros u Hu Hv. destruct (IH u ltac:(lia)) as [V L].
        unfold opened_lines in *. cbn [flat_map app] in *. rewrite !Hvis, Hc.
        change (isspace LF) with true. cbn [length].
        split; [congruence|lia]. }
      destruct t' as [|c' t''].
      + rewrite !Hvis, Hc. split; [reflexivity|cbn; lia].
      + destruct ((c =? CR) && (c' =? LF)) eqn:Hcr.
        * apply Hgo; [cbn [length]; lia|].
          apply andb_true_iff in Hcr. destruct Hcr as [_ Hlf].
          apply N.eqb_eq in Hlf. subst c'. rewrite Hvis. reflexivity.
        * apply Hgo; [lia|reflexivity].
    - destruct (IH t' ltac:(lia)) as [V L].
      assert (Hsp : isspace c = false \/ isspace c = true)
        by (destruct (isspace c); auto).
      destruct (splitlines t') as [|l ls].
      + unfold opened_lines in *. cbn [flat_map app length] in *.
        rewrite !Hvis in *. change (isspace LF) with true in *.
        rewrite <- V. split; [destruct (isspace c); reflexivity|lia].
      + unfold opened_lines in *. cbn [flat_map app length] in *.
        rewrite !Hvis in *. change (isspace LF) with true in *.
        rewrite <- V. split; [destruct (isspace c); reflexivity|lia]. }
  apply (H (length t)). lia.
Qed.

Lemma opened_lines_cons l ls :
  opened_lines (l :: ls) = [LF] ++ l ++ opened_lines ls.
Proof. reflexivity. Qed.

Lemma opened_lines_filter (p : text -> bool) ls :
  (forall l, p l = false -> visible l = []) ->
  visible (opened_lines (List.filter p ls)) = visible (opened_lines ls)
  /\ (length (opened_lines (List.filter p ls)) <= length (opened_lines ls))%nat.
Proof.
  intros Hp. induction ls as [|l ls [V L]]; [split; [reflexivity|cbn; lia]|].
  cbn [List.filter]. destruct (p l) eqn:Hl.
  - rewrite !opened_lines_cons, !visible_app, !length_app.
    split; [congruence|lia].
  - rewrite !opened_lines_cons, !visible_app, !length_app, (Hp l Hl).
    split; [exact V|lia].
Qed.

Lemma compact_from_opened ls : forall prev,
  visible (compact_from prev ls) = visible (opened_lines ls)
  /\ (length (compact_from prev ls) <= length (opened_lines ls))%nat.
Proof.
  induction ls as [|l ls IH]; intros prev; [split; [reflexivity|cbn; lia]|].
  destruct (IH l) as [V L].
  cbn [compact_from]. rewrite opened_lines_cons, !visible_app, !length_app.
  destruct (separated prev l (head ls)); cbn [length];
    (split; [rewrite V; reflexivity|lia]).
Qed.

Lemma remove_newlines_trims x : trims (remove_newlines x) x.
Proof.
  rewrite remove_newlines_compact.
  destruct (splitlines_opened x) as [V1 L1].
  destruct (opened_lines_filter (fun line => truthy (strip line)) (splitlines x))
    as [V2 L2].
  { intros l Hl. apply visible_nonblank. intros Hn.
    apply strip_nonblank in Hn. congruence. }
  fold (kept_lines x) in V2, L2.
  destruct (kept_lines x) as [|l ls].
  - split; [rewrite <- V1, <- V2; reflexivity|cbn; lia].
  - destruct (compact_from_opened ls l) as [V3 L3].
    cbn [compact]. rewrite opened_lines_cons in V2, L2.
    rewrite !visible_app in V2. rewrite !length_app in L2. cbn [length] in L2.
    split; [rewrite visible_app, V3; rewrite <- V1, <- V2; reflexivity|].
    rewrite length_app. lia.
Qed.

(** * Passes that only delete *)

(** A substitution whose replacements are made of what they replace, in
    order, leaves the text with some characters gone. *)
Lemma re_sub_sublist r repl t :
  (forall b a s', In s' (matches r (MState b a [])) ->
     sublist (repl (hit_of (MState b a []) s')) (consumed (MState b a []) s')) ->
  sublist (re_sub r repl t) t.
Proof.
  apply re_sub_pieces.
  - constructor.
  - reflexivity.
  - intros x y x' y'. apply sublist_app.
Qed.

Lemma remove_comments_sublist t : sublist (remove_comments t) t.
Proof.
  unfold remove_comments.
  transitivity (re_sub block_comment (fun _ => []) t);
    apply re_sub_sublist; intros; apply sublist_nil_l.
Qed.

(** What [Group] captures when its body only goes over the text. *)
Lemma in_Group_went (P : text -> Prop) i r s s' :
  (forall s1, In s1 (matches r s) -> exists w, P w /\ went w s s1) ->
  In s' (matches (Group i r) s) ->
  exists w, P w /\ ahead s = w ++ ahead s'
            /\ groups s' = (i, w) :: groups s.
Proof.
  intros Hr H. apply in_Group in H. destruct H as (s1 & H1 & Ha & Hg).
  destruct (Hr _ H1) as (w & Hw & Hwent).
  exists w. split; [exact Hw|].
  rewrite Hg, (went_consumed _ _ _ Hwent). destruct Hwent as [Hah Hgr].
  rewrite Ha, Hgr. split; [exact Hah|reflexivity].
Qed.

Section LiteralFacts.

Variable uni_decimal : char -> bool.
Variable uni_alnum : char -> bool.

(** [\b(\d+)\.0+(?!\d)] matches digits, a dot and zeros, and captures
    the digits. *)
Lemma trailing_zeros_shape b a s' :
  In s' (matches (trailing_zeros uni_decimal uni_alnum) (MState b a [])) ->
  exists g z,
    consumed (MState b a []) s' = g ++ DOT :: z
    /\ group 1 (groups s') = g
    /\ Forall (fun c => c = ZERO) z.
Proof.
  intros H. apply in_Cat in H. destruct H as (s0 & H0 & H).
  apply in_Boundary in H0. subst s0.
  apply in_Cat in H. destruct H as (s1 & H1 & H).
  apply (in_Group_went (fun _ => True)) in H1.
  2:{ intros s1' Hs1'. apply in_Plus_Set in Hs1'.
      destruct Hs1' as (w & _ & _ & Hw). exists w. split; [exact I|exact Hw]. }
  destruct H1 as (g & _ & Hg & Hgr).
  apply in_Cat in H. destruct H as (s2 & H2 & H).
  apply in_Chr in H2.
  apply in_Cat in H. destruct H as (s3 & H3 & H).
  apply in_Plus_Set in H3. destruct H3 as (z & _ & Hz & H3).
  apply in_Ahead in H. subst s'.
  pose proof (went_trans _ _ _ _ _ H2 H3) as [Hah Hgr'].
  exists g, z. split; [|split].
  - apply consumed_forward. rewrite Hg, Hah, <- !app_assoc. reflexivity.
  - rewrite Hgr', Hgr. reflexivity.
  - eapply List.Forall_impl; [|exact Hz]. intros c Hc.
    apply N.eqb_eq in Hc. symmetry. exact Hc.
Qed.

(** [\b0\.([1-9]\d* )\b], the space apart, matches a zero, a dot and
    digits, and captures the digits. *)
Lemma leading_zero_shape b a s' :
  In s' (matches (leading_zero uni_decimal uni_alnum) (MState b a [])) ->
  exists g,
    consumed (MState b a []) s' = ZERO :: DOT :: g
    /\ group 1 (groups s') = g.
Proof.
  intros H. apply in_Cat in H. destruct H as (s0 & H0 & H).
  apply in_Boundary in H0. subst s0.
  apply in_Cat in H. destruct H as (s1 & H1 & H).
  apply in_Chr in H1.
  apply in_Cat in H. destruct H as (s2 & H2 & H).
  apply in_Chr in H2.
  pose proof (went_trans _ _ _ _ _ H1 H2) as [Hah Hgr].
  apply in_Cat in H. destruct H as (s3 & H3 & H).
  apply (in_Group_went (fun _ => True)) in H3.
  2:{ intros s3' Hs3'. apply in_Cat in Hs3'. destruct Hs3' as (s4 & H4 & H5).
      apply in_Set in H4. destruct H4 as (c & _ & H4).
      apply in_Star_Set in H5. destruct H5 as (w & _ & H5).
      exists ([c] ++ w). split; [exact I|eapply went_trans; eassumption]. }
  destruct H3 as (g & _ & Hg & Hgr3).
  apply in_Boundary in H. subst s'.
  exists g. split.
  - apply consumed_forward. rewrite Hah, Hg. reflexivity.
  - rewrite Hgr3, Hgr. reflexivity.
Qed.

Lemma optimize_sublist t :
  sublist (optimize_float_literals uni_decimal uni_alnum t) t.
Proof.
  unfold optimize_float_literals.
  transitivity (re_sub (trailing_zeros uni_decimal uni_alnum)
                       (fun m => group 1 (captured m) ++ [DOT]) t);
    apply re_sub_sublist; intros b a s' H.
  - apply leading_zero_shape in H. destruct H as (g & -> & Hg).
    cbn [hit_of captured]. rewrite Hg. apply sublist_cons. reflexivity.
  - apply trailing_zeros_shape in H. destruct H as (g & z & -> & Hg & _).
    cbn [hit_of captured]. rewrite Hg.
    apply sublist_app; [reflexivity|].
    apply sublist_skip, sublist_nil_l.
Qed.

Lemma without_app c x y : without c (x ++ y) = without c x ++ without c y.
Proof. apply List.filter_app. Qed.

Lemma without_all c z : Forall (fun d => d = c) z -> without c z = [].
Proof.
  induction 1 as [|d z Hd _ IH]; [reflexivity|].
  unfold without in *. cbn [List.filter]. subst d. rewrite N.eqb_refl. exact IH.
Qed.

Lemma re_sub_without c r repl t :
  (forall b a s', In s' (matches r (MState b a [])) ->
     without c (repl (hit_of (MState b a []) s'))
     = without c (consumed (MState b a []) s')) ->
  without c (re_sub r repl t) = without c t.
Proof.
  apply (re_sub_pieces (fun x y => without c x = without c y)).
  - reflexivity.
  - reflexivity.
  - intros x y x' y' H1 H2. rewrite !without_app. congruence.
Qed.

Lemma optimize_without_zero t :
  without ZERO (optimize_float_literals uni_decimal uni_alnum t)
  = without ZERO t.
Proof.
  unfold optimize_float_literals.
  transitivity (without ZERO
                  (re_sub (trailing_zeros uni_decimal uni_alnum)
                          (fun m => group 1 (captured m) ++ [DOT]) t));
    apply re_sub_without; intros b a s' H.
  - apply leading_zero_shape in H. destruct H as (g & -> & Hg).
    cbn [hit_of captured]. rewrite Hg. reflexivity.
  - apply trailing_zeros_shape in H. destruct H as (g & z & -> & Hg & Hz).
    cbn [hit_of captured]. rewrite Hg.
    change (DOT :: z) with ([DOT] ++ z).
    rewrite !without_app, (without_all ZERO z Hz), app_nil_r. reflexivity.
Qed.

End LiteralFacts.

(** * Texts the passes have nothing to do on *)

(** Where every match of the pattern holds the character [c], a text
    without [c] is scanned into its characters. *)
Lemma finditer_untouched c r t :
  (forall b a s', In s' (matches r (MState b a [])) ->
     In c (consumed (MState b a []) s')) ->
  ~ In c t -> finditer r t = map Keep t.
Proof.
  intros Hhit Hc. destruct (finditer_pieces r t) as [Hall Hsrc].
  assert (H : forall l, Forall (from_match r) l ->
            ~ In c (flat_map source l) -> l = map Keep (flat_map source l)).
  { induction 1 as [|p l Hp _ IH]; intros Hl; [reflexivity|].
    cbn [flat_map] in *. rewrite in_app_iff in Hl.
    destruct p as [d|h].
    - cbn [source app map]. f_equal. apply IH. tauto.
    - exfalso. destruct Hp as (b & a & s' & Hin & ->).
      apply Hl. left. apply Hhit, Hin. }
  rewrite <- Hsrc in Hc. specialize (H _ Hall Hc).
  rewrite Hsrc in H. exact H.
Qed.

Lemma re_sub_untouched c r repl t :
  (forall b a s', In s' (matches r (MState b a [])) ->
     In c (consumed (MState b a []) s')) ->
  ~ In c t -> re_sub r repl t = t.
Proof.
  intros Hhit Hc. unfold re_sub. rewrite (finditer_untouched c r t Hhit Hc).
  clear. induction t as [|d t IH]; [reflexivity|].
  cbn [map flat_map render app]. rewrite IH. reflexivity.
Qed.

(** A match of a pattern that opens with the text [w] opens with [w]. *)
Lemma in_Lit_then w r s s' :
  In s' (matches (Cat (Lit w) r) s) -> exists w', consumed s s' = w ++ w'.
Proof.
  intros H. apply in_Cat in H. destruct H as (s1 & H1 & H2).
  apply in_Lit in H1. destruct H1 as [H1 _].
  apply matches_forward in H2. destruct H2 as [w' H2].
  exists w'. apply consumed_forward. rewrite H1, H2, app_assoc. reflexivity.
Qed.

Lemma block_comment_slash b a s' :
  In s' (matches block_comment (MState b a [])) ->
  In SLASH (consumed (MState b a []) s').
Proof.
  intros H. apply in_Lit_then in H. destruct H as [w' ->]. left. reflexivity.
Qed.

Lemma line_comment_slash b a s' :
  In s' (matches line_comment (MState b a [])) ->
  In SLASH (consumed (MState b a []) s').
Proof.
  intros H. apply in_Lit_then in H. destruct H as [w' ->]. left. reflexivity.
Qed.

Lemma remove_comments_untouched t : ~ In SLASH t -> remove_comments t = t.
Proof.
  intros Hc. unfold remove_comments.
  rewrite (re_sub_untouched SLASH block_comment _ t block_comment_slash Hc).
  apply (re_sub_untouched SLASH line_comment _ t line_comment_slash Hc).
Qed.

Lemma optimize_untouched uni_decimal uni_alnum t :
  ~ In DOT t -> optimize_float_literals uni_decimal uni_alnum t = t.
Proof.
  intros Hc. unfold optimize_float_literals.
  rewrite (re_sub_untouched DOT (trailing_zeros uni_decimal uni_alnum) _ t).
  - apply (re_sub_untouched DOT); [|exact Hc].
    intros b a s' H. apply leading_zero_shape in H.
    destruct H as (g & -> & _). right. left. reflexivity.
  - intros b a s' H. apply trailing_zeros_shape in H.
    destruct H as (g & z & -> & _). apply in_app_iff. right. left. reflexivity.
  - exact Hc.
Qed.

Lemma include_pattern_hash b a s' :
  In s' (matches include_pattern (MState b a [])) ->
  In HASH (consumed (MState b a []) s').
Proof.
  intros H. apply in_Cat in H. destruct H as (s0 & H0 & H).
  apply in_Bol in H0. subst s0.
  apply in_Cat in H. destruct H as (s1 & H1 & H).
  apply in_Star_Set in H1. destruct H1 as (ws & _ & [H1 _]).
  pose proof (in_Lit_then _ _ _ _ H) as [w' Hw'].
  pose proof (matches_forward _ _ _ H) as [w Hw].
  rewrite (consumed_forward _ _ _ Hw) in Hw'. subst w.
  erewrite consumed_forward; [|rewrite H1, Hw, app_assoc; reflexivity].
  apply in_app_iff. right. left. reflexivity.
Qed.

Lemma sub_with_chars repl t st : sub_with repl (map Keep t) st = Some (t, st).
Proof.
  induction t as [|c t IH]; [reflexivity|].
  cbn [map sub_with]. rewrite IH. reflexivity.
Qed.

(** * No line comment is left *)

Lemma strip_prefix_app w : forall post, strip_prefix w (w ++ post) = Some post.
Proof.
  induction w as [|c w IH]; intros post; [reflexivity|].
  cbn [app strip_prefix]. rewrite N.eqb_refl. apply IH.
Qed.

Lemma strip_prefix_Some w : forall a rest,
  strip_prefix w a = Some rest -> a = w ++ rest.
Proof.
  induction w as [|x w IH]; intros a rest H.
  - injection H as ->. reflexivity.
  - destruct a as [|c t]; [discriminate|]. cbn [strip_prefix] in H.
    destruct (x =? c) eqn:E; [|discriminate].
    apply N.eqb_eq in E. subst c. cbn [app]. f_equal. apply IH, H.
Qed.

Lemma find_eq w a :
  find w a
  = match strip_prefix w a with
    | Some _ => Some 0%nat
    | None =>
        match a with
        | [] => None
        | _ :: t => option_map S (find w t)
        end
    end.
Proof. destruct a; reflexivity. Qed.

Lemma find_None w : forall pre post,
  find w (pre ++ w ++ post) = None -> False.
Proof.
  induction pre as [|c pre IH]; intros post H; rewrite find_eq in H.
  - cbn [app] in H. rewrite strip_prefix_app in H. discriminate H.
  - cbn [app] in H.
    destruct (strip_prefix w (c :: pre ++ w ++ post)); [discriminate|].
    destruct (find w (pre ++ w ++ post)) eqn:E; [discriminate|].
    eapply IH, E.
Qed.

Lemma span_take_drop p a :
  a = take (span p a) a ++ drop (span p a) a
  /\ length (take (span p a) a) = span p a
  /\ match drop (span p a) a with
     | [] => True
     | d :: _ => p d = false
     end.
Proof.
  split; [symmetry; apply take_drop|]. split.
  - apply length_take_le, span_le.
  - induction a as [|c a IH]; [exact I|].
    cbn [span]. destruct (p c) eqn:Hc; [exact IH|exact Hc].
Qed.

(** The scan for line comments leaves no [//], and what it leaves
    starts with a slash only where the text does and no comment
    starts. *)
Lemma rewrite_line_at n : forall a b,
  (length a <= n)%nat ->
  find (str "//") (rewrite line_at 0 b a) = None
  /\ (head (rewrite line_at 0 b a) = Some SLASH ->
      head a = Some SLASH /\ line_at b a = None).
Proof.
  induction n as [|n IH]; intros [|c t] b Hlen; cbn [length] in Hlen;
    try lia; try (split; [reflexivity|discriminate]).
  cbn [rewrite]. destruct (line_at b (c :: t)) as [[k out]|] eqn:Hat.
  - unfold line_at in Hat.
    destruct (strip_prefix (str "//") (c :: t)) as [rest|] eqn:Hpre;
      [|discriminate].
    injection Hat as <- <-. cbn [app].
    assert (Ht : t = SLASH :: rest).
    { apply strip_prefix_Some in Hpre.
      change (str "//" ++ rest) with (SLASH :: SLASH :: rest) in Hpre.
      congruence. }
    subst t. cbn [rewrite].
    destruct (span_take_drop not_newline rest) as (Hsplit & Hlen' & Hstop).
    pose proof (rewrite_skip line_at (take (span not_newline rest) rest)
                  (SLASH :: c :: b) (drop (span not_newline rest) rest)) as Hrw.
    rewrite take_drop, Hlen' in Hrw. rewrite Hrw. clear Hrw.
    set (b' := rev (take (span not_newline rest) rest) ++ SLASH :: c :: b).
    set (a' := drop (span not_newline rest) rest) in *.
    assert (Hshort : (length a' <= n)%nat).
    { unfold a'. rewrite length_drop. cbn [length] in Hlen. lia. }
    destruct (IH a' b' Hshort) as [Hfind Hhead].
    split; [exact Hfind|].
    intros Hs. destruct (Hhead Hs) as [Ha' _].
    destruct a' as [|d a'']; [discriminate|].
    injection Ha' as ->. discriminate Hstop.
  - destruct (IH t (c :: b) ltac:(lia)) as [Hfind Hhead].
    split.
    + rewrite find_eq, Hfind. cbn [option_map].
      destruct (strip_prefix (str "//") (c :: rewrite line_at 0 (c :: b) t))
        as [rest|] eqn:Hpre; [|reflexivity].
      exfalso. apply strip_prefix_Some in Hpre.
      change (str "//" ++ rest) with (SLASH :: SLASH :: rest) in Hpre.
      injection Hpre as -> Hout.
      destruct Hhead as [Ht _]; [rewrite Hout; reflexivity|].
      destruct t as [|d t']; [discriminate|]. injection Ht as ->.
      unfold line_at in Hat.
      change (SLASH :: SLASH :: t') with (str "//" ++ t') in Hat.
      rewrite strip_prefix_app in Hat. discriminate Hat.
    + intros Hs. cbn [head] in Hs. split; [exact Hs|reflexivity].
Qed.

Lemma remove_comments_line_at t :
  remove_comments t
  = rewrite line_at 0 [] (re_sub block_comment (fun _ => []) t).
Proof.
  unfold remove_comments.
  apply (re_sub_rewrite line_comment (fun _ => []) line_at).
  apply line_comment_first.
Qed.

(** * The files a resolution reads *)

Section ReadFacts.

Variable fs : filesystem.

Lemma reads_refl st : reads fs [] st st.
Proof.
  unfold reads. rewrite app_nil_r.
  refine (conj eq_refl (conj (NoDup_nil_2) (conj _ (conj _ _)))).
  - intros f Hf. apply elem_of_nil in Hf. destruct Hf.
  - rewrite list_to_set_nil, union_empty_r_L. reflexivity.
  - exists []. split; [rewrite app_nil_r; reflexivity|].
    intros p Hp. apply elem_of_nil in Hp. destruct Hp.
Qed.

Lemma reads_trans n1 n2 st st1 st2 :
  reads fs n1 st st1 -> reads fs n2 st1 st2 -> reads fs (n1 ++ n2) st st2.
Proof.
  intros (O1 & D1 & F1 & I1 & m1 & E1 & M1) (O2 & D2 & F2 & I2 & m2 & E2 & M2).
  refine (conj _ (conj _ (conj _ (conj _ _)))).
  - rewrite O2, O1, app_assoc. reflexivity.
  - apply NoDup_app. split; [exact D1|]. split; [|exact D2].
    intros f Hf1 Hf2. destruct (F2 f Hf2) as [_ Hno]. apply Hno.
    rewrite I1, elem_of_union, elem_of_list_to_set. right. exact Hf1.
  - intros f Hf. apply elem_of_app in Hf. destruct Hf as [Hf|Hf].
    + apply F1, Hf.
    + destruct (F2 f Hf) as [Hd Hno]. split; [exact Hd|].
      intros Hin. apply Hno. rewrite I1, elem_of_union. left. exact Hin.
  - rewrite I2, I1, list_to_set_app_L, assoc_L; [reflexivity|apply _].
  - exists (m1 ++ m2). split.
    + rewrite E2, E1, flat_map_app, app_assoc. reflexivity.
    + intros p Hp. apply elem_of_app in Hp. destruct Hp; auto.
Qed.

Lemma reads_eprint file st :
  files fs !! file = None ->
  reads fs [] st (eprint (str "Include not found: " ++ file) st).
Proof.
  intros Hfile. unfold reads, eprint. cbn [opened included_files stderr].
  rewrite app_nil_r.
  refine (conj eq_refl (conj (NoDup_nil_2) (conj _ (conj _ _)))).
  - intros f Hf. apply elem_of_nil in Hf. destruct Hf.
  - rewrite list_to_set_nil, union_empty_r_L. reflexivity.
  - exists [file]. split.
    + cbn [flat_map]. unfold not_found.
      rewrite app_nil_r, <- app_assoc. reflexivity.
    + intros p Hp. apply list_elem_of_singleton in Hp. subst p. exact Hfile.
Qed.

Lemma reads_add file content st :
  files fs !! file = Some content -> file ∉ included_files st ->
  reads fs [file] st (add_included file st).
Proof.
  intros Hfile Hno. unfold reads, add_included.
  cbn [opened included_files stderr].
  refine (conj eq_refl (conj _ (conj _ (conj _ _)))).
  - apply NoDup_singleton.
  - intros f Hf. apply list_elem_of_singleton in Hf. subst f.
    split; [|exact Hno]. apply elem_of_dom. exists content. exact Hfile.
  - apply set_eq. intros f.
    rewrite !elem_of_union, elem_of_list_to_set, list_elem_of_singleton,
      elem_of_singleton. tauto.
  - exists []. split; [rewrite app_nil_r; reflexivity|].
    intros p Hp. apply elem_of_nil in Hp. destruct Hp.
Qed.

Lemma replacer_reads recur base_path m st r st' :
  (forall c b s o s', recur c b s = Some (o, s') -> exists new, reads fs new s s') ->
  replacer fs recur base_path m st = Some (r, st') ->
  exists new, reads fs new st st'.
Proof.
  intros Hrec. unfold replacer.
  set (file := canonical fs (join fs base_path (group 1 (captured m)))).
  case_decide as Hin.
  - intros [= <- <-]. exists []. apply reads_refl.
  - destruct (files fs !! file) as [content|] eqn:Hfile.
    + destruct (recur content (parent fs file) (add_included file st))
        as [[inlined s1]|] eqn:Hr; [|discriminate].
      intros [= <- <-]. destruct (Hrec _ _ _ _ _ Hr) as [new Hnew].
      exists ([file] ++ new).
      eapply reads_trans; [eapply reads_add; eassumption|exact Hnew].
    + intros [= <- <-]. exists []. apply reads_eprint, Hfile.
Qed.

Lemma sub_with_reads repl pieces : forall st out st',
  (forall m s r s', repl m s = Some (r, s') -> exists new, reads fs new s s') ->
  sub_with repl pieces st = Some (out, st') ->
  exists new, reads fs new st st'.
Proof.
  induction pieces as [|[c|m] pieces IH]; intros st out st' Hrepl;
    cbn [sub_with].
  - intros [= <- <-]. exists []. apply reads_refl.
  - destruct (sub_with repl pieces st) as [[o s1]|] eqn:E; [|discriminate].
    intros [= <- <-]. eapply IH; eassumption.
  - destruct (repl m st) as [[r s1]|] eqn:E1; [|discriminate].
    destruct (sub_with repl pieces s1) as [[o s2]|] eqn:E2; [|discriminate].
    intros [= <- <-].
    destruct (Hrepl _ _ _ _ E1) as [n1 H1].
    destruct (IH _ _ _ Hrepl E2) as [n2 H2].
    exists (n1 ++ n2). eapply reads_trans; eassumption.
Qed.

Lemma process_includes_reads fuel : forall shader_content base_path st out st',
  process_includes fs fuel shader_content base_path st = Some (out, st') ->
  exists new, reads fs new st st'.
Proof.
  induction fuel as [|fuel IH]; intros shader_content base_path st out st';
    [discriminate|].
  cbn [process_includes]. apply sub_with_reads.
  intros m s r s'. apply replacer_reads.
  intros c b s0 o s0'. apply IH.
Qed.

(** ** The characters a resolution puts out *)

Variable Q : char -> Prop.
Hypothesis Q_LF : Q LF.
Hypothesis Q_files : forall p content, files fs !! p = Some content -> Forall Q content.

Lemma replacer_chars recur base_path m st r st' :
  (forall c b s o s', Forall Q c -> recur c b s = Some (o, s') -> Forall Q o) ->
  replacer fs recur base_path m st = Some (r, st') -> Forall Q r.
Proof.
  intros Hrec. unfold replacer.
  set (file := canonical fs (join fs base_path (group 1 (captured m)))).
  case_decide as Hin; [intros [= <- <-]; constructor|].
  destruct (files fs !! file) as [content|] eqn:Hfile;
    [|intros [= <- <-]; constructor].
  destruct (recur content (parent fs file) (add_included file st))
    as [[inlined s1]|] eqn:Hr; [|discriminate].
  intros [= <- <-]. apply Forall_app. split.
  - eapply Hrec; [eapply Q_files, Hfile|exact Hr].
  - repeat constructor. exact Q_LF.
Qed.

Lemma sub_with_keeps repl pieces : forall st out st',
  (forall m s r s', repl m s = Some (r, s') -> Forall Q r) ->
  Forall Q (flat_map source pieces) ->
  sub_with repl pieces st = Some (out, st') -> Forall Q out.
Proof.
  induction pieces as [|[c|m] pieces IH]; intros st out st' Hrepl Hsrc;
    cbn [sub_with].
  - intros [= <- <-]. constructor.
  - destruct (sub_with repl pieces st) as [[o s1]|] eqn:E; [|discriminate].
    intros [= <- <-]. cbn [flat_map source app] in Hsrc.
    inversion Hsrc as [|? ? Hc Hrest]; subst.
    constructor; [exact Hc|]. eapply IH; eassumption.
  - destruct (repl m st) as [[r s1]|] eqn:E1; [|discriminate].
    destruct (sub_with repl pieces s1) as [[o s2]|] eqn:E2; [|discriminate].
    intros [= <- <-]. cbn [flat_map] in Hsrc. apply Forall_app in Hsrc.
    apply Forall_app. split; [eapply Hrepl, E1|].
    eapply IH; [exact Hrepl|apply Hsrc|exact E2].
Qed.

Lemma process_includes_keeps fuel : forall shader_content base_path st out st',
  Forall Q shader_content ->
  process_includes fs fuel shader_content base_path st = Some (out, st') ->
  Forall Q out.
Proof.
  induction fuel as [|fuel IH]; intros shader_content base_path st out st' Ht;
    [discriminate|].
  cbn [process_includes]. apply sub_with_keeps.
  - intros m s r s'. apply replacer_chars.
    intros c b s0 o s0' Hc. apply IH, Hc.
  - destruct (finditer_pieces include_pattern shader_content) as [_ ->].
    exact Ht.
Qed.

End ReadFacts.

(** * What a resolution reports *)

Section ReportFacts.

Variable fs : filesystem.

Lemma missing_among_one base_path m :
  missing_among fs base_path [Found m]
  = match files fs !! target fs base_path m with
    | None => [target fs base_path m]
    | Some _ => []
    end.
Proof. unfold missing_among. cbn [flat_map]. apply app_nil_r. Qed.

Lemma missing_among_cons base_path p pieces :
  missing_among fs base_path (p :: pieces)
  = missing_among fs base_path [p] ++ missing_among fs base_path pieces.
Proof. unfold missing_among. cbn [flat_map]. rewrite app_nil_r. reflexivity. Qed.

Lemma replacer_reports recur base_path m st r st' :
  (forall c b s o s', recur c b s = Some (o, s') ->
     reports fs (missing_in fs b c) s s'
     /\ (included_files s ⊆ dom (files fs) ->
         included_files s' ⊆ dom (files fs))) ->
  replacer fs recur base_path m st = Some (r, st') ->
  reports fs (missing_among fs base_path [Found m]) st st'.
Proof.
  intros Hrec. rewrite missing_among_one. unfold replacer.
  fold (target fs base_path m). set (file := target fs base_path m).
  case_decide as Hin.
  - intros [= <- <-]. exists [], [].
    rewrite ?app_nil_r. cbn [flat_map]. rewrite ?app_nil_r.
    split; [reflexivity|]. split; [reflexivity|].
    split; [intros p Hp; apply elem_of_nil in Hp; destruct Hp|].
    intros Hst. apply Hst, elem_of_dom in Hin. destruct Hin as [c ->].
    reflexivity.
  - destruct (files fs !! file) as [content|] eqn:Hfile.
    + destruct (recur content (parent fs file) (add_included file st))
        as [[inlined s1]|] eqn:Hr; [|discriminate].
      intros [= <- <-].
      destruct (Hrec _ _ _ _ _ Hr) as [(new & missing & Ho & He & Hn & Hp) _].
      exists (file :: new), missing.
      split; [rewrite Ho; cbn [add_included opened];
              rewrite <- app_assoc; reflexivity|].
      split; [exact He|]. split; [exact Hn|].
      intros Hst. cbn [app flat_map]. unfold missing_of at 1.
      rewrite Hfile. apply Hp.
      cbn [add_included included_files].
      intros f Hf. apply elem_of_union in Hf as [Hf|Hf]; [|apply Hst, Hf].
      apply elem_of_singleton in Hf. subst f. apply elem_of_dom. eauto.
    + intros [= <- <-]. exists [], [file].
      split; [rewrite app_nil_r; reflexivity|].
      split.
      { unfold eprint. cbn [stderr flat_map]. rewrite app_nil_r.
        reflexivity. }
      split; [intros p Hp; apply list_elem_of_singleton in Hp; subst p;
              exact Hfile|].
      intros _. cbn [flat_map]. rewrite app_nil_r. reflexivity.
Qed.

Lemma sub_with_reports repl base_path pieces : forall st out st',
  (forall m s r s', repl m s = Some (r, s') ->
     reports fs (missing_among fs base_path [Found m]) s s'
     /\ (included_files s ⊆ dom (files fs) ->
         included_files s' ⊆ dom (files fs))) ->
  sub_with repl pieces st = Some (out, st') ->
  reports fs (missing_among fs base_path pieces) st st'.
Proof.
  induction pieces as [|[c|m] pieces IH]; intros st out st' Hrepl;
    cbn [sub_with].
  - intros [= <- <-]. exists [], []. cbn [flat_map missing_among].
    rewrite ?app_nil_r.
    split; [reflexivity|]. split; [reflexivity|].
    split; [intros p Hp; apply elem_of_nil in Hp; destruct Hp|].
    intros _. reflexivity.
  - destruct (sub_with repl pieces st) as [[o s1]|] eqn:E; [|discriminate].
    intros [= <- <-]. exact (IH _ _ _ Hrepl E).
  - destruct (repl m st) as [[r s1]|] eqn:E1; [|discriminate].
    destruct (sub_with repl pieces s1) as [[o s2]|] eqn:E2; [|discriminate].
    intros [= <- <-].
    destruct (Hrepl _ _ _ _ E1) as [(n1 & m1 & O1 & S1 & N1 & P1) Hin1].
    destruct (IH _ _ _ Hrepl E2) as (n2 & m2 & O2 & S2 & N2 & P2).
    exists (n1 ++ n2), (m1 ++ m2).
    split; [rewrite O2, O1, app_assoc; reflexivity|].
    split; [rewrite S2, S1, flat_map_app, app_assoc; reflexivity|].
    split; [intros p Hp; apply elem_of_app in Hp; destruct Hp; auto|].
    intros Hst. rewrite (P1 Hst), (P2 (Hin1 Hst)), flat_map_app.
    rewrite (missing_among_cons base_path (Found m) pieces).
    set (a := missing_among fs base_path [Found m]).
    set (b := missing_among fs base_path pieces).
    set (c := flat_map (missing_of fs) n1).
    set (d := flat_map (missing_of fs) n2).
    rewrite <- !app_assoc. apply Permutation_app_head.
    rewrite !app_assoc. apply Permutation_app_tail.
    apply Permutation_app_comm.
Qed.

Lemma process_includes_reports fuel :
  forall shader_content base_path st out st',
  process_includes fs fuel shader_content base_path st = Some (out, st') ->
  reports fs (missing_in fs base_path shader_content) st st'.
Proof.
  induction fuel as [|fuel IH]; intros shader_content base_path st out st';
    [discriminate|].
  cbn [process_includes]. unfold missing_in. apply sub_with_reports.
  intros m s r s' Hr. split.
  - eapply replacer_reports; [|exact Hr].
    intros c b s0 o s0' H0. split; [eapply IH; exact H0|].
    intros Hs. eapply process_includes_in_files; eassumption.
  - intros Hs. eapply replacer_in_files; [|exact Hs|exact Hr].
    intros c b s0 o s0' Hs0. apply process_includes_in_files. exact Hs0.
Qed.

End ReportFacts.

(** * The characters the passes put out *)

Lemma sublist_keeps (Q : char -> Prop) (x y : text) :
  sublist x y -> keeps Q x y.
Proof.
  unfold keeps. induction 1 as [|c x y _ IH|c x y _ IH]; intros Hy.
  - constructor.
  - inversion Hy; subst. constructor; auto.
  - inversion Hy; subst. auto.
Qed.

Lemma sublist_visible (x y : text) :
  sublist x y -> sublist (visible x) (visible y).
Proof.
  unfold visible. induction 1 as [|c x y _ IH|c x y _ IH]; cbn [List.filter].
  - constructor.
  - destruct (negb (isspace c)); [apply sublist_skip|]; exact IH.
  - destruct (negb (isspace c)); [apply sublist_cons|]; exact IH.
Qed.

Section Keeps.

Variable Q : char -> Prop.
Hypothesis Q_LF : Q LF.
Hypothesis Q_SPACE : Q SPACE.

Lemma keeps_refl x : keeps Q x x.
Proof. intros H. exact H. Qed.

Lemma keeps_trans x y z : keeps Q x y -> keeps Q y z -> keeps Q x z.
Proof. unfold keeps. auto. Qed.

Lemma keeps_app x y x' y' :
  keeps Q x y -> keeps Q x' y' -> keeps Q (x ++ x') (y ++ y').
Proof.
  unfold keeps. intros H1 H2 H. apply Forall_app in H.
  apply Forall_app. split; [apply H1|apply H2]; apply H.
Qed.

Lemma re_sub_keeps r repl t :
  (forall b a s', In s' (matches r (MState b a [])) ->
     keeps Q (repl (hit_of (MState b a []) s')) (consumed (MState b a []) s')) ->
  keeps Q (re_sub r repl t) t.
Proof.
  apply re_sub_pieces.
  - apply keeps_refl.
  - intros c. apply keeps_refl.
  - apply keeps_app.
Qed.

Lemma collapse_keeps t : keeps Q (re_sub hspaces (fun _ => [SPACE]) t) t.
Proof.
  apply re_sub_keeps. intros b a s' _ _. repeat constructor. exact Q_SPACE.
Qed.

Lemma strip_around_keeps sym t : keeps Q (strip_around t sym) t.
Proof.
  unfold strip_around.
  eapply keeps_trans; apply re_sub_keeps; intros b a s' H.
  - apply spaces_after_shape in H. destruct H as (w & _ & _ & H).
    rewrite (went_consumed _ _ _ H). intros Hq. inversion Hq; subst.
    repeat constructor. assumption.
  - apply spaces_before_shape in H. destruct H as (w & _ & _ & H).
    rewrite (went_consumed _ _ _ H). intros Hq. apply Forall_app in Hq.
    apply Hq.
Qed.

Lemma leading_hash_keeps t : keeps Q (re_sub leading_hash (fun _ => [HASH]) t) t.
Proof.
  apply re_sub_keeps. intros b a s' H.
  apply leading_hash_shape in H. destruct H as (w & _ & H).
  rewrite (went_consumed _ _ _ H). intros Hq. apply Forall_app in Hq.
  apply Hq.
Qed.

Lemma normalize_line_keeps l : keeps Q (normalize_line l) l.
Proof.
  unfold normalize_line. destruct (is_directive l).
  - eapply keeps_trans; [apply collapse_keeps|apply leading_hash_keeps].
  - eapply keeps_trans; [apply collapse_keeps|].
    generalize symbols. intros syms. revert l.
    induction syms as [|s ss IH]; intros l; [apply keeps_refl|].
    cbn [fold_left]. eapply keeps_trans; [apply IH|apply strip_around_keeps].
Qed.

Lemma normalize_spaces_keeps t : keeps Q (normalize_spaces t) t.
Proof.
  unfold normalize_spaces. rewrite <- (join_nl_split_nl t) at 2.
  assert (Hopened : forall ls,
            keeps Q (opened_lines (map normalize_line ls)) (opened_lines ls)).
  { induction ls as [|l ls IH]; [apply keeps_refl|].
    cbn [map]. rewrite !opened_lines_cons.
    apply keeps_app; [apply keeps_refl|].
    apply keeps_app; [apply normalize_line_keeps|exact IH]. }
  destruct (split_nl t) as [|l ls]; [apply keeps_refl|].
  cbn [map]. rewrite !join_nl_cons.
  apply keeps_app; [apply normalize_line_keeps|apply Hopened].
Qed.

Lemma splitlines_keeps t : Forall Q t -> Forall (Forall Q) (splitlines t).
Proof.
  assert (H : forall n t, (length t <= n)%nat -> Forall Q t ->
            Forall (Forall Q) (splitlines t)).
  { induction n as [|n IH]; intros [|c t'] Hlen Hq; cbn [length] in Hlen;
      try lia; try (constructor; fail).
    inversion Hq as [|? ? Hc Hq']; subst.
    cbn [splitlines]. destruct (is_linebreak c).
    - constructor; [constructor|].
      destruct t' as [|c' t'']; [constructor|].
      inversion Hq'; subst.
      destruct ((c =? CR) && (c' =? LF)); apply IH;
        cbn [length] in *; try lia; assumption.
    - pose proof (IH t' ltac:(lia) Hq') as Ht'.
      destruct (splitlines t') as [|l ls].
      + repeat constructor. exact Hc.
      + inversion Ht'; subst. constructor; [constructor|]; assumption. }
  intros Hq. apply (H (length t)); [lia|exact Hq].
Qed.

Lemma compact_from_keeps (ls : list text) : forall prev,
  Forall (Forall Q) ls -> Forall Q (compact_from prev ls).
Proof.
  induction ls as [|l ls IH]; intros prev Hls; [constructor|].
  inversion Hls; subst. cbn [compact_from].
  apply Forall_app. split.
  - destruct (separated prev l (head ls)); [|constructor].
    repeat constructor. exact Q_LF.
  - apply Forall_app. split; [assumption|apply IH; assumption].
Qed.

Lemma remove_newlines_keeps x : keeps Q (remove_newlines x) x.
Proof.
  intros Hq. rewrite remove_newlines_compact.
  assert (Hkept : Forall (Forall Q) (kept_lines x)).
  { unfold kept_lines. apply List.Forall_forall. intros l Hl.
    apply filter_In in Hl. destruct Hl as [Hl _].
    pose proof (splitlines_keeps x Hq) as Hall.
    rewrite List.Forall_forall in Hall. apply Hall, Hl. }
  destruct (kept_lines x) as [|l ls]; [constructor|].
  inversion Hkept; subst. cbn [compact].
  apply Forall_app. split; [assumption|apply compact_from_keeps; assumption].
Qed.

Lemma passes_keep uni_decimal uni_alnum t :
  keeps Q (optimize_float_literals uni_decimal uni_alnum
             (normalize_spaces (remove_newlines (remove_comments t)))) t.
Proof.
  eapply keeps_trans; [apply sublist_keeps, optimize_sublist|].
  eapply keeps_trans; [apply normalize_spaces_keeps|].
  eapply keeps_trans; [apply remove_newlines_keeps|].
  apply sublist_keeps, remove_comments_sublist.
Qed.

End Keeps.

Lemma scalar_text t :
  forallb is_scalar t = true -> Forall (fun c => is_scalar c = true) t.
Proof.
  intros H. apply List.Forall_forall. apply forallb_forall. exact H.
Qed.

(** * The shape of a normalised text *)

Lemma single_spaced_spec t :
  single_spaced t = true ->
  ~ In TAB t /\ forall pre post, t <> pre ++ SPACE :: SPACE :: post.
Proof.
  intros H. split.
  - induction t as [|c t IH]; [intros []|].
    cbn [single_spaced] in H. apply andb_true_iff in H. destruct H as [H Ht].
    apply andb_true_iff in H. destruct H as [Hc _].
    intros [Heq|Hin]; [rewrite Heq in Hc; discriminate Hc|].
    apply IH; assumption.
  - intros pre. revert t H. induction pre as [|p pre IH]; intros t H post ->.
    + discriminate H.
    + cbn [app single_spaced] in H. apply andb_true_iff in H.
      destruct H as [_ H]. eapply IH; [exact H|reflexivity].
Qed.

Lemma single_spaced_line l rest :
  single_spaced (l ++ LF :: rest) = single_spaced l && single_spaced rest.
Proof.
  induction l as [|c l IH]; [reflexivity|].
  cbn [app single_spaced]. rewrite IH.
  replace (head_is (N.eqb SPACE) (l ++ LF :: rest))
    with (head_is (N.eqb SPACE) l) by (destruct l; reflexivity).
  rewrite !andb_assoc. reflexivity.
Qed.

Lemma single_spaced_join ls :
  Forall (fun l => single_spaced l = true) ls -> single_spaced (join_nl ls) = true.
Proof.
  induction 1 as [|l ls Hl _ IH]; [reflexivity|].
  destruct ls as [|l' ls']; [exact Hl|].
  change (join_nl (l :: l' :: ls')) with (l ++ LF :: join_nl (l' :: ls')).
  rewrite single_spaced_line, Hl, IH. reflexivity.
Qed.

Lemma not_blank c : hspace c = false -> (c =? TAB) = false /\ (c =? SPACE) = false.
Proof.
  unfold hspace. intros H. apply orb_false_iff in H. destruct H. split; assumption.
Qed.

(** Runs that are empty or one space, between characters that are not
    blanks, make a text without tabs and without two spaces side by
    side. *)
Lemma single_spaced_words x last :
  Forall (fun rc => (fst rc = [] \/ fst rc = [SPACE]) /\ hspace (snd rc) = false) x ->
  last = [] \/ last = [SPACE] ->
  single_spaced (words x last) = true.
Proof.
  intros Hx Hlast. induction Hx as [|[r c] x [Hr Hc] _ IH].
  - destruct Hlast as [->| ->]; reflexivity.
  - cbn [fst snd] in Hr, Hc. apply not_blank in Hc. destruct Hc as [Ht Hs].
    assert (Hcw : single_spaced (c :: words x last) = true).
    { cbn [single_spaced]. rewrite Ht, Hs, IH. reflexivity. }
    cbn [words]. destruct Hr as [->| ->]; [exact Hcw|].
    cbn [app]. change (single_spaced (SPACE :: c :: words x last))
      with (negb ((SPACE =? SPACE) && (SPACE =? c))
            && single_spaced (c :: words x last)).
    rewrite Hcw, (N.eqb_sym SPACE c), Hs. reflexivity.
Qed.

Lemma collapse_shape x last : forall prev,
  spaced x last ->
  Forall (fun rc => (fst rc = [] \/ fst rc = [SPACE]) /\ hspace (snd rc) = false)
         (map_runs F_collapse prev x).
Proof.
  induction x as [|[r c] x IH]; intros prev [Hx Hlast]; [constructor|].
  inversion Hx as [|? ? [_ Hc] Hx']; subst. cbn [map_runs].
  constructor; [|apply IH; split; assumption].
  cbn [fst snd]. split; [|exact Hc].
  destruct r; [left|right]; reflexivity.
Qed.

Lemma collapse_single_spaced t :
  single_spaced (re_sub hspaces (fun _ => [SPACE]) t) = true.
Proof.
  rewrite <- (words_enc t) at 1.
  rewrite (runwise_collapse _ _ (spaced_enc t)).
  unfold apply_runs. apply single_spaced_words.
  - apply (collapse_shape _ (snd (enc t))), spaced_enc.
  - destruct (snd (enc t)); [left|right]; reflexivity.
Qed.

Lemma normalize_line_single_spaced l : single_spaced (normalize_line l) = true.
Proof.
  unfold normalize_line. destruct (is_directive l); apply collapse_single_spaced.
Qed.

(** ** Symbols and the blanks around them *)

Lemma existsb_either {A} (f g : A -> bool) l :
  existsb (fun x => f x || g x) l = existsb f l || existsb g l.
Proof.
  induction l as [|x l IH]; [reflexivity|].
  cbn [existsb]. rewrite IH.
  destruct (f x), (g x), (existsb f l), (existsb g l); reflexivity.
Qed.

Lemma F_line_eq prev r next :
  F_line prev r next
  = if symbol_there prev || symbol_there next then []
    else match r with [] => [] | _ :: _ => [SPACE] end.
Proof.
  unfold F_line, F_symbols, F_collapse. rewrite existsb_either.
  replace (existsb (fun s => is_char s next) symbols) with (symbol_there next)
    by (destruct next; reflexivity).
  replace (existsb (fun s => is_char s prev) symbols) with (symbol_there prev)
    by (destruct prev; reflexivity).
  rewrite (orb_comm (symbol_there next)).
  destruct (symbol_there prev || symbol_there next); reflexivity.
Qed.

Lemma is_symbol_not_blank c : hspace c = true -> is_symbol c = false.
Proof.
  unfold hspace. intros H. apply orb_true_iff in H.
  destruct H as [H|H]; apply N.eqb_eq in H; subst c; reflexivity.
Qed.

(** A line rewritten run by run as [normalize_line] does has no blank
    next to a symbol, and does not start with a blank after a symbol. *)
Lemma tight_runs x last : forall prev,
  spaced x last ->
  tight (apply_runs F_line prev x last) = true
  /\ (symbol_there prev = true ->
      head_is hspace (apply_runs F_line prev x last) = false).
Proof.
  induction x as [|[r c] x IH]; intros prev [Hx Hlast].
  - rewrite apply_runs_nil, F_line_eq. cbn [symbol_there]. rewrite orb_false_r.
    destruct (symbol_there prev); [split; reflexivity|].
    split; [|discriminate]. destruct last; reflexivity.
  - inversion Hx as [|? ? [_ Hc] Hx']; subst. cbn [snd] in Hc.
    destruct (IH (Some c) (conj Hx' Hlast)) as [Ht Hh].
    rewrite apply_runs_cons, F_line_eq. cbn [symbol_there] in *.
    set (W := apply_runs F_line (Some c) x last) in *.
    assert (Hcw : tight (c :: W) = true).
    { cbn [tight]. rewrite Hc, Ht. cbn [andb negb].
      destruct (is_symbol c); [rewrite Hh by reflexivity|]; reflexivity. }
    destruct (symbol_there prev) eqn:Hp; cbn [orb].
    + cbn [app]. split; [exact Hcw|]. intros _. exact Hc.
    + destruct (is_symbol c) eqn:Hs.
      * cbn [app]. split; [exact Hcw|discriminate].
      * split; [|discriminate]. destruct r as [|h r]; [exact Hcw|].
        cbn [app]. change (tight (SPACE :: c :: W))
          with (negb (hspace SPACE && is_symbol c)
                && negb (is_symbol SPACE && hspace c) && tight (c :: W)).
        rewrite Hs, Hcw. reflexivity.
Qed.

Lemma normalize_code_tight l : tight (normalize_code l) = true.
Proof.
  rewrite <- (words_enc l) at 1.
  rewrite (runwise_code _ _ (spaced_enc l)).
  apply tight_runs, spaced_enc.
Qed.

Lemma tight_app pre : forall t, tight (pre ++ t) = true -> tight t = true.
Proof.
  induction pre as [|p pre IH]; intros t H; [exact H|].
  cbn [app tight] in H. apply andb_true_iff in H. destruct H as [_ H].
  apply IH, H.
Qed.

Lemma tight_spec t :
  tight t = true ->
  forall pre post c s, hspace c = true -> is_symbol s = true ->
    t <> pre ++ c :: s :: post /\ t <> pre ++ s :: c :: post.
Proof.
  intros H pre post c s Hc Hs. split; intros ->; apply tight_app in H;
    cbn [tight head_is] in H; rewrite Hc, Hs in H.
  - discriminate H.
  - rewrite andb_false_r in H. discriminate H.
Qed.

Lemma is_symbol_In s : In s symbols -> is_symbol s = true.
Proof.
  intros H. apply existsb_exists. exists s. split; [exact H|apply N.eqb_refl].
Qed.

(** The lines of the normalised text are the normalised lines. *)
Lemma normalize_spaces_lines t :
  split_nl (normalize_spaces t) = map normalize_line (split_nl t).
Proof.
  unfold normalize_spaces. apply split_nl_join_nl.
  - pose proof (split_nl_not_nil t). destruct (split_nl t); [congruence|discriminate].
  - apply List.Forall_map. eapply List.Forall_impl; [|apply split_nl_no_LF].
    intros l. apply normalize_line_no_LF.
Qed.

(** * Further properties of the passes *)

(** ** Compaction and normalisation, each on its own *)

(** X1: compaction is idempotent: compacting a compacted text changes
    nothing. *)
Theorem remove_newlines_idempotent (x : text) :
  remove_newlines (remove_newlines x) = remove_newlines x.
Proof.
  destruct (remove_newlines_lines x) as [Hout Hgood].
  pose proof (blocks_good _ (kept_lines_good x)) as Hblocks.
  destruct (blocks_spec (kept_lines x)) as (_ & _ & _ & _ & Hsep).
  rewrite Hout. set (bs := blocks (kept_lines x)) in *.
  apply remove_newlines_fixed; [exact Hgood|].
  assert (Hflags : map is_directive (map (@concat char) bs) = map block_flag bs).
  { rewrite map_map. apply map_ext_Forall.
    eapply List.Forall_impl; [|exact Hblocks]. intros b (_ & _ & Hb). exact Hb. }
  destruct bs as [|b more]; [exact I|].
  cbn [map] in *. inversion Hflags as [[Hb Hmore]].
  rewrite Hb, Hmore. exact Hsep.
Qed.

(** X2: normalisation is idempotent, whatever the text: normalising a
    normalised text changes nothing. *)
Theorem normalize_spaces_idempotent (t : text) :
  normalize_spaces (normalize_spaces t) = normalize_spaces t.
Proof.
  unfold normalize_spaces at 2 3.
  rewrite normalize_spaces_join.
  - rewrite map_map. f_equal. apply map_ext. intros l.
    apply normalize_line_idem.
  - apply List.Forall_map. eapply List.Forall_impl; [|apply split_nl_no_LF].
    intros l. apply normalize_line_no_LF.
Qed.

(** X3: compaction touches white space only: the characters that are
    not white space are the same, in the same order, before and after,
    and the text has not grown. *)
Theorem remove_newlines_white_space_only (x : text) :
  visible (remove_newlines x) = visible x
  /\ (length (remove_newlines x) <= length x)%nat.
Proof. exact (remove_newlines_trims x). Qed.

(** X4: normalisation touches white space only: the characters that
    are not white space are the same, in the same order, before and
    after, and the text has not grown. *)
Theorem normalize_spaces_white_space_only (t : text) :
  visible (normalize_spaces t) = visible t
  /\ (length (normalize_spaces t) <= length t)%nat.
Proof. exact (normalize_spaces_trims t). Qed.

(** X5: a normalised text holds no tab and no two spaces side by
    side. *)
Theorem normalize_spaces_single_spaced (t : text) :
  ~ In TAB (normalize_spaces t)
  /\ forall pre post, normalize_spaces t <> pre ++ SPACE :: SPACE :: post.
Proof.
  apply single_spaced_spec. unfold normalize_spaces.
  apply single_spaced_join, List.Forall_map, List.Forall_forall.
  intros l _. apply normalize_line_single_spaced.
Qed.

(** X6: on a line of the normalised text that is not a directive no
    blank stands next to a symbol, neither before it nor after it. *)
Theorem normalized_code_line_tight (t l : text) (c s : char)
    (pre post : text) :
  In l (split_nl (normalize_spaces t)) ->
  is_directive l = false ->
  hspace c = true ->
  In s symbols ->
  l <> pre ++ c :: s :: post /\ l <> pre ++ s :: c :: post.
Proof.
  intros Hl Hdir Hc Hs. rewrite normalize_spaces_lines in Hl.
  apply in_map_iff in Hl. destruct Hl as (l0 & <- & _).
  rewrite is_directive_normalize_line in Hdir.
  rewrite normalize_line_branches, Hdir.
  apply tight_spec; [apply normalize_code_tight|exact Hc|].
  apply is_symbol_In, Hs.
Qed.

Lemma normalized_code_line_tight_witness :
  str "a=b;" <> str "a" ++ SPACE :: 61 :: str "b;"
  /\ str "a=b;" <> str "a" ++ 61 :: SPACE :: str "b;".
Proof.
  apply (normalized_code_line_tight (str "a  = b ;") (str "a=b;") SPACE 61
           (str "a") (str "b;")).
  - vm_compute. left. reflexivity.
  - reflexivity.
  - reflexivity.
  - vm_compute. do 12 right. left. reflexivity.
Defined.

(** X7: a directive line of the normalised text starts with its [#]:
    the white space before it is gone. *)
Theorem normalized_directive_line_starts (t l : text) :
  In l (split_nl (normalize_spaces t)) ->
  is_directive l = true ->
  head l = Some HASH.
Proof.
  intros Hl Hdir. rewrite normalize_spaces_lines in Hl.
  apply in_map_iff in Hl. destruct Hl as (l0 & <- & _).
  rewrite is_directive_normalize_line in Hdir.
  rewrite normalize_line_branches, Hdir.
  destruct (normalize_directive_hash l0 Hdir) as (rest & _ & ->).
  reflexivity.
Qed.

Lemma normalized_directive_line_starts_witness :
  head (str "# define A") = Some HASH.
Proof.
  apply (normalized_directive_line_starts
           (str "x" ++ [LF; SPACE; TAB] ++ str "#  define   A")).
  - vm_compute. right. left. reflexivity.
  - reflexivity.
Defined.

(** X8: normalisation keeps the kind of every line: a line of the
    normalised text is a directive exactly when the line of the text it
    comes from is one. *)
Theorem normalize_spaces_keeps_line_kinds (t : text) :
  map is_directive (split_nl (normalize_spaces t))
  = map is_directive (split_nl t).
Proof.
  rewrite normalize_spaces_lines, map_map. apply map_ext. intros l.
  apply is_directive_normalize_line.
Qed.

(** ** The comment stripper *)

(** X9: the comment stripper only deletes: what it returns is the text
    with some characters gone, the others in their order. *)
Theorem remove_comments_only_deletes (t : text) :
  sublist (remove_comments t) t.
Proof. exact (remove_comments_sublist t). Qed.

(** X10: the comment stripper leaves no [//] in the text. *)
Theorem remove_comments_no_line_comment (t pre post : text) :
  remove_comments t <> pre ++ str "//" ++ post.
Proof.
  intros H.
  destruct (rewrite_line_at
              (length (re_sub block_comment (fun _ => []) t))
              (re_sub block_comment (fun _ => []) t) [] (le_n _))
    as [Hfind _].
  rewrite <- remove_comments_line_at, H in Hfind.
  exact (find_None _ _ _ Hfind).
Qed.

(** X11: a text without a slash is left as it is by the comment
    stripper. *)
Theorem remove_comments_without_slash (t : text) :
  ~ In SLASH t -> remove_comments t = t.
Proof. exact (remove_comments_untouched t). Qed.

Lemma remove_comments_without_slash_witness :
  remove_comments (str "int x = 1;") = str "int x = 1;".
Proof.
  apply remove_comments_without_slash.
  intros H. repeat (destruct H as [H|H]; [discriminate H|]). exact H.
Defined.

(** ** The literal optimizer *)

(** X12: the literal optimizer deletes zeros and nothing else: what it
    returns is the text with some characters gone, and without their
    zeros the two texts are the same. *)
Theorem optimize_deletes_zeros_only (uni_decimal uni_alnum : char -> bool)
    (t : text) :
  sublist (optimize_float_literals uni_decimal uni_alnum t) t
  /\ without ZERO (optimize_float_literals uni_decimal uni_alnum t)
     = without ZERO t.
Proof.
  split; [apply optimize_sublist|apply optimize_without_zero].
Qed.

(** X13: a text without a dot is left as it is by the literal
    optimizer. *)
Theorem optimize_without_dot (uni_decimal uni_alnum : char -> bool)
    (t : text) :
  ~ In DOT t -> optimize_float_literals uni_decimal uni_alnum t = t.
Proof. exact (optimize_untouched uni_decimal uni_alnum t). Qed.

Lemma optimize_without_dot_witness :
  optimize_float_literals (fun _ => false) (fun _ => false) (str "x = 100;")
  = str "x = 100;".
Proof.
  apply optimize_without_dot.
  intros H. repeat (destruct H as [H|H]; [discriminate H|]). exact H.
Defined.

(** ** The passes after the resolution, one after the other *)

(** X14: the four passes that follow the include resolution only take
    away from what shows: the characters of the result that are not
    white space are characters of the text, in their order, and the
    result is not longer than the text. *)
Theorem passes_only_delete (uni_decimal uni_alnum : char -> bool) (t : text) :
  let out :=
    optimize_float_literals uni_decimal uni_alnum
      (normalize_spaces (remove_newlines (remove_comments t))) in
  sublist (visible out) (visible t) /\ (length out <= length t)%nat.
Proof.
  intros out. unfold out.
  pose proof (optimize_sublist uni_decimal uni_alnum
                (normalize_spaces (remove_newlines (remove_comments t)))) as H4.
  destruct (normalize_spaces_trims (remove_newlines (remove_comments t)))
    as [V3 L3].
  destruct (remove_newlines_trims (remove_comments t)) as [V2 L2].
  pose proof (remove_comments_sublist t) as H1.
  split.
  - etransitivity; [apply sublist_visible, H4|].
    rewrite V3, V2. apply sublist_visible, H1.
  - apply sublist_length in H4. apply sublist_length in H1. lia.
Qed.

(** ** The include resolver *)

(** X15: a text without a [#] holds no include directive: the resolver
    returns it as it is, reads no file and reports nothing. *)
Theorem process_includes_without_hash (fs : filesystem) (fuel : nat)
    (shader_content : text) (base_path : path) (st : resolver) :
  ~ In HASH shader_content ->
  process_includes fs (S fuel) shader_content base_path st
  = Some (shader_content, st).
Proof.
  intros Hc. cbn [process_includes].
  rewrite (finditer_untouched HASH include_pattern shader_content
             include_pattern_hash Hc).
  apply sub_with_chars.
Qed.

Lemma process_includes_without_hash_witness :
  process_includes diamond_fs 1 (str "void main(){}") [] (Resolver ∅ [] [])
  = Some (str "void main(){}", Resolver ∅ [] []).
Proof.
  apply process_includes_without_hash.
  intros H. repeat (destruct H as [H|H]; [discriminate H|]). exact H.
Defined.

(** X16: a resolution returns, and it reads a file at most once: the
    files it reads are files that exist and were not in the set of
    included files, no two of them the same, and the set ends as it
    started plus the files read.  What it adds to the error stream is
    lines that report a path that names no file; from a set that holds
    only files that exist, as the empty set does, these are, up to
    their order, one line for each directive of the text and of the
    files read whose path names no file. *)
Theorem resolution_reads_once (fs : filesystem) (shader_content : text)
    (base_path : path) (st : resolver) :
  exists out st' new missing,
    process_includes fs (enough_fuel fs) shader_content base_path st
    = Some (out, st')
    /\ opened st' = opened st ++ new
    /\ NoDup new
    /\ (forall f, f ∈ new -> is_Some (files fs !! f) /\ f ∉ included_files st)
    /\ included_files st' = included_files st ∪ list_to_set new
    /\ stderr st' = stderr st ++ flat_map not_found missing
    /\ (forall p, p ∈ missing -> files fs !! p = None)
    /\ (included_files st ⊆ dom (files fs) ->
        missing ≡ₚ missing_in fs base_path shader_content
                   ++ flat_map (missing_of fs) new).
Proof.
  destruct (resolution_returns fs shader_content base_path st)
    as (out & st' & Hret & _).
  specialize (Hret (enough_fuel fs) (le_n _)).
  destruct (process_includes_reads fs _ _ _ _ _ _ Hret)
    as (new & Hopen & Hdup & Hnew & Hset & _).
  destruct (process_includes_reports fs _ _ _ _ _ _ Hret)
    as (new' & missing & Hopen' & Hsaid & Hnone & Hperm).
  assert (Hsame : new' = new).
  { rewrite Hopen in Hopen'. apply app_inv_head in Hopen'. congruence. }
  subst new'.
  exists out, st', new, missing.
  refine (conj Hret (conj Hopen (conj Hdup (conj _ (conj Hset
            (conj Hsaid (conj Hnone Hperm))))))).
  intros f Hf. destruct (Hnew f Hf) as [Hd Hno].
  split; [apply elem_of_dom, Hd|exact Hno].
Qed.

(** ** The driver *)

(** X17: when every file holds Unicode scalar values only, as the
    decoding of a file yields, [process_shader] returns: it stops on an
    input file that does not exist, and otherwise its text holds scalar
    values only, so that [utf-8] can encode it. *)
Theorem process_shader_encodable (uni_decimal uni_alnum : char -> bool)
    (fs : filesystem) (filepath : path) :
  map_Forall (fun _ content => forallb is_scalar content = true) (files fs) ->
  exists r,
    process_shader uni_decimal uni_alnum fs filepath = Some r
    /\ match r with
       | inl (t, _) =>
           is_Some (files fs !! canonical fs filepath)
           /\ Forall (fun c => is_scalar c = true) t
           /\ is_Some (utf8_encode t)
       | inr stopped =>
           files fs !! canonical fs filepath = None /\ status stopped = 1
       end.
Proof.
  intros Hfiles. unfold process_shader.
  destruct (files fs !! canonical fs filepath) as [content|] eqn:Hfile.
  - destruct (resolution_returns fs content (parent fs filepath)
                (entry_state fs filepath)) as (out & st' & Hret & _).
    rewrite (Hret (enough_fuel fs) (le_n _)).
    eexists. split; [reflexivity|]. cbn beta iota.
    assert (Hq : forall p c, files fs !! p = Some c ->
                   Forall (fun x => is_scalar x = true) c).
    { intros p c Hp. apply scalar_text. exact (Hfiles p c Hp). }
    assert (Hout : Forall (fun c => is_scalar c = true) out).
    { eapply (process_includes_keeps fs (fun c => is_scalar c = true));
        [reflexivity|exact Hq|eapply Hq, Hfile|apply (Hret _ (le_n _))]. }
    assert (Hfinal : Forall (fun c => is_scalar c = true)
                       (optimize_float_literals uni_decimal uni_alnum
                          (normalize_spaces (remove_newlines (remove_comments out))))).
    { apply (passes_keep (fun c => is_scalar c = true)); [reflexivity..|exact Hout]. }
    split; [eexists; reflexivity|]. split; [exact Hfinal|].
    apply utf8_encode_scalar, Hfinal.
  - destruct (read_error fs filepath);
      (eexists; split; [reflexivity|]; split; reflexivity).
Qed.

Lemma process_shader_encodable_witness :
  exists r,
    process_shader (fun _ => false) (fun _ => false) scenario_fs (str "a.glsl")
    = Some r
    /\ match r with
       | inl (t, _) =>
           is_Some (files scenario_fs !! canonical scenario_fs (str "a.glsl"))
           /\ Forall (fun c => is_scalar c = true) t
           /\ is_Some (utf8_encode t)
       | inr stopped =>
           files scenario_fs !! canonical scenario_fs (str "a.glsl") = None
           /\ status stopped = 1
       end.
Proof.
  apply process_shader_encodable.
  unfold scenario_fs, flat. cbn [files].
  apply map_Forall_insert_2; [vm_compute; reflexivity|].
  apply map_Forall_singleton. vm_compute. reflexivity.
Defined.

Lemma process_shader_stopped (uni_decimal uni_alnum : char -> bool)
    (fs : filesystem) (filepath : path) (stopped : run) :
  process_shader uni_decimal uni_alnum fs filepath = Some (inr stopped) ->
  status stopped = 1 /\ to_stdout stopped = None
  /\ files_read stopped = [] /\ file_written stopped = None.
Proof.
  unfold process_shader.
  destruct (files fs !! canonical fs filepath) as [content|].
  - destruct (process_includes fs (enough_fuel fs) content (parent fs filepath)
                (entry_state fs filepath)) as [[o s]|]; discriminate.
  - destruct (read_error fs filepath); intros [= <-]; repeat split.
Qed.




(** X19: compressed data never goes to the standard output: a run of
    [main] in compress mode prints nothing there, and when it succeeds
    it has written the package of the text of [process_shader] to the
    output file. *)
Theorem compressed_output_to_file (uni_decimal uni_alnum : char -> bool)
    (zlib_compress : bytes -> bytes) (fs : filesystem) (args : arguments)
    (r : run) :
  compress args = true ->
  main uni_decimal uni_alnum zlib_compress fs args = Some r ->
  to_stdout r = None
  /\ (status r = 0 ->
      exists p t st packed,
        output_file args = Some p /\ truthy p = true
        /\ process_shader uni_decimal uni_alnum fs (shader_path args)
           = Some (inl (t, st))
        /\ compress_shader zlib_compress t = Some packed
        /\ file_written r = Some (p, BinaryOut packed)).
Proof.
  intros Hc. unfold main. rewrite Hc. cbn [andb].
  destruct (no_output (output_file args)) eqn:Hno.
  - intros [= <-]. split; [reflexivity|discriminate].
  - destruct (process_shader uni_decimal uni_alnum fs (shader_path args))
      as [[[t st]|stopped]|] eqn:Hps; [| |discriminate].
    + destruct (compress_shader zlib_compress t) as [packed|] eqn:Hpk;
        [|discriminate].
      unfold emit.
      destruct (output_file args) as [p|] eqn:Hout; [|discriminate Hno].
      cbn [no_output] in Hno. apply negb_false_iff in Hno. rewrite Hno.
      destruct (open_error fs p) as [e|].
      { intros [= <-]. split; [reflexivity|discriminate]. }
      cbn [file_encodes].
      destruct (write_error fs p) as [e|]; intros [= <-];
        cbn [write_failure status to_stdout file_written].
      * split; [reflexivity|discriminate].
      * split; [reflexivity|]. intros _. exists p, t, st, packed.
        repeat split; assumption.
    + intros [= <-].
      destruct (process_shader_stopped _ _ _ _ _ Hps) as (H1 & H2 & _).
      split; [exact H2|]. intros H0. rewrite H1 in H0. discriminate H0.
Qed.

Lemma compressed_output_to_file_witness :
  let args := Arguments (str "a.glsl") (Some (str "a.bin")) true in
  exists r,
    main (fun _ => false) (fun _ => false) (fun b => b) scenario_fs args
    = Some r
    /\ to_stdout r = None
    /\ (status r = 0 ->
        exists p t st packed,
          output_file args = Some p /\ truthy p = true
          /\ process_shader (fun _ => false) (fun _ => false) scenario_fs
               (shader_path args)
             = Some (inl (t, st))
          /\ compress_shader (fun b => b) t = Some packed
          /\ file_written r = Some (p, BinaryOut packed)).
Proof.
  intros args. eexists. split; [vm_compute; reflexivity|].
  eapply (compressed_output_to_file (fun _ => false) (fun _ => false)
            (fun b => b) scenario_fs args).
  - reflexivity.
  - vm_compute. reflexivity.
Defined.



(** A directory for the input file: opening it raises an exception
    that is not [FileNotFoundError]. *)
Example directory_input_file :
  main (fun _ => false) (fun _ => false) (fun b => b) dotted_fs
       (Arguments (str "./inc") None false)
  = Some (Run 1 None
              (str "Error reading file: [Errno 21] Is a directory: 'inc'"
               ++ [LF])
              [] None).
Proof. vm_compute. reflexivity. Qed.

(** ** The packager *)

Lemma utf8_encode_ascii t :
  Forall (fun c => c < 128) t -> utf8_encode t = Some t.
Proof.
  induction 1 as [|c t Hc _ IH]; [reflexivity|].
  cbn [utf8_encode]. unfold utf8_char.
  apply N.ltb_lt in Hc. rewrite Hc, IH. reflexivity.
Qed.

(** X21: the package of an ASCII text is its number of characters, as
    eight bytes with the least significant first, followed by what
    [zlib] makes of the characters themselves. *)
Theorem compress_shader_ascii (zlib_compress : bytes -> bytes) (t : text) :
  Forall (fun c => c < 128) t ->
  N.of_nat (length t) < 2 ^ 64 ->
  compress_shader zlib_compress t
  = Some (le_bytes 8 (N.of_nat (length t)) ++ zlib_compress t).
Proof.
  intros Hascii Hlen. unfold compress_shader, pack_Q.
  rewrite (utf8_encode_ascii t Hascii). cbv zeta.
  apply N.ltb_lt in Hlen. unfold byte, char in *. rewrite Hlen. reflexivity.
Qed.

Lemma compress_shader_ascii_witness :
  compress_shader (fun b => b) (str "void main(){}")
  = Some (le_bytes 8 13 ++ str "void main(){}").
Proof.
  apply (compress_shader_ascii (fun b => b) (str "void main(){}")).
  - repeat (constructor; [reflexivity|]). constructor.
  - reflexivity.
Defined.

(** ** What compaction does to line ends *)

Lemma compact_from_code (ls : list text) : forall prev,
  is_directive prev = false ->
  Forall (fun l => is_directive l = false) ls ->
  compact_from prev ls = concat ls.
Proof.
  induction ls as [|l ls IH]; intros prev Hprev Hls; [reflexivity|].
  inversion Hls as [|? ? Hl Hls']; subst.
  cbn [compact_from concat]. unfold separated. rewrite Hl, Hprev.
  replace (match head ls with Some n => is_directive n | None => false end)
    with false by (destruct Hls'; [reflexivity|cbn [head]; congruence]).
  cbn [orb app]. rewrite (IH l Hl Hls'). reflexivity.
Qed.

(** X23: lines of code are glued: where no line is a directive, the
    lines of a text that show something are put end to end with
    nothing between them, not even a space. *)
Theorem code_lines_glued (ls : list text) :
  Forall (fun l => nonblank l /\ unbroken l /\ is_directive l = false) ls ->
  remove_newlines (join_nl ls) = concat ls.
Proof.
  intros Hls. rewrite remove_newlines_compact.
  assert (Hkept : kept_lines (join_nl ls) = ls).
  { unfold kept_lines. rewrite splitlines_join_nl.
    - apply filter_all. eapply List.Forall_impl; [|exact Hls].
      intros l (Hn & _). apply strip_nonblank, Hn.
    - eapply List.Forall_impl; [|exact Hls].
      intros l (Hn & Hu & _). split; [apply nonblank_not_nil, Hn|exact Hu]. }
  rewrite Hkept. destruct ls as [|l more]; [reflexivity|].
  inversion Hls as [|? ? (_ & _ & Hl) Hmore]; subst.
  cbn [compact concat]. f_equal. apply compact_from_code; [exact Hl|].
  eapply List.Forall_impl; [|exact Hmore]. intros l' (_ & _ & H). exact H.
Qed.

Lemma code_lines_glued_witness :
  remove_newlines (lines_of ["int"; "x;"]) = str "intx;".
Proof.
  apply (code_lines_glued [str "int"; str "x;"]).
  repeat constructor; try reflexivity;
    try (exists 120; split; [cbn; tauto|reflexivity]);
    try (exists 105; split; [cbn; tauto|reflexivity]).
Defined.

Lemma remove_newlines_breaks (x : text) :
  Forall (fun c => is_linebreak c = true -> c = LF) (remove_newlines x).
Proof.
  destruct (remove_newlines_lines x) as [-> Hgood].
  set (gs := map (@concat char) (blocks (kept_lines x))) in *.
  assert (Hline : forall l, unbroken l ->
            Forall (fun c => is_linebreak c = true -> c = LF) l).
  { intros l Hl. eapply List.Forall_impl; [|exact Hl].
    intros c Hc Hb. congruence. }
  destruct Hgood as [|g gs' [_ Hg] Hrest]; [constructor|].
  rewrite join_nl_cons. apply Forall_app. split; [apply Hline, Hg|].
  induction Hrest as [|g' gs'' [_ Hg'] _ IH]; [constructor|].
  rewrite opened_lines_cons. apply Forall_app. split.
  - repeat constructor.
  - apply Forall_app. split; [apply Hline, Hg'|exact IH].
Qed.

(** X24: the only line boundary compaction leaves is the newline:
    carriage returns, form feeds and the other boundaries of
    [str.splitlines] are gone. *)
Theorem remove_newlines_line_ends (x : text) :
  Forall (fun c => is_linebreak c = true -> c = LF) (remove_newlines x).
Proof. exact (remove_newlines_breaks x). Qed.

(** * The shape of what [process_shader] returns *)

Lemma last_is_app c x y : y <> [] -> last_is c (x ++ y) = last_is c y.
Proof.
  intros Hy. unfold last_is. rewrite rev_app_distr.
  destruct (rev y) as [|d r] eqn:E; [|reflexivity].
  exfalso. apply Hy. apply (f_equal (@rev char)) in E.
  rewrite rev_involutive in E. exact E.
Qed.

Lemma last_is_cons c d x : x <> [] -> last_is c (d :: x) = last_is c x.
Proof. apply (last_is_app c [d] x). Qed.

Lemma last_is_single c d : last_is c [d] = (c =? d).
Proof. reflexivity. Qed.

Lemma head_is_app p x y : x <> [] -> head_is p (x ++ y) = head_is p x.
Proof. destruct x; [congruence|reflexivity]. Qed.

Lemma no_pair_app c x : forall y,
  no_pair c (x ++ y)
  = no_pair c x && no_pair c y && negb (last_is c x && head_is (N.eqb c) y).
Proof.
  induction x as [|d x IH]; intros y.
  - cbn [app no_pair]. unfold last_is. cbn [rev head_is andb negb].
    rewrite andb_true_r. reflexivity.
  - cbn [app no_pair]. rewrite IH. destruct x as [|e x'].
    + cbn [app no_pair head_is]. rewrite last_is_single.
      unfold last_is. cbn [rev head_is].
      destruct (c =? d), (head_is (N.eqb c) y), (no_pair c y); reflexivity.
    + rewrite (last_is_cons c d (e :: x')) by discriminate.
      cbn [app head_is].
      destruct (c =? d), (c =? e), (no_pair c (e :: x')), (no_pair c y),
        (last_is c (e :: x')), (head_is (N.eqb c) y); reflexivity.
Qed.

Lemma no_pair_spec c t :
  no_pair c t = true -> forall pre post, t <> pre ++ c :: c :: post.
Proof.
  intros H pre post ->. rewrite no_pair_app in H.
  cbn [no_pair head_is] in H. rewrite N.eqb_refl in H.
  cbn [andb negb] in H. rewrite andb_false_r in H. discriminate H.
Qed.

Lemma head_is_spec c t :
  head_is (N.eqb c) t = false -> forall post, t <> c :: post.
Proof.
  intros H post ->. cbn [head_is] in H. rewrite N.eqb_refl in H. discriminate H.
Qed.

Lemma last_is_spec c t :
  last_is c t = false -> forall pre, t <> pre ++ [c].
Proof.
  intros H pre ->. rewrite last_is_app, last_is_single, N.eqb_refl in H
    by discriminate. discriminate H.
Qed.

Lemma no_pair_without c t : ~ In c t -> no_pair c t = true.
Proof.
  induction t as [|d t IH]; intros H; [reflexivity|].
  cbn [no_pair]. rewrite IH by (intros Hin; apply H; right; exact Hin).
  destruct (N.eqb_spec c d) as [->|_]; [|reflexivity].
  exfalso. apply H. left. reflexivity.
Qed.

Lemma last_is_without c t : ~ In c t -> last_is c t = false.
Proof.
  intros H. unfold last_is. destruct (rev t) as [|d r] eqn:E; [reflexivity|].
  cbn [head_is]. destruct (N.eqb_spec c d) as [->|_]; [|reflexivity].
  exfalso. apply H. apply in_rev. rewrite E. left. reflexivity.
Qed.

Lemma head_is_without c t : ~ In c t -> head_is (N.eqb c) t = false.
Proof.
  destruct t as [|d t]; intros H; [reflexivity|]. cbn [head_is].
  destruct (N.eqb_spec c d) as [->|_]; [|reflexivity].
  exfalso. apply H. left. reflexivity.
Qed.

(** Lines that are not empty and hold no newline, joined: no two
    newlines side by side, none at the start, none at the end. *)
Lemma join_nl_solid ls :
  Forall (fun l => l <> [] /\ ~ In LF l) ls ->
  no_pair LF (join_nl ls) = true
  /\ head_is (N.eqb LF) (join_nl ls) = false
  /\ last_is LF (join_nl ls) = false
  /\ (ls <> [] -> join_nl ls <> []).
Proof.
  induction 1 as [|l ls [Hne Hlf] _ (IH1 & IH2 & IH3 & IH4)].
  - repeat split; congruence.
  - destruct ls as [|l' ls'].
    + cbn [join_nl]. split; [apply no_pair_without, Hlf|].
      split; [apply head_is_without, Hlf|].
      split; [apply last_is_without, Hlf|]. intros _. exact Hne.
    + change (join_nl (l :: l' :: ls')) with (l ++ LF :: join_nl (l' :: ls')).
      set (rest := join_nl (l' :: ls')) in *.
      split; [|split; [|split]].
      * rewrite no_pair_app, (no_pair_without LF l Hlf),
          (last_is_without LF l Hlf).
        cbn [no_pair andb negb]. rewrite IH1, IH2. reflexivity.
      * rewrite head_is_app by exact Hne. apply head_is_without, Hlf.
      * change (l ++ LF :: rest) with (l ++ [LF] ++ rest).
        rewrite app_assoc, last_is_app; [exact IH3|].
        apply IH4. discriminate.
      * intros _ E. apply app_eq_nil in E. destruct E as [_ E]. discriminate E.
Qed.

Lemma single_spaced_no_pair t :
  single_spaced t = true -> no_pair SPACE t = true.
Proof.
  induction t as [|c t IH]; [reflexivity|].
  cbn [single_spaced no_pair]. intros H.
  apply andb_true_iff in H. destruct H as [H Ht].
  apply andb_true_iff in H. destruct H as [_ Hc].
  rewrite (IH Ht), (N.eqb_sym SPACE c), Hc. reflexivity.
Qed.

Section Apart.

Variable c : char.

Lemma apart_refl x : apart c x x.
Proof. unfold apart. auto. Qed.

Lemma apart_trans x y z : apart c x y -> apart c y z -> apart c x z.
Proof. unfold apart. intros (A1 & A2 & A3 & A4) (B1 & B2 & B3 & B4). auto 6. Qed.

Lemma apart_app x y x' y' :
  apart c x y -> apart c x' y' -> apart c (x ++ x') (y ++ y').
Proof.
  intros (A1 & A2 & A3 & A4) (B1 & B2 & B3 & B4).
  refine (conj _ (conj _ (conj _ _))).
  - rewrite !no_pair_app. intros H.
    apply andb_true_iff in H. destruct H as [H Hno].
    apply andb_true_iff in H. destruct H as [Hy Hy'].
    rewrite (A1 Hy), (B1 Hy'). cbn [andb].
    destruct (last_is c x) eqn:Hl; [|reflexivity].
    destruct (head_is (N.eqb c) x') eqn:Hh; [|reflexivity].
    rewrite (A3 eq_refl), (B2 eq_refl) in Hno. discriminate Hno.
  - destruct x as [|d x0].
    + rewrite (A4 eq_refl). exact B2.
    + intros H. cbn [app head_is] in H.
      assert (Hy : head_is (N.eqb c) y = true) by (apply A2; exact H).
      destruct y; [discriminate Hy|exact Hy].
  - destruct x' as [|d x0'] eqn:Ex'.
    + rewrite (B4 eq_refl), !app_nil_r. exact A3.
    + rewrite <- Ex' in *. intros H.
      rewrite last_is_app in H by (rewrite Ex'; discriminate).
      assert (Hy' : last_is c y' = true) by (apply B3; exact H).
      rewrite last_is_app; [exact Hy'|].
      intros ->. discriminate Hy'.
  - intros E. apply app_eq_nil in E. destruct E as [-> ->].
    rewrite (A4 eq_refl), (B4 eq_refl). reflexivity.
Qed.

Lemma re_sub_apart r repl t :
  (forall b a s', In s' (matches r (MState b a [])) ->
     apart c (repl (hit_of (MState b a []) s')) (consumed (MState b a []) s')) ->
  apart c (re_sub r repl t) t.
Proof.
  apply re_sub_pieces.
  - apply apart_refl.
  - intros d. apply apart_refl.
  - apply apart_app.
Qed.

Hypothesis not_dot : (c =? DOT) = false.

(** The literal optimizer brings no two [c] together, whatever [c] is
    but the dot. *)
Lemma optimize_apart uni_decimal uni_alnum t :
  apart c (optimize_float_literals uni_decimal uni_alnum t) t.
Proof.
  unfold optimize_float_literals.
  eapply apart_trans; apply re_sub_apart; intros b a s' H.
  - apply leading_zero_shape in H. destruct H as (g & -> & Hg).
    cbn [hit_of captured]. rewrite Hg.
    refine (conj _ (conj _ (conj _ _))).
    + change (ZERO :: DOT :: g) with ([ZERO] ++ DOT :: g).
      rewrite no_pair_app. intros H.
      apply andb_true_iff in H. destruct H as [H _].
      apply andb_true_iff in H. apply H.
    + cbn [head_is]. rewrite not_dot. discriminate.
    + change (ZERO :: DOT :: g) with ([ZERO] ++ DOT :: g).
      rewrite last_is_app by discriminate. auto.
    + discriminate.
  - apply trailing_zeros_shape in H. destruct H as (g & z & -> & Hg & _).
    cbn [hit_of captured]. rewrite Hg.
    change (g ++ DOT :: z) with (g ++ [DOT] ++ z). rewrite app_assoc.
    refine (conj _ (conj _ (conj _ _))).
    + rewrite no_pair_app. intros H.
      apply andb_true_iff in H. destruct H as [H _].
      apply andb_true_iff in H. apply H.
    + intros H. rewrite head_is_app; [exact H|].
      intros E. apply app_eq_nil in E. destruct E as [_ E]. discriminate E.
    + rewrite last_is_app, last_is_single, not_dot by discriminate.
      discriminate.
    + intros E. apply app_eq_nil in E. destruct E as [_ E]. discriminate E.
Qed.

End Apart.

(** The text compaction and normalisation make: no tab, no two spaces
    and no two newlines side by side, no newline at either end. *)
Lemma compact_normal_shape x :
  let n := normalize_spaces (remove_newlines x) in
  single_spaced n = true
  /\ no_pair LF n = true
  /\ head_is (N.eqb LF) n = false
  /\ last_is LF n = false.
Proof.
  intros n. unfold n.
  split.
  - unfold normalize_spaces.
    apply single_spaced_join, List.Forall_map, List.Forall_forall.
    intros l _. apply normalize_line_single_spaced.
  - destruct (remove_newlines_lines x) as [Hout Hgood].
    set (gs := map (@concat char) (blocks (kept_lines x))) in *.
    rewrite Hout, normalize_spaces_join.
    2:{ eapply List.Forall_impl; [|exact Hgood].
        intros l [_ Hu]. apply unbroken_no_LF, Hu. }
    destruct (join_nl_solid (map normalize_line gs)) as (H1 & H2 & H3 & _);
      [|auto].
    apply List.Forall_map. eapply List.Forall_impl; [|exact Hgood].
    intros l [Hn Hu]. split.
    + apply nonblank_not_nil, nonblank_normalize_line, Hn.
    + apply unbroken_no_LF, unbroken_normalize_line, Hu.
Qed.

(** X22: the text [process_shader] returns holds no tab, no two spaces
    side by side, no line boundary but the newline, and no empty line:
    no two newlines side by side, and no newline at its start or at its
    end. *)
Theorem process_shader_output_shape (uni_decimal uni_alnum : char -> bool)
    (fs : filesystem) (filepath : path) (t : text) (st : resolver) :
  process_shader uni_decimal uni_alnum fs filepath = Some (inl (t, st)) ->
  ~ In TAB t
  /\ (forall pre post, t <> pre ++ SPACE :: SPACE :: post)
  /\ Forall (fun c => is_linebreak c = true -> c = LF) t
  /\ (forall pre post, t <> pre ++ LF :: LF :: post)
  /\ (forall post, t <> LF :: post)
  /\ (forall pre, t <> pre ++ [LF]).
Proof.
  unfold process_shader.
  destruct (files fs !! canonical fs filepath) as [content|];
    [|destruct (read_error fs filepath); discriminate].
  destruct (process_includes fs (enough_fuel fs) content (parent fs filepath)
              (entry_state fs filepath)) as [[resolved st']|]; [|discriminate].
  intros [= <- <-].
  destruct (compact_normal_shape (remove_comments resolved))
    as (Hss & Hlf & Hhead & Hlast).
  set (n := normalize_spaces (remove_newlines (remove_comments resolved))) in *.
  destruct (optimize_apart SPACE eq_refl uni_decimal uni_alnum n)
    as (S1 & _ & _ & _).
  destruct (optimize_apart LF eq_refl uni_decimal uni_alnum n)
    as (L1 & L2 & L3 & _).
  refine (conj _ (conj _ (conj _ (conj _ (conj _ _))))).
  - intros Hin. apply single_spaced_spec in Hss. apply (proj1 Hss).
    apply list_elem_of_In. apply list_elem_of_In in Hin.
    eapply elem_of_sublist; [exact Hin|apply optimize_sublist].
  - apply no_pair_spec, S1, single_spaced_no_pair, Hss.
  - apply (sublist_keeps _ _ _ (optimize_sublist uni_decimal uni_alnum n)).
    apply normalize_spaces_keeps; [discriminate|].
    apply remove_newlines_breaks.
  - apply no_pair_spec, L1, Hlf.
  - apply head_is_spec.
    destruct (head_is (N.eqb LF) (optimize_float_literals uni_decimal uni_alnum n))
      eqn:E; [|reflexivity].
    rewrite (L2 eq_refl) in Hhead. discriminate Hhead.
  - apply last_is_spec.
    destruct (last_is LF (optimize_float_literals uni_decimal uni_alnum n))
      eqn:E; [|reflexivity].
    rewrite (L3 eq_refl) in Hlast. discriminate Hlast.
Qed.

Lemma process_shader_output_shape_witness :
  let t := lines_of ["#define FOO 1"; "float x=1.;"] in
  ~ In TAB t
  /\ (forall pre post, t <> pre ++ SPACE :: SPACE :: post)
  /\ Forall (fun c => is_linebreak c = true -> c = LF) t
  /\ (forall pre post, t <> pre ++ LF :: LF :: post)
  /\ (forall post, t <> LF :: post)
  /\ (forall pre, t <> pre ++ [LF]).
Proof.
  intros t.
  apply (process_shader_output_shape (fun _ => false) (fun _ => false)
           scenario_fs (str "a.glsl") t
           (Resolver {[ str "b.glsl" ]} [] [str "a.glsl"; str "b.glsl"])).
  vm_compute. reflexivity.
Defined.

(** * The size of a resolved text *)

Section SizeFacts.

Variable fs : filesystem.

Lemma inlined_app n1 n2 : inlined fs (n1 ++ n2) = inlined fs n1 ++ inlined fs n2.
Proof. apply flat_map_app. Qed.

Lemma inlined_one file content :
  files fs !! file = Some content -> inlined fs [file] = content ++ [LF].
Proof.
  intros H. unfold inlined. cbn [flat_map]. rewrite H, app_nil_r. reflexivity.
Qed.

Lemma replacer_size recur base_path m st r st' :
  (forall c b s o s', recur c b s = Some (o, s') ->
     exists new, opened s' = opened s ++ new
                 /\ (length o <= length c + length (inlined fs new))%nat) ->
  replacer fs recur base_path m st = Some (r, st') ->
  exists new, opened st' = opened st ++ new
              /\ (length r <= length (inlined fs new))%nat.
Proof.
  intros Hrec. unfold replacer.
  set (file := canonical fs (join fs base_path (group 1 (captured m)))).
  case_decide as Hin.
  - intros [= <- <-]. exists []. rewrite app_nil_r. split; [reflexivity|cbn; lia].
  - destruct (files fs !! file) as [content|] eqn:Hfile.
    + destruct (recur content (parent fs file) (add_included file st))
        as [[o s1]|] eqn:Hr; [|discriminate].
      intros [= <- <-]. destruct (Hrec _ _ _ _ _ Hr) as (new & Hopen & Hlen).
      exists ([file] ++ new). split.
      * rewrite Hopen. unfold add_included. cbn [opened].
        rewrite <- app_assoc. reflexivity.
      * rewrite inlined_app, (inlined_one file content Hfile), !length_app.
        cbn [length]. lia.
    + intros [= <- <-]. exists []. unfold eprint. cbn [opened].
      rewrite app_nil_r. split; [reflexivity|cbn; lia].
Qed.

Lemma sub_with_size repl pieces : forall st out st',
  (forall m s r s', repl m s = Some (r, s') ->
     exists new, opened s' = opened s ++ new
                 /\ (length r <= length (inlined fs new))%nat) ->
  sub_with repl pieces st = Some (out, st') ->
  exists new, opened st' = opened st ++ new
              /\ (length out
                  <= length (flat_map source pieces) + length (inlined fs new))%nat.
Proof.
  induction pieces as [|[c|m] pieces IH]; intros st out st' Hrepl;
    cbn [sub_with].
  - intros [= <- <-]. exists []. rewrite app_nil_r. split; [reflexivity|cbn; lia].
  - destruct (sub_with repl pieces st) as [[o s1]|] eqn:E; [|discriminate].
    intros [= <- <-]. destruct (IH _ _ _ Hrepl E) as (new & Hopen & Hlen).
    exists new. split; [exact Hopen|]. cbn [flat_map source app length]. lia.
  - destruct (repl m st) as [[r s1]|] eqn:E1; [|discriminate].
    destruct (sub_with repl pieces s1) as [[o s2]|] eqn:E2; [|discriminate].
    intros [= <- <-].
    destruct (Hrepl _ _ _ _ E1) as (n1 & O1 & L1).
    destruct (IH _ _ _ Hrepl E2) as (n2 & O2 & L2).
    exists (n1 ++ n2). split.
    + rewrite O2, O1, app_assoc. reflexivity.
    + cbn [flat_map]. rewrite inlined_app, !length_app. lia.
Qed.

Lemma process_includes_size fuel : forall shader_content base_path st out st',
  process_includes fs fuel shader_content base_path st = Some (out, st') ->
  exists new, opened st' = opened st ++ new
              /\ (length out
                  <= length shader_content + length (inlined fs new))%nat.
Proof.
  induction fuel as [|fuel IH]; intros shader_content base_path st out st';
    [discriminate|].
  cbn [process_includes]. intros H.
  apply sub_with_size in H.
  - destruct (finditer_pieces include_pattern shader_content) as [_ Hsrc].
    rewrite Hsrc in H. exact H.
  - intros m s r s'. apply replacer_size.
    intros c b s0 o s0'. apply IH.
Qed.

End SizeFacts.

(** X25: a resolved text is no longer than the text it comes from and
    the files the resolution read, each counted once with the newline
    that follows it. *)
Theorem resolution_bounded (fs : filesystem) (shader_content : text)
    (base_path : path) (st : resolver) :
  exists out st' new,
    process_includes fs (enough_fuel fs) shader_content base_path st
    = Some (out, st')
    /\ opened st' = opened st ++ new
    /\ NoDup new
    /\ (length out <= length shader_content + length (inlined fs new))%nat.
Proof.
  destruct (resolution_returns fs shader_content base_path st)
    as (out & st' & Hret & _).
  specialize (Hret (enough_fuel fs) (le_n _)).
  destruct (process_includes_reads fs _ _ _ _ _ _ Hret)
    as (new & Hopen & Hdup & _).
  destruct (process_includes_size fs _ _ _ _ _ _ Hret)
    as (new' & Hopen' & Hlen).
  assert (new' = new) by (rewrite Hopen in Hopen'; eapply app_inv_head, eq_sym, Hopen').
  subst new'. exists out, st', new. auto.
Qed.

(** * A scan that finds one match *)

Lemma scan_skip r w : forall b a,
  scan r (length w) b (w ++ a) = scan r 0 (rev w ++ b) a.
Proof.
  induction w as [|c w IH]; intros b a; [reflexivity|].
  cbn [length app scan rev]. rewrite IH, <- app_assoc. reflexivity.
Qed.

Lemma no_match (l : list mstate) : (forall s, In s l -> False) -> l = [].
Proof.
  destruct l as [|x l]; [reflexivity|]. intros H. exfalso.
  apply (H x). left. reflexivity.
Qed.

(** Where no match starts, the scan keeps the characters. *)
Lemma scan_keeps r pre : forall b a,
  (forall p1 p2, pre = p1 ++ p2 -> p2 <> [] ->
     matches r (MState (rev p1 ++ b) (p2 ++ a) []) = []) ->
  scan r 0 b (pre ++ a) = map Keep pre ++ scan r 0 (rev pre ++ b) a.
Proof.
  induction pre as [|c pre IH]; intros b a Hno; [reflexivity|].
  pose proof (Hno [] (c :: pre) eq_refl ltac:(discriminate)) as H0.
  cbn [rev app] in H0.
  cbn [app scan]. rewrite first_match_head, H0. cbn [head map app].
  f_equal. rewrite (IH (c :: b) a).
  - cbn [rev]. rewrite <- app_assoc. reflexivity.
  - intros p1 p2 -> Hp2.
    specialize (Hno (c :: p1) p2 eq_refl Hp2).
    cbn [rev] in Hno. rewrite <- app_assoc in Hno. exact Hno.
Qed.

Lemma scan_end r b : matches r (MState b [] []) = [] -> scan r 0 b [] = [].
Proof.
  intros H. cbn [scan]. rewrite first_match_head, H. reflexivity.
Qed.

Lemma scan_none r post b :
  (forall q1 q2, post = q1 ++ q2 -> matches r (MState (rev q1 ++ b) q2 []) = []) ->
  scan r 0 b post = map Keep post.
Proof.
  intros Hno. rewrite <- (app_nil_r post) at 1. rewrite scan_keeps.
  - rewrite scan_end, app_nil_r; [reflexivity|].
    apply (Hno post []). rewrite app_nil_r. reflexivity.
  - intros p1 p2 -> _. rewrite app_nil_r. apply Hno. reflexivity.
Qed.

Lemma render_keeps repl t : flat_map (render repl) (map Keep t) = t.
Proof.
  induction t as [|c t IH]; [reflexivity|].
  cbn [map flat_map render app]. rewrite IH. reflexivity.
Qed.

(** A text no position of which starts a match is left as it is. *)
Lemma re_sub_none r repl t :
  (forall q1 q2, t = q1 ++ q2 -> matches r (MState (rev q1) q2 []) = []) ->
  re_sub r repl t = t.
Proof.
  intros Hno. unfold re_sub, finditer. rewrite (scan_none r t []).
  - apply render_keeps.
  - intros q1 q2 Ht. rewrite app_nil_r. apply Hno, Ht.
Qed.

(** A text with one match: nothing starts before it, the first match
    where it starts covers [lit], and nothing starts after it. *)
Lemma re_sub_one r repl pre lit post s1 :
  (forall p1 p2, pre = p1 ++ p2 -> p2 <> [] ->
     matches r (MState (rev p1) (p2 ++ lit ++ post) []) = []) ->
  head (matches r (MState (rev pre) (lit ++ post) [])) = Some s1 ->
  ahead s1 = post -> lit <> [] ->
  (forall q1 q2, post = q1 ++ q2 ->
     matches r (MState (rev q1 ++ rev lit ++ rev pre) q2 []) = []) ->
  re_sub r repl (pre ++ lit ++ post) = pre ++ repl (Hit lit (groups s1)) ++ post.
Proof.
  intros Hpre Hhit Hahead Hlit Hpost. unfold re_sub, finditer.
  rewrite scan_keeps.
  2:{ intros p1 p2 Hp Hp2. rewrite app_nil_r. apply Hpre; assumption. }
  rewrite app_nil_r, flat_map_app, render_keeps. f_equal.
  destruct lit as [|c lit']; [congruence|].
  cbn [app scan]. rewrite first_match_head. cbn [app] in Hhit. rewrite Hhit.
  assert (Hcons : consumed (MState (rev pre) (c :: lit' ++ post) []) s1
                  = c :: lit').
  { apply consumed_forward. cbn [ahead]. rewrite Hahead. reflexivity. }
  assert (Hadv : advanced (MState (rev pre) (c :: lit' ++ post) []) s1 = true).
  { unfold advanced. cbn [ahead]. rewrite Hahead. cbn [length].
    rewrite length_app. apply Nat.ltb_lt. lia. }
  rewrite Hadv. unfold hit_of. rewrite Hcons. cbn [length].
  replace (S (length lit') - 1)%nat with (length lit') by lia.
  rewrite scan_skip. cbn [flat_map render]. f_equal.
  rewrite (scan_none r post).
  - apply render_keeps.
  - intros q1 q2 Hq. specialize (Hpost q1 q2 Hq).
    cbn [rev] in Hpost. rewrite <- app_assoc in Hpost. exact Hpost.
Qed.

(** ** Runs of a set, forward *)

Lemma span_stop p g rest :
  Forall (fun c => p c = true) g -> head_is p rest = false ->
  span p (g ++ rest) = length g.
Proof.
  induction 1 as [|c g Hc _ IH]; intros Hrest.
  - destruct rest as [|d rest']; [reflexivity|].
    cbn [app span]. cbn [head_is] in Hrest. rewrite Hrest. reflexivity.
  - cbn [app span length]. rewrite Hc, IH by exact Hrest. reflexivity.
Qed.

Lemma moved_app g b rest gr :
  moved (length g) (MState b (g ++ rest) gr) = MState (rev g ++ b) rest gr.
Proof.
  unfold moved. cbn [ahead behind groups].
  rewrite take_app_length, drop_app_length. reflexivity.
Qed.

Lemma flat_map_through {A B C} (f : A -> B) (k : B -> list C) l :
  flat_map k (map f l) = flat_map (fun x => k (f x)) l.
Proof.
  induction l as [|x l IH]; [reflexivity|].
  cbn [map flat_map]. rewrite IH. reflexivity.
Qed.

Lemma head_app_Some {A} (x : A) l l' : head l = Some x -> head (l ++ l') = Some x.
Proof. destruct l; [discriminate|]. intros H. exact H. Qed.

(** One way to split a text at its only [c]. *)
Lemma one_split (c : char) x : forall y x' y',
  ~ In c x -> ~ In c y -> x ++ c :: y = x' ++ c :: y' -> x' = x /\ y' = y.
Proof.
  induction x as [|d x IH]; intros y x' y' Hx Hy E.
  - destruct x' as [|e x'']; cbn [app] in E.
    + injection E as <-. split; reflexivity.
    + injection E as <- ->. exfalso. apply Hy, in_or_app. right. left. reflexivity.
  - destruct x' as [|e x'']; cbn [app] in E.
    + injection E as -> _. exfalso. apply Hx. left. reflexivity.
    + injection E as <- E.
      destruct (IH y x'' y') as [-> ->]; auto.
      intros Hin. apply Hx. right. exact Hin.
Qed.

(** ** The literal patterns at a literal *)

Section LiteralMatches.

Variable uni_decimal : char -> bool.
Variable uni_alnum : char -> bool.

Lemma ascii_digit_is_digit c :
  ascii_digit c = true -> is_digit uni_decimal c = true.
Proof.
  unfold ascii_digit, is_digit, in_range. intros H.
  pose proof H as H'. apply andb_true_iff in H'. destruct H' as [_ Hle].
  apply N.leb_le in Hle.
  replace (c <? 128) with true by (symmetry; apply N.ltb_lt; lia).
  exact H.
Qed.

Lemma ascii_digit_is_word c :
  ascii_digit c = true -> is_word uni_alnum c = true.
Proof.
  unfold ascii_digit, is_word. intros H.
  pose proof H as H'. unfold in_range in H'.
  apply andb_true_iff in H'. destruct H' as [_ Hle]. apply N.leb_le in Hle.
  replace (c <? 128) with true by (symmetry; apply N.ltb_lt; lia).
  rewrite H. reflexivity.
Qed.

Lemma digits_no_dot g :
  Forall (fun c => is_digit uni_decimal c = true) g -> ~ In DOT g.
Proof.
  intros Hg Hin. rewrite List.Forall_forall in Hg.
  specialize (Hg DOT Hin). discriminate Hg.
Qed.

Lemma zeros_no_dot z : Forall (fun c => c = ZERO) z -> ~ In DOT z.
Proof.
  intros Hz Hin. rewrite List.Forall_forall in Hz.
  specialize (Hz DOT Hin). discriminate Hz.
Qed.

(** What [\b(\d+)\.0+(?!\d)] matches: at a word boundary, digits, a
    dot and zeros. *)
Lemma trailing_zeros_parts b a s' :
  In s' (matches (trailing_zeros uni_decimal uni_alnum) (MState b a [])) ->
  exists g z,
    a = g ++ DOT :: z ++ ahead s'
    /\ g <> [] /\ Forall (fun c => is_digit uni_decimal c = true) g
    /\ z <> [] /\ Forall (fun c => c = ZERO) z.
Proof.
  intros H. apply in_Cat in H. destruct H as (s0 & H0 & H).
  apply in_Boundary in H0. subst s0.
  apply in_Cat in H. destruct H as (s1 & H1 & H).
  apply (in_Group_went
           (fun w => w <> [] /\ Forall (fun c => is_digit uni_decimal c = true) w))
    in H1.
  2:{ intros s1' Hs1'. apply in_Plus_Set in Hs1'.
      destruct Hs1' as (w & Hne & Hw & Hwent). exists w. auto. }
  destruct H1 as (g & (Hgne & Hgd) & Hg & _).
  apply in_Cat in H. destruct H as (s2 & H2 & H).
  apply in_Chr in H2.
  apply in_Cat in H. destruct H as (s3 & H3 & H).
  apply in_Plus_Set in H3. destruct H3 as (z & Hzne & Hz & H3).
  apply in_Ahead in H. subst s'.
  pose proof (went_trans _ _ _ _ _ H2 H3) as [Hah _].
  exists g, z. cbn [ahead] in Hg. rewrite Hg, Hah.
  split; [reflexivity|]. split; [exact Hgne|]. split; [exact Hgd|].
  split; [exact Hzne|].
  eapply List.Forall_impl; [|exact Hz]. intros c Hc.
  apply N.eqb_eq in Hc. symmetry. exact Hc.
Qed.

(** What [\b0\.([1-9]\d* )\b], the space apart, matches: a zero, a
    dot, a digit from 1 to 9 and what follows. *)
Lemma leading_zero_parts b a s' :
  In s' (matches (leading_zero uni_decimal uni_alnum) (MState b a [])) ->
  exists c w,
    a = ZERO :: DOT :: c :: w ++ ahead s' /\ in_range 49 57 c = true.
Proof.
  intros H. apply in_Cat in H. destruct H as (s0 & H0 & H).
  apply in_Boundary in H0. subst s0.
  apply in_Cat in H. destruct H as (s1 & H1 & H).
  apply in_Chr in H1.
  apply in_Cat in H. destruct H as (s2 & H2 & H).
  apply in_Chr in H2.
  pose proof (went_trans _ _ _ _ _ H1 H2) as [Hah _].
  apply in_Cat in H. destruct H as (s3 & H3 & H).
  apply in_Group in H3. destruct H3 as (s4 & H4 & Ha4 & _).
  apply in_Cat in H4. destruct H4 as (s5 & H5 & H6).
  apply in_Set in H5. destruct H5 as (c & Hc & [H5 _]).
  apply matches_forward in H6. destruct H6 as [w H6].
  apply in_Boundary in H. subst s'.
  exists c, w. cbn [ahead] in Hah. rewrite Hah, H5, H6, Ha4.
  split; [reflexivity|exact Hc].
Qed.

(** The first match of [\b(\d+)\.0+(?!\d)] at a literal that stands at
    a word boundary and is not followed by a digit. *)
Lemma trailing_zeros_here (b g z post : text) :
  head_is (is_word uni_alnum) b = false ->
  g <> [] -> Forall (fun c => ascii_digit c = true) g ->
  z <> [] -> Forall (fun c => c = ZERO) z ->
  head_is (is_digit uni_decimal) post = false ->
  exists s1,
    head (matches (trailing_zeros uni_decimal uni_alnum)
                  (MState b ((g ++ DOT :: z) ++ post) []))
    = Some s1
    /\ ahead s1 = post /\ groups s1 = [(1%nat, g)].
Proof.
  intros Hb Hgne Hg Hzne Hz Hpost.
  assert (Hgd : Forall (fun c => is_digit uni_decimal c = true) g).
  { eapply List.Forall_impl; [|exact Hg]. intros c. apply ascii_digit_is_digit. }
  set (s0 := MState b ((g ++ DOT :: z) ++ post) []).
  assert (Hshape : ahead s0 = g ++ DOT :: z ++ post).
  { unfold s0. cbn [ahead]. rewrite <- app_assoc. reflexivity. }
  (* the word boundary *)
  unfold trailing_zeros. rewrite matches_Cat.
  assert (Hbound : matches (Boundary (is_word uni_alnum)) s0 = [s0]).
  { cbn [matches]. unfold at_boundary, s0. cbn [behind ahead].
    destruct g as [|c g']; [congruence|]. inversion Hg; subst.
    cbn [app word_here]. unfold head_is in Hb.
    replace (word_here (is_word uni_alnum) b) with false
      by (destruct b; [reflexivity|symmetry; exact Hb]).
    rewrite ascii_digit_is_word by assumption. reflexivity. }
  rewrite Hbound. cbn [flat_map]. rewrite app_nil_r.
  (* the digits, all of them *)
  rewrite matches_Cat.
  change (matches (Group 1 (Plus true (Set_ (is_digit uni_decimal)))) s0)
    with (map (fun s' => MState (behind s') (ahead s')
                                ((1%nat, consumed s0 s') :: groups s'))
              (matches (Plus true (Set_ (is_digit uni_decimal))) s0)).
  rewrite flat_map_through.
  pose proof (plus_run (is_digit uni_decimal)
                (fun x => matches
                   (Cat (Chr DOT)
                      (Cat (Plus true (Chr ZERO))
                         (Ahead false (Set_ (is_digit uni_decimal)))))
                   (MState (behind x) (ahead x)
                           ((1%nat, consumed s0 x) :: groups x)))
                b ((g ++ DOT :: z) ++ post) []) as Hrun.
  fold s0 in Hrun.
  assert (Hspan : span (is_digit uni_decimal) ((g ++ DOT :: z) ++ post)
                  = length g).
  { rewrite <- app_assoc. apply span_stop; [exact Hgd|reflexivity]. }
  rewrite Hspan in Hrun.
  destruct (length g) as [|n] eqn:Hlen; [destruct g; [congruence|discriminate]|].
  destruct Hrun as (tl & -> & _). rewrite <- Hlen.
  assert (Hmoved : moved (length g) s0
                   = MState (rev g ++ b) (DOT :: z ++ post) []).
  { unfold s0. rewrite <- app_assoc. apply moved_app. }
  rewrite Hmoved. cbn [behind ahead groups].
  assert (Hcons : consumed s0 (MState (rev g ++ b) (DOT :: z ++ post) []) = g).
  { apply consumed_forward. rewrite Hshape. reflexivity. }
  rewrite Hcons. clear Hcons Hmoved.
  (* the dot *)
  rewrite matches_Cat, Chr_here, N.eqb_refl.
  cbn [flat_map]. rewrite app_nil_r.
  (* the zeros, all of them, and no digit after them *)
  rewrite matches_Cat.
  pose proof (plus_run (N.eqb ZERO)
                (matches (Ahead false (Set_ (is_digit uni_decimal))))
                (DOT :: rev g ++ b) (z ++ post) [(1%nat, g)]) as Hzeros.
  assert (Hzspan : span (N.eqb ZERO) (z ++ post) = length z).
  { apply span_stop.
    - eapply List.Forall_impl; [|exact Hz]. intros c ->. reflexivity.
    - destruct post as [|d post']; [reflexivity|]. cbn [head_is] in *.
      destruct (N.eqb_spec ZERO d) as [<-|_]; [discriminate Hpost|reflexivity]. }
  rewrite Hzspan in Hzeros.
  destruct (length z) as [|m] eqn:Hzlen; [destruct z; [congruence|discriminate]|].
  destruct Hzeros as (tl' & Hz' & _).
  unfold Chr. rewrite Hz'. rewrite <- Hzlen.
  rewrite moved_app.
  exists (MState (rev z ++ DOT :: rev g ++ b) post [(1%nat, g)]).
  split; [|split; reflexivity].
  apply head_app_Some, head_app_Some.
  cbn [matches ahead].
  destruct post as [|d post']; [reflexivity|].
  cbn [head_is] in Hpost. rewrite Hpost. reflexivity.
Qed.

(** The first match of [\b0\.([1-9]\d* )\b] at a literal that stands
    between word boundaries. *)
Lemma leading_zero_here (b : text) (d : char) (ds post : text) :
  head_is (is_word uni_alnum) b = false ->
  in_range 49 57 d = true -> Forall (fun c => ascii_digit c = true) ds ->
  head_is (fun c => is_word uni_alnum c || is_digit uni_decimal c) post = false ->
  exists s1,
    head (matches (leading_zero uni_decimal uni_alnum)
                  (MState b ((ZERO :: DOT :: d :: ds) ++ post) []))
    = Some s1
    /\ ahead s1 = post /\ groups s1 = [(1%nat, d :: ds)].
Proof.
  intros Hb Hd Hds Hpost.
  assert (Hdd : ascii_digit d = true).
  { unfold ascii_digit, in_range in *. apply andb_true_iff in Hd.
    destruct Hd as [H1 H2]. apply N.leb_le in H1. rewrite H2, andb_true_r.
    apply N.leb_le. lia. }
  assert (Hpw : head_is (is_word uni_alnum) post = false
                /\ head_is (is_digit uni_decimal) post = false).
  { destruct post as [|c post']; [split; reflexivity|].
    cbn [head_is] in *. apply orb_false_iff in Hpost. exact Hpost. }
  destruct Hpw as [Hpw Hpd].
  set (s0 := MState b ((ZERO :: DOT :: d :: ds) ++ post) []).
  unfold leading_zero. rewrite matches_Cat.
  assert (Hbound : matches (Boundary (is_word uni_alnum)) s0 = [s0]).
  { cbn [matches]. unfold at_boundary, s0. cbn [behind ahead app word_here].
    unfold head_is in Hb.
    replace (word_here (is_word uni_alnum) b) with false
      by (destruct b; [reflexivity|symmetry; exact Hb]).
    reflexivity. }
  rewrite Hbound. cbn [flat_map]. rewrite app_nil_r.
  rewrite matches_Cat. unfold s0. rewrite Chr_here. cbn [app].
  rewrite N.eqb_refl. cbn [flat_map]. rewrite app_nil_r.
  rewrite matches_Cat, Chr_here, N.eqb_refl. cbn [flat_map]. rewrite app_nil_r.
  set (s2 := MState (DOT :: ZERO :: b) (d :: ds ++ post) []).
  rewrite matches_Cat.
  change (matches (Group 1 (Cat (Set_ (in_range 49 57))
                                (Star true (Set_ (is_digit uni_decimal))))) s2)
    with (map (fun s' => MState (behind s') (ahead s')
                                ((1%nat, consumed s2 s') :: groups s'))
              (matches (Cat (Set_ (in_range 49 57))
                            (Star true (Set_ (is_digit uni_decimal)))) s2)).
  rewrite flat_map_through, matches_Cat.
  assert (Hfirst : matches (Set_ (in_range 49 57)) s2
                   = [MState (d :: DOT :: ZERO :: b) (ds ++ post) []]).
  { unfold s2. cbn [matches ahead behind groups]. rewrite Hd. reflexivity. }
  rewrite Hfirst. cbn [flat_map]. rewrite app_nil_r.
  set (s3 := MState (d :: DOT :: ZERO :: b) (ds ++ post) []).
  change (matches (Star true (Set_ (is_digit uni_decimal))) s3)
    with (star_iter true (matches (Set_ (is_digit uni_decimal)))
                    (length (ahead s3)) s3).
  destruct (greedy_run (is_digit uni_decimal)
              (fun x => matches (Boundary (is_word uni_alnum))
                          (MState (behind x) (ahead x)
                                  ((1%nat, consumed s2 x) :: groups x)))
              (length (ahead s3)) s3 (le_n _)) as (tl & -> & _).
  assert (Hspan : span (is_digit uni_decimal) (ahead s3) = length ds).
  { unfold s3. cbn [ahead]. apply span_stop; [|exact Hpd].
    eapply List.Forall_impl; [|exact Hds]. intros c. apply ascii_digit_is_digit. }
  rewrite Hspan.
  assert (Hmoved : moved (length ds) s3
                   = MState (rev ds ++ d :: DOT :: ZERO :: b) post []).
  { unfold s3. apply moved_app. }
  rewrite Hmoved. cbn [behind ahead groups].
  assert (Hcons : consumed s2 (MState (rev ds ++ d :: DOT :: ZERO :: b) post [])
                  = d :: ds).
  { apply consumed_forward. reflexivity. }
  rewrite Hcons. clear Hcons Hmoved.
  exists (MState (rev ds ++ d :: DOT :: ZERO :: b) post [(1%nat, d :: ds)]).
  split; [|split; reflexivity].
  apply head_app_Some. cbn [matches]. unfold at_boundary. cbn [behind ahead].
  replace (word_here (is_word uni_alnum) post) with false
    by (destruct post; [reflexivity|symmetry; exact Hpw]).
  assert (Hlast : word_here (is_word uni_alnum)
                    (rev ds ++ d :: DOT :: ZERO :: b) = true).
  { destruct (rev ds) as [|e r] eqn:E; cbn [app word_here].
    - apply ascii_digit_is_word, Hdd.
    - apply ascii_digit_is_word.
      rewrite List.Forall_forall in Hds. apply Hds, in_rev.
      rewrite E. left. reflexivity. }
  rewrite Hlast. reflexivity.
Qed.

End LiteralMatches.

(** * The literal optimizer at a literal *)

Lemma ends_with_app p (p1 p2 : text) :
  p2 <> [] -> ends_with p (p1 ++ p2) = ends_with p p2.
Proof.
  intros Hp2. unfold ends_with. rewrite rev_app_distr.
  destruct (rev p2) as [|c r] eqn:E; [|reflexivity].
  exfalso. apply Hp2. apply (f_equal (@rev char)) in E.
  rewrite rev_involutive in E. exact E.
Qed.

Lemma ends_with_all (p : char -> bool) (t : text) :
  t <> [] -> Forall (fun c => p c = true) t -> ends_with p t = true.
Proof.
  intros Hne Ht. unfold ends_with.
  destruct (rev t) as [|c r] eqn:E.
  - exfalso. apply Hne. apply (f_equal (@rev char)) in E.
    rewrite rev_involutive in E. exact E.
  - cbn [head_is]. rewrite List.Forall_forall in Ht. apply Ht, in_rev.
    rewrite E. left. reflexivity.
Qed.

Section LiteralsInPlace.

Variable uni_decimal : char -> bool.
Variable uni_alnum : char -> bool.

(** X26: a number written with only zeros after its point loses them:
    where the text holds no other dot, the digits stand at a word
    boundary and no digit follows the zeros, the literal optimizer
    leaves the digits and the point, and the rest of the text as it
    is. *)
Theorem trailing_zeros_removed (pre g z post : text) :
  ~ In DOT pre -> ~ In DOT post ->
  ends_with (fun c => is_word uni_alnum c || is_digit uni_decimal c) pre = false ->
  g <> [] -> Forall (fun c => ascii_digit c = true) g ->
  z <> [] -> Forall (fun c => c = ZERO) z ->
  head_is (is_digit uni_decimal) post = false ->
  optimize_float_literals uni_decimal uni_alnum (pre ++ (g ++ DOT :: z) ++ post)
  = pre ++ (g ++ [DOT]) ++ post.
Proof.
  intros Hpre Hpost Hend Hgne Hg Hzne Hz Hnext.
  assert (Hgd : Forall (fun c => is_digit uni_decimal c = true) g).
  { eapply List.Forall_impl; [|exact Hg]. intros c. apply ascii_digit_is_digit. }
  assert (Hb : head_is (is_word uni_alnum) (rev pre) = false).
  { unfold ends_with in Hend. destruct (rev pre) as [|c r]; [reflexivity|].
    cbn [head_is] in *. apply orb_false_iff in Hend. apply Hend. }
  destruct (trailing_zeros_here uni_decimal uni_alnum (rev pre) g z post
              Hb Hgne Hg Hzne Hz Hnext) as (s1 & Hhead & Hahead & Hgroups).
  unfold optimize_float_literals.
  rewrite (re_sub_one _ _ pre (g ++ DOT :: z) post s1);
    [|idtac|exact Hhead|exact Hahead|intros E; apply app_eq_nil in E;
      destruct E as [_ E]; discriminate E|idtac].
  - (* the second rule finds nothing *)
    rewrite Hgroups. cbn [captured group Nat.eqb].
    apply re_sub_none. intros q1 q2 Ht. apply no_match. intros s' Hin.
    apply leading_zero_parts in Hin. destruct Hin as (c & w & -> & Hc).
    assert (E : (pre ++ g) ++ DOT :: post
                = (q1 ++ [ZERO]) ++ DOT :: c :: w ++ ahead s').
    { rewrite <- !app_assoc. cbn [app]. rewrite <- Ht, <- !app_assoc.
      reflexivity. }
    apply one_split in E; [|intros H; apply in_app_or in H; destruct H as [H|H];
      [exact (Hpre H)|exact (digits_no_dot uni_decimal g Hgd H)]|exact Hpost].
    destruct E as [_ E]. rewrite <- E in Hnext. cbn [head_is] in Hnext.
    assert (Hcd : is_digit uni_decimal c = true).
    { apply ascii_digit_is_digit. unfold ascii_digit, in_range in *.
      apply andb_true_iff in Hc. destruct Hc as [H1 H2].
      apply N.leb_le in H1. rewrite H2, andb_true_r. apply N.leb_le. lia. }
    congruence.
  - (* no match starts before the literal *)
    intros p1 p2 -> Hp2. apply no_match. intros s' Hin.
    apply trailing_zeros_parts in Hin.
    destruct Hin as (g' & z' & E & _ & Hg' & _).
    assert (E' : (p2 ++ g) ++ DOT :: z ++ post = g' ++ DOT :: z' ++ ahead s').
    { rewrite <- E, <- !app_assoc. reflexivity. }
    apply one_split in E'.
    + destruct E' as [-> _]. apply Forall_app in Hg'. destruct Hg' as [Hp2d _].
      rewrite ends_with_app in Hend by exact Hp2.
      rewrite (ends_with_all _ p2 Hp2) in Hend; [discriminate Hend|].
      eapply List.Forall_impl; [|exact Hp2d]. intros c ->. apply orb_true_r.
    + intros H. apply in_app_or in H. destruct H as [H|H].
      * apply Hpre, in_or_app. right. exact H.
      * exact (digits_no_dot uni_decimal g Hgd H).
    + intros H. apply in_app_or in H. destruct H as [H|H].
      * exact (zeros_no_dot z Hz H).
      * exact (Hpost H).
  - (* no match starts after the literal *)
    intros q1 q2 -> . apply no_match. intros s' Hin.
    apply trailing_zeros_parts in Hin. destruct Hin as (g' & z' & -> & _).
    apply Hpost, in_or_app. right. apply in_or_app. right. left. reflexivity.
Qed.

(** X27: a number written as a zero, a point and digits of which the
    first is not a zero loses the zero: where the text holds no other
    dot and the literal stands between word boundaries, the literal
    optimizer leaves the point and the digits, and the rest of the
    text as it is. *)
Theorem leading_zero_removed (pre : text) (d : char) (ds post : text) :
  ~ In DOT pre -> ~ In DOT post ->
  ends_with (is_word uni_alnum) pre = false ->
  in_range 49 57 d = true -> Forall (fun c => ascii_digit c = true) ds ->
  head_is (fun c => is_word uni_alnum c || is_digit uni_decimal c) post = false ->
  optimize_float_literals uni_decimal uni_alnum
    (pre ++ (ZERO :: DOT :: d :: ds) ++ post)
  = pre ++ (DOT :: d :: ds) ++ post.
Proof.
  intros Hpre Hpost Hend Hd Hds Hnext.
  assert (Hdsd : Forall (fun c => is_digit uni_decimal c = true) ds).
  { eapply List.Forall_impl; [|exact Hds]. intros c. apply ascii_digit_is_digit. }
  assert (Hnodot : ~ In DOT (d :: ds ++ post)).
  { intros [H|H]; [rewrite H in Hd; discriminate Hd|].
    apply in_app_or in H. destruct H as [H|H];
      [exact (digits_no_dot uni_decimal ds Hdsd H)|exact (Hpost H)]. }
  destruct (leading_zero_here uni_decimal uni_alnum (rev pre) d ds post
              Hend Hd Hds Hnext) as (s1 & Hhead & Hahead & Hgroups).
  unfold optimize_float_literals.
  rewrite (re_sub_none (trailing_zeros uni_decimal uni_alnum)).
  2:{ (* the first rule finds nothing *)
    intros q1 q2 Ht. apply no_match. intros s' Hin.
    apply trailing_zeros_parts in Hin.
    destruct Hin as (g' & z' & -> & _ & _ & Hz'ne & Hz').
    assert (E : (pre ++ [ZERO]) ++ DOT :: d :: ds ++ post
                = (q1 ++ g') ++ DOT :: z' ++ ahead s').
    { rewrite <- !app_assoc. cbn [app]. cbn [app] in Ht. rewrite Ht.
      reflexivity. }
    apply one_split in E; [|intros H; apply in_app_or in H; destruct H as [H|H];
      [exact (Hpre H)|destruct H as [H|[]]; discriminate H]|exact Hnodot].
    destruct E as [_ E]. destruct z' as [|c z'']; [congruence|].
    inversion Hz'; subst. cbn [app] in E. injection E as <- _.
    discriminate Hd. }
  rewrite (re_sub_one _ _ pre (ZERO :: DOT :: d :: ds) post s1);
    [|idtac|exact Hhead|exact Hahead|discriminate|idtac].
  - rewrite Hgroups. reflexivity.
  - (* no match starts before the literal *)
    intros p1 p2 -> Hp2. apply no_match. intros s' Hin.
    apply leading_zero_parts in Hin. destruct Hin as (c & w & E & _).
    assert (E' : (p2 ++ [ZERO]) ++ DOT :: d :: ds ++ post
                 = [ZERO] ++ DOT :: c :: w ++ ahead s').
    { cbn [app]. rewrite <- E, <- !app_assoc. reflexivity. }
    apply one_split in E'; [|intros H; apply in_app_or in H; destruct H as [H|H];
      [apply Hpre, in_or_app; right; exact H
      |destruct H as [H|[]]; discriminate H]|exact Hnodot].
    destruct E' as [E' _]. destruct p2; [congruence|].
    destruct p2; discriminate E'.
  - (* no match starts after the literal *)
    intros q1 q2 ->. apply no_match. intros s' Hin.
    apply leading_zero_parts in Hin. destruct Hin as (c & w & -> & _).
    apply Hpost, in_or_app. right. right. left. reflexivity.
Qed.

End LiteralsInPlace.

Lemma trailing_zeros_removed_witness :
  optimize_float_literals (fun _ => false) (fun _ => false)
    (str "x = " ++ (str "1" ++ DOT :: str "000") ++ str ";")
  = str "x = " ++ (str "1" ++ [DOT]) ++ str ";".
Proof.
  apply trailing_zeros_removed; try reflexivity; try discriminate.
  - intros H. repeat (destruct H as [H|H]; [discriminate H|]). exact H.
  - intros H. repeat (destruct H as [H|H]; [discriminate H|]). exact H.
  - repeat constructor.
  - repeat constructor.
Defined.

Lemma leading_zero_removed_witness :
  optimize_float_literals (fun _ => false) (fun _ => false)
    (str "y = " ++ (ZERO :: DOT :: 53 :: str "0") ++ str ";")
  = str "y = " ++ (DOT :: 53 :: str "0") ++ str ";".
Proof.
  apply leading_zero_removed; try reflexivity.
  - intros H. repeat (destruct H as [H|H]; [discriminate H|]). exact H.
  - intros H. repeat (destruct H as [H|H]; [discriminate H|]). exact H.
  - repeat constructor.
Defined.
